(** * Contract programs: performance profiles and naive hill climbing

    A shallow embedding of [src/classes/performance_profile.py] and
    [src/classes/contract_program.py], and the properties of the
    evaluation engine and of the local search that the specification
    states about them.

    The program is embedded twice.  In the first embedding Python floats
    are exact rationals ([Q], kept in lowest terms), so that [+], [-], [*],
    [/], [//] and the comparisons mean what they mean on the numbers the
    floats denote; it carries the statements that do not depend on how a
    result is rounded: the structure of the queries, the order of the
    scores, the frame of the updates, bounds that rounding keeps.  In the
    second embedding (modules [Binary64] and [Float64]) the numbers are the
    primitive IEEE-754 binary64 floats, with the operations CPython
    performs on them; it carries the statements about the values that are
    computed: the rounding to a step, the estimate of a slot, the cooling
    of the step of the search. *)

From Stdlib Require Import ZArith QArith Qround Qabs Lqa Lia Ascii Sorted.
From Stdlib Require PrimFloat SpecFloat FloatOps FloatAxioms.
From stdpp Require Import base option list gmap strings pretty.

Local Open Scope Z_scope.

(** ** Exceptions and results *)

(** The exceptions the two classes can raise, by Python class. *)
Inductive exn : Set :=
| ValueError
| KeyError
| ZeroDivisionError
| IndexError
| TypeError
| OverflowError.

Global Instance exn_eq_dec : EqDecision exn.
Proof. solve_decision. Defined.

(** A call either returns a value or raises. *)
Inductive result (A : Type) : Type :=
| Ok (a : A)
| Err (e : exn).
Global Arguments Ok {A} a.
Global Arguments Err {A} e.

Global Instance result_ret : MRet result := @Ok.
Global Instance result_bind : MBind result := λ A B f m,
  match m with Ok a => f a | Err e => Err e end.
Global Instance result_fmap : FMap result := λ A B f m,
  match m with Ok a => Ok (f a) | Err e => Err e end.

Definition is_ok {A} (r : result A) : bool :=
  match r with Ok _ => true | Err _ => false end.

(** A [for] loop that threads an accumulator and stops at the first
    exception. *)
Fixpoint for_each {A S : Type} (body : S → A → result S) (s : S) (xs : list A)
  : result S :=
  match xs with
  | [] => Ok s
  | x :: xs' => s' ← body s x; for_each body s' xs'
  end.

(** ** Numbers

    The operations of Python on the numbers its floats denote: exact,
    without the rounding of binary64 (for the operations as the floats
    compute them see [Binary64] and [Float64]). *)

Module Num.
Local Open Scope Q_scope.

Definition add (a b : Q) : Q := Qred (a + b).
Definition sub (a b : Q) : Q := Qred (a - b).
Definition mul (a b : Q) : Q := Qred (a * b).

Definition eqb (a b : Q) : bool := Qeq_bool a b.
Definition leb (a b : Q) : bool := Qle_bool a b.
Definition ltb (a b : Q) : bool := negb (Qle_bool b a).
Definition gtb (a b : Q) : bool := ltb b a.

(** [a / b]: the exact quotient. *)
Definition truediv (a b : Q) : result Q :=
  if eqb b 0 then Err ZeroDivisionError else Ok (Qred (a / b)).

(** [a // b]: the floor of the exact quotient. *)
Definition floordiv (a b : Q) : result Q :=
  if eqb b 0 then Err ZeroDivisionError else Ok (inject_Z (Qfloor (a / b))).

(** [round(x)] with one argument: the nearest integer, halves to the
    even one. *)
Definition round_half_even (q : Q) : Z :=
  let f := Qfloor q in
  match Qcompare (q - inject_Z f) (1 # 2) with
  | Lt => f
  | Gt => (f + 1)%Z
  | Eq => if Z.even f then f else (f + 1)%Z
  end.

Definition of_Z (n : Z) : Q := inject_Z n.
Definition of_nat (n : nat) : Q := inject_Z (Z.of_nat n).

(** [sum(xs)]: left to right, from 0, exact. *)
Definition sum (xs : list Q) : Q := fold_left add xs 0.

(** The plain sum, to state results against. *)
Definition total (xs : list Q) : Q := foldr Qplus 0 xs.

Definition pow10 (d : nat) : Q := inject_Z (10 ^ Z.of_nat d).

(** [numpy.round(x, decimals)]; [decimals] may be negative. *)
Definition np_round (decimals : Z) (x : Q) : Q :=
  if (0 <=? decimals)%Z
  then Qred (inject_Z (round_half_even (x * pow10 (Z.to_nat decimals)))
             / pow10 (Z.to_nat decimals))
  else Qred (inject_Z (round_half_even (x / pow10 (Z.to_nat (- decimals))))
             * pow10 (Z.to_nat (- decimals))).

(** [numpy.arange(start, stop, step)]: [ceil((stop - start) / step)]
    values [start + i * step], on exact numbers. *)
Definition np_arange (start stop step : Q) : result (list Q) :=
  len ← truediv (stop - start) step;
  Ok ((λ i : nat, add start (of_nat i * step))
          <$> seq 0 (Z.to_nat (Qceiling len))).
End Num.

(** ** Text of numbers *)

Module Text.
Local Open Scope string_scope.

Definition digits (n : Z) : string := pretty (Z.to_N n).

(** Left padding with zeros up to [width] characters. *)
Fixpoint zeros (n : nat) : string :=
  match n with O => "" | S n' => "0" +:+ zeros n' end.
Definition pad (width : nat) (s : string) : string :=
  zeros (width - String.length s) +:+ s.

(** ["{:.<d>f}".format(q)] for the number [q]: [d] decimals, nearest,
    halves to even.  (A float is formatted from the number it denotes,
    see [Float64.format_fixed]: the float of 0.05 is above a twentieth
    and has the one decimal 0.1.) *)
Definition format_fixed (d : nat) (q : Q) : string :=
  let scaled := Num.round_half_even (Qabs q * Num.pow10 d)%Q in
  let unit := 10 ^ Z.of_nat d in
  (if Num.ltb q 0 then "-" else "")
    +:+ digits (scaled / unit)
    +:+ match d with
        | O => ""
        | _ => "." +:+ pad d (digits (scaled mod unit))
        end.

(** The fewest decimals (at most [fuel] more than [d]) with which [q] is
    written exactly. *)
Fixpoint decimals_needed (fuel d : nat) (q : Q) : nat :=
  match fuel with
  | O => d
  | S fuel' =>
      if Qeq_bool (inject_Z (Qfloor (q * Num.pow10 d))) (q * Num.pow10 d)%Q
      then d else decimals_needed fuel' (S d) q
  end.

Fixpoint drop_zeros (s : string) : string :=
  match s with
  | String "0" s' => drop_zeros s'
  | _ => s
  end.
(** Trailing zeros removed. *)
Definition strip_zeros (s : string) : string :=
  String.rev (drop_zeros (String.rev s)).

(** [str(x)] and ["{}".format(x)] of a float: the shortest decimal that
    denotes it (cut at 17 decimals), written with a point, or with an
    exponent of at least two digits below [1e-4] and from [1e16] on. *)
Definition repr (q : Q) : string :=
  let d := decimals_needed 17 0 q in
  let m := Num.round_half_even (Qabs q * Num.pow10 d)%Q in
  let ds := digits m in
  let decpt := Z.of_nat (String.length ds) - Z.of_nat d in
  if (m =? 0)%Z || ((-4 <? decpt)%Z && (decpt <=? 16)%Z)
  then format_fixed (Nat.max d 1) q
  else
    let sig := strip_zeros ds in
    let e := decpt - 1 in
    (if Num.ltb q 0 then "-" else "")
      +:+ String.substring 0 1 sig
      +:+ (if (String.length sig <=? 1)%nat then ""
           else "." +:+ String.substring 1 (String.length sig - 1) sig)
      +:+ "e" +:+ (if (e <? 0)%Z then "-" else "+")
      +:+ pad 2 (digits (Z.abs e)).

(** [s.find(c)]: the index of the first [c], or -1. *)
Fixpoint find_char (c : Ascii.ascii) (s : string) (i : Z) : Z :=
  match s with
  | EmptyString => -1
  | String a s' => if Ascii.eqb a c then i else find_char c s' (i + 1)
  end.
End Text.


(** ** Rounding to the nearest multiple of a step *)

(** The three operations [round_nearest] performs on its arguments. *)
Class Arith (F : Type) := {
  arith_truediv : F → F → result F;   (* [a / b] *)
  arith_round : F → result Z;         (* [round(a)], an [int] *)
  arith_int_mul : Z → F → result F    (* [n * a] for an [int] [n] *)
}.

(** [PerformanceProfile.round_nearest]:
    [return round(number / step) * step]. *)
Definition round_nearest {F} `{Arith F} (number step : F) : result F :=
  quotient ← arith_truediv number step;
  n ← arith_round quotient;
  arith_int_mul n step.

(** Exact arithmetic: no rounding of the quotient or of the product. *)
Global Instance exact_arith : Arith Q := {
  arith_truediv := Num.truediv;
  arith_round q := Ok (Num.round_half_even q);
  arith_int_mul n a := Ok (Num.mul (Num.of_Z n) a)
}.

(** IEEE-754 binary64, as CPython computes on [float]. *)
Module Binary64.
Import PrimFloat SpecFloat FloatOps.

Definition truediv (a b : float) : result float :=
  if PrimFloat.eqb b PrimFloat.zero then Err ZeroDivisionError
  else Ok (PrimFloat.div a b).

(** [round(x)]: the integer nearest to the value of [x], halves to the
    even one; [nan] and the infinities raise. *)
Definition round_half_even (x : float) : result Z :=
  match Prim2SF x with
  | S754_nan => Err ValueError
  | S754_infinity _ => Err OverflowError
  | S754_zero _ => Ok 0
  | S754_finite s m e =>
      let n :=
        if 0 <=? e then Z.pos m * 2 ^ e
        else
          let d := 2 ^ (- e) in
          let q := Z.pos m / d in
          match Z.compare (2 * (Z.pos m mod d)) d with
          | Lt => q
          | Gt => q + 1
          | Eq => if Z.even q then q else q + 1
          end in
      Ok (if s then - n else n)
  end.

(** [float(n)] for an [int]: the nearest binary64, or [OverflowError]. *)
Definition of_int (n : Z) : result float :=
  let x := SF2Prim (binary_normalize prec emax n 0 false) in
  if PrimFloat.is_infinity x then Err OverflowError else Ok x.

Definition int_mul (n : Z) (a : float) : result float :=
  x ← of_int n; Ok (PrimFloat.mul x a).

Global Instance binary64_arith : Arith float := {
  arith_truediv := truediv;
  arith_round := round_half_even;
  arith_int_mul := int_mul
}.

(** The binary64 numbers nearest to the decimals of the examples. *)
Definition d0_05 : float := 0x1.999999999999ap-5%float.
Definition d0_07 : float := 0x1.1eb851eb851ecp-4%float.
Definition d0_08 : float := 0x1.47ae147ae147bp-4%float.
Definition d0_1 : float := 0x1.999999999999ap-4%float.

(** [n / 10^k] as the literal [n e-k] is read. *)
Definition decimal (n : Z) (k : nat) : result float :=
  a ← of_int n; b ← of_int (10 ^ Z.of_nat k); truediv a b.
End Binary64.

(** ** Performance profiles *)

(** The parsed JSON file: objects keyed by strings, ending in arrays of
    quality samples. *)
Local Set Warnings "-register-all".
Inductive mapping : Type :=
| Samples (qualities : list Q)
| Dict (entries : gmap string mapping).

(** Values that flow as [parent_qualities]: a float, or a list. *)
Inductive value : Type :=
| VFloat (q : Q)
| VList (items : list value).

(** Modelled from the spec: the class [TimeAllocation] of
    [src/classes/time_allocation.py], constructed as
    [TimeAllocation(time, node_id)] and read through [.time] and
    [.node_id]: one (node id, time) pair of an allocation vector. *)
Record TimeAllocation : Type := mkTimeAllocation {
  time : Q;
  node_id : nat
}.

Record PerformanceProfile : Type := mkPerformanceProfile {
  dictionary : option mapping;
  time_interval : Q;
  quality_interval : Q;
  time_limit : Q;
  time_step_size : Q
}.

Section profile.
Context (self : PerformanceProfile).

(** [d[key]] *)
Definition subscript (d : mapping) (key : string) : result mapping :=
  match d with
  | Dict entries =>
      match entries !! key with
      | Some v => Ok v
      | None => Err KeyError
      end
  | Samples _ => Err TypeError
  end.

(** The value found at a time key, used as a list of numbers.  The data
    model has an array of numbers at every time key; an object there is
    outside it, and is refused here at once (Python goes on with the keys
    of the object, and raises once they are added up). *)
Definition samples_of (d : mapping) : result (list Q) :=
  match d with
  | Samples qualities => Ok qualities
  | Dict _ => Err TypeError
  end.

(** Truth value of a list or float, and iteration over it. *)
Definition truthy (v : value) : bool :=
  match v with
  | VFloat q => negb (Num.eqb q 0)
  | VList [] => false
  | VList (_ :: _) => true
  end.
Definition iterate (v : value) : result (list value) :=
  match v with
  | VList items => Ok items
  | VFloat _ => Err TypeError
  end.
Definition as_float (v : value) : result Q :=
  match v with
  | VFloat q => Ok q
  | VList _ => Err TypeError
  end.

(** [self.dictionary["node_{}".format(id)]['qualities']] *)
Definition node_qualities (top : mapping) (id : nat) : result mapping :=
  node ← subscript top ("node_" +:+ pretty id)%string;
  subscript node "qualities"%string.

(** The loop over the parents' qualities:
    [dictionary = dictionary["{:.2f}".format(round_nearest(q, quality_interval))]] *)
Definition descend (d : mapping) (parent_qualities : list value)
  : result mapping :=
  for_each
    (λ d parent_quality,
       q ← as_float parent_quality;
       q ← round_nearest q (quality_interval self);
       subscript d (Text.format_fixed 2 q))
    d parent_qualities.

(** [PerformanceProfile.find_number_of_decimals], of a float (as the
    default [.1] and [STEP_SIZE] are): its [str] has a point. *)
Definition find_number_of_decimals (number : Q) : Z :=
  Text.find_char "."%char (String.rev (Text.repr number)) 0.

(** [start_step] and [end_step] of the interval of [time]. *)
Definition interval_bounds (time : Q) : result (Q * Q) :=
  q ← Num.floordiv time (time_interval self);
  let start_step := Num.mul q (time_interval self) in
  let end_step := Num.add start_step (time_interval self) in
  if Num.eqb time (time_limit self) then
    q ← Num.floordiv (Num.sub time (time_interval self)) (time_interval self);
    let start_step := Num.mul q (time_interval self) in
    Ok (start_step, Num.add start_step (time_interval self))
  else Ok (start_step, end_step).

(** The time keys read:
    [np.arange(start_step, end_step, time_step_size).round(num_decimals)],
    each formatted with ["{}"]. *)
Definition interval_keys (time : Q) : result (list string) :=
  '(start_step, end_step) ← interval_bounds time;
  let num_decimals := find_number_of_decimals (time_step_size self) in
  ts ← Num.np_arange start_step end_step (time_step_size self);
  Ok ((λ t, Text.repr (Num.np_round num_decimals t)) <$> (ts : list Q)).

(** [PerformanceProfile.query_quality_list_on_interval] *)
Definition query_quality_list_on_interval
    (time : Q) (id : nat) (parent_qualities : value) : result (list Q) :=
  match dictionary self with
  | None => Err ValueError
  | Some top =>
      d ← node_qualities top id;
      d ← (if truthy parent_qualities
           then pqs ← iterate parent_qualities; descend d pqs
           else Ok d);
      keys ← interval_keys time;
      for_each
        (λ qualities key,
           found ← subscript d key;
           more ← samples_of found;
           Ok (qualities ++ more))
        [] keys
  end.

(** [sorted(xs)], by insertion. *)
Fixpoint insert_sorted (x : Q) (xs : list Q) : list Q :=
  match xs with
  | [] => [x]
  | y :: ys => if Num.ltb y x then y :: insert_sorted x ys else x :: y :: ys
  end.
Definition sorted (xs : list Q) : list Q := foldr insert_sorted [] xs.

(** The counting loop of [query_probability_contract_expression]. *)
Definition count_in_interval (start_quality end_quality : Q)
    (quality_list : list Q) : Z :=
  fold_left
    (λ number_in_interval quality,
       if Num.leb start_quality quality && Num.ltb quality end_quality
       then number_in_interval + 1 else number_in_interval)
    quality_list 0.

(** [PerformanceProfile.query_probability_contract_expression] *)
Definition query_probability_contract_expression
    (queried_quality : Q) (quality_list : list Q) : result Q :=
  let quality_list := sorted quality_list in
  q ← Num.floordiv queried_quality (quality_interval self);
  let start_quality := Num.mul q (quality_interval self) in
  let end_quality := Num.add start_quality (quality_interval self) in
  let number_in_interval :=
    count_in_interval start_quality end_quality quality_list in
  Num.truediv (Num.of_Z number_in_interval) (Num.of_nat (length quality_list)).

(** [PerformanceProfile.average_quality] *)
Definition average_quality (qualities : list Q) : result Q :=
  Num.truediv (Num.sum qualities) (Num.of_nat (length qualities)).

(** [PerformanceProfile.query_average_quality] *)
Definition query_average_quality
    (id : nat) (time_allocation : TimeAllocation) (parent_qualities : value)
  : result Q :=
  match dictionary self with
  | None => Err ValueError
  | Some top =>
      if negb (truthy parent_qualities) then
        d ← node_qualities top id;
        estimated_time ← round_nearest (time time_allocation) (time_interval self);
        found ← subscript d (Text.format_fixed 1 estimated_time);
        qualities ← samples_of found;
        average_quality qualities
      else
        d ← node_qualities top id;
        estimated_time ← round_nearest (time time_allocation) (time_interval self);
        pqs ← iterate parent_qualities;
        d ← descend d pqs;
        found ← subscript d (Text.format_fixed 1 estimated_time);
        qualities ← samples_of found;
        average_quality qualities
  end.
End profile.

(** ** Contract programs *)

(** Modelled from the spec: the class [Node] of the DAG collaborator, with
    its [id] and its [parents] (spec section 3); the graph is acyclic, so a
    node is the tree of its ancestors. *)
Inductive Node : Type :=
| mkNode (id : nat) (parents : list Node).

Definition id (node : Node) : nat := let 'mkNode id _ := node in id.
Definition parents (node : Node) : list Node :=
  let 'mkNode _ parents := node in parents.

(** Modelled from the spec: the DAG collaborator, which exposes [order]
    (the node count) and [nodes] (spec section 6). *)
Record DAG : Type := mkDAG {
  order : nat;
  nodes : list Node
}.

(** [ContractProgram(PerformanceProfile)]: the attributes of the profile
    and those set by [ContractProgram.__init__]. *)
Record ContractProgram : Type := mkContractProgram {
  profile :> PerformanceProfile;
  budget : Q;
  dag : DAG;
  allocations : list TimeAllocation;
  scale : Q;
  decimals : option Z
}.

Definition STEP_SIZE : Q := 1 # 10.

(** [xs[i]] on a list, for an index that is not negative. *)
Definition index {A} (xs : list A) (i : nat) : result A :=
  match xs !! i with
  | Some x => Ok x
  | None => Err IndexError
  end.

Section contract_program.
Context (self : ContractProgram).

(** [ContractProgram.global_utility] *)
Definition global_utility (qualities : list Q) : Q := Num.sum qualities.

(** [ContractProgram.find_node] *)
Definition find_node (node_id : nat) : result Node :=
  match List.find (λ node, id node =? node_id)%nat (nodes (dag self)) with
  | Some node => Ok node
  | None => Err IndexError
  end.

(** [ContractProgram.find_parent_qualities] *)
Fixpoint find_parent_qualities
    (node : Node) (time_allocations : list TimeAllocation) (depth : nat)
  : result value :=
  let depth := S depth in
  match node with
  | mkNode node_id [] =>
      if (depth =? 1)%nat then Ok (VList [])
      else
        time_allocation ← index time_allocations node_id;
        VFloat <$> query_average_quality self node_id time_allocation (VList [])
  | mkNode node_id node_parents =>
      parent_qualities ←
        (fix loop (ps : list Node) : result (list value) :=
           match ps with
           | [] => Ok []
           | parent :: ps' =>
               quality ← find_parent_qualities parent time_allocations depth;
               rest ← loop ps';
               Ok (quality :: rest)
           end) node_parents;
      if (depth =? 1)%nat then Ok (VList parent_qualities)
      else
        time_allocation ← index time_allocations node_id;
        VFloat <$> query_average_quality self node_id time_allocation
                     (VList parent_qualities)
  end.

(** One turn of the loop of [global_expected_utility]. *)
Definition expected_utility_step (time_allocations : list TimeAllocation)
    (acc : Q * list Q) (entry : nat * TimeAllocation) : result (Q * list Q) :=
  let '(probability, average_qualities) := acc in
  let '(id, time_allocation) := entry in
  node ← find_node id;
  parent_qualities ← find_parent_qualities node time_allocations 0;
  qualities ←
    query_quality_list_on_interval self (time time_allocation) id parent_qualities;
  average ← average_quality qualities;
  p ← query_probability_contract_expression self average qualities;
  Ok (Num.mul probability p, average_qualities ++ [average]).

(** [ContractProgram.global_expected_utility] *)
Definition global_expected_utility (time_allocations : list TimeAllocation)
  : result Q :=
  '(probability, average_qualities) ←
    for_each (expected_utility_step time_allocations) (1%Q, [])
      (imap pair time_allocations);
  Ok (Num.mul probability (global_utility average_qualities)).

(** [ContractProgram.uniform_budget] *)
Definition uniform_budget : result (list TimeAllocation) :=
  allocation ← Num.truediv (budget self) (Num.of_nat (order (dag self)));
  Ok ((λ node_id, mkTimeAllocation allocation node_id)
        <$> seq 0 (order (dag self))).
End contract_program.

(** [ContractProgram.__init__], given the parsed [populous.json]. *)
Definition ContractProgram_init (file : option mapping) (dag : DAG)
    (budget scale : Q) (decimals : option Z)
    (quality_interval time_interval : Q) : result ContractProgram :=
  let self :=
    mkContractProgram
      (mkPerformanceProfile file time_interval quality_interval budget STEP_SIZE)
      budget dag [] scale decimals in
  allocations ← uniform_budget self;
  Ok (mkContractProgram (profile self) budget dag allocations scale decimals).

(** ** Naive hill climbing *)

Section hill_climbing.
(** The expected utility that scores allocations. *)
Context (eu : list TimeAllocation → result Q).

Definition set_time (a : TimeAllocation) (t : Q) : TimeAllocation :=
  mkTimeAllocation t (node_id a).

(** [itertools.permutations(xs, 2)]: the ordered pairs of elements at
    distinct positions, in the order of the positions. *)
Definition permutations2 {A} (xs : list A) : list (A * A) :=
  flat_map
    (λ '(i, x), flat_map (λ '(j, y), if (i =? j)%nat then [] else [(x, y)])
                          (imap pair xs))
    (imap pair xs).

(** Lines 138-150: the candidate for one pair, on a copy of the
    allocations; [None] when the pair is skipped. *)
Definition adjust (allocations : list TimeAllocation) (time_switched : Q)
    (permutation : TimeAllocation * TimeAllocation)
  : result (option (list TimeAllocation)) :=
  let '(p0, p1) := permutation in
  if (node_id p0 =? node_id p1)%nat then Ok None
  else
    a0 ← index allocations (node_id p0);
    if Num.ltb (Num.sub (time a0) time_switched) 0 then Ok None
    else
      let adjusted :=
        <[node_id p0 := set_time a0 (Num.sub (time a0) time_switched)]>
          allocations in
      a1 ← index adjusted (node_id p1);
      Ok (Some (<[node_id p1 := set_time a1 (Num.add (time a1) time_switched)]>
                  adjusted)).

(** The body of the loop over the pairs.  What follows the comparison in
    the source (lines 155-170) only prepares and prints a report. *)
Definition consider (allocations : list TimeAllocation) (time_switched : Q)
    (possible_local_max : list (list TimeAllocation))
    (permutation : TimeAllocation * TimeAllocation)
  : result (list (list TimeAllocation)) :=
  candidate ← adjust allocations time_switched permutation;
  match candidate with
  | None => Ok possible_local_max
  | Some adjusted_allocations =>
      eu_adjusted ← eu adjusted_allocations;
      eu_original ← eu allocations;
      Ok (if Num.gtb eu_adjusted eu_original
          then possible_local_max ++ [adjusted_allocations]
          else possible_local_max)
  end.

Definition improving (allocations : list TimeAllocation) (time_switched : Q)
  : result (list (list TimeAllocation)) :=
  for_each (consider allocations time_switched) []
    (permutations2 allocations).

(** [max(xs)] on a list of floats. *)
Definition py_max (xs : list Q) : result Q :=
  match xs with
  | [] => Err ValueError
  | x :: xs' => Ok (fold_left (λ m y, if Num.gtb y m then y else m) xs' x)
  end.

(** [[f(j) for j in xs]] *)
Fixpoint comprehension {A B} (f : A → result B) (xs : list A)
  : result (list B) :=
  match xs with
  | [] => Ok []
  | x :: xs' => y ← f x; ys ← comprehension f xs'; Ok (y :: ys)
  end.

(** Lines 174-178: the "arg max". *)
Definition select (allocations : list TimeAllocation)
    (possible_local_max : list (list TimeAllocation))
  : result (list TimeAllocation) :=
  utilities ← comprehension eu possible_local_max;
  best_allocation ← py_max utilities;
  for_each
    (λ allocations j,
       u ← eu j;
       Ok (if Num.eqb u best_allocation then j else allocations))
    allocations possible_local_max.

(** The state of the search: [self.allocations] and [time_switched]. *)
Definition search_state : Type := list TimeAllocation * Q.

(** One round: the body of the [while] loop. *)
Definition hill_round (decay : Q) (st : search_state) : result search_state :=
  let '(allocations, time_switched) := st in
  possible_local_max ← improving allocations time_switched;
  match possible_local_max with
  | [] =>
      time_switched ← Num.truediv time_switched decay;
      Ok (allocations, time_switched)
  | _ :: _ =>
      allocations ← select allocations possible_local_max;
      Ok (allocations, time_switched)
  end.

(** The [while] loop, for at most [fuel] rounds; [None] when the rounds
    run out. *)
Fixpoint hill_loop (decay threshold : Q) (fuel : nat) (st : search_state)
  : option (result search_state) :=
  if Num.gtb (snd st) threshold then
    match fuel with
    | O => None
    | S fuel' =>
        match hill_round decay st with
        | Ok st' => hill_loop decay threshold fuel' st'
        | Err e => Some (Err e)
        end
    end
  else Some (Ok st).

(** The end-of-round states of the first [n] rounds. *)
Fixpoint hill_trace (decay threshold : Q) (n : nat) (st : search_state)
  : result (list search_state) :=
  match n with
  | O => Ok []
  | S n' =>
      if Num.gtb (snd st) threshold then
        st' ← hill_round decay st;
        rest ← hill_trace decay threshold n' st';
        Ok (st' :: rest)
      else Ok []
  end.
End hill_climbing.

(** ** Objects and references

    [self.allocations] is a list of references to [TimeAllocation]
    objects, and the search mutates objects in place.  The store below
    keeps the objects by address; [Store.adjust] and [Store.consider] are
    lines 138-153 on it, with [copy.deepcopy] allocating the copy. *)

Module Store.
(** Addresses. *)
Abbreviation loc := nat.

Global Instance TimeAllocation_inhabited : Inhabited TimeAllocation :=
  populate (mkTimeAllocation 0 0).

(** A new object. *)
Definition alloc (h : gmap nat TimeAllocation) (a : TimeAllocation)
  : gmap nat TimeAllocation * loc :=
  let l := fresh (dom h) in (<[l := a]> h, l).

(** [copy.deepcopy] of the items of a list: every object is copied
    once, and [memo] maps the objects already copied to their copies. *)
Fixpoint deepcopy_items (h : gmap nat TimeAllocation) (memo : gmap nat nat)
    (xs : list loc) : gmap nat TimeAllocation * list loc :=
  match xs with
  | [] => (h, [])
  | l :: xs' =>
      match memo !! l with
      | Some l' =>
          let '(h', ys) := deepcopy_items h memo xs' in (h', l' :: ys)
      | None =>
          let '(h1, l') := alloc h (h !!! l) in
          let '(h2, ys) := deepcopy_items h1 (<[l := l']> memo) xs' in
          (h2, l' :: ys)
      end
  end.

Definition deepcopy (h : gmap nat TimeAllocation) (xs : list loc)
  : gmap nat TimeAllocation * list loc :=
  deepcopy_items h ∅ xs.

(** The allocation vector a list of references denotes. *)
Definition read (h : gmap nat TimeAllocation) (xs : list loc)
  : list TimeAllocation :=
  (λ l, h !!! l) <$> xs.

(** Lines 138-150. *)
Definition adjust (h : gmap nat TimeAllocation) (allocations : list loc)
    (time_switched : Q) (permutation : loc * loc)
  : result (gmap nat TimeAllocation * option (list loc)) :=
  let '(p0, p1) := permutation in
  if (node_id (h !!! p0) =? node_id (h !!! p1))%nat then Ok (h, None)
  else
    let '(h, adjusted_allocations) := deepcopy h allocations in
    l0 ← index adjusted_allocations (node_id (h !!! p0));
    if Num.ltb (Num.sub (time (h !!! l0)) time_switched) 0 then Ok (h, None)
    else
      let h :=
        <[l0 := set_time (h !!! l0) (Num.sub (time (h !!! l0)) time_switched)]> h in
      l1 ← index adjusted_allocations (node_id (h !!! p1));
      let h :=
        <[l1 := set_time (h !!! l1) (Num.add (time (h !!! l1)) time_switched)]> h in
      Ok (h, Some adjusted_allocations).

(** Lines 138-153: the candidate is built, both allocations are scored,
    and the candidate is appended when it scores higher. *)
Definition consider (eu : list TimeAllocation → result Q)
    (h : gmap nat TimeAllocation) (allocations : list loc) (time_switched : Q)
    (possible_local_max : list (list loc)) (permutation : loc * loc)
  : result (gmap nat TimeAllocation * list (list loc)) :=
  '(h, candidate) ← adjust h allocations time_switched permutation;
  match candidate with
  | None => Ok (h, possible_local_max)
  | Some adjusted_allocations =>
      eu_adjusted ← eu (read h adjusted_allocations);
      eu_original ← eu (read h allocations);
      Ok (h, if Num.gtb eu_adjusted eu_original
             then possible_local_max ++ [adjusted_allocations]
             else possible_local_max)
  end.
End Store.

(** [ContractProgram.naive_hill_climbing], with the final step size next to
    the returned allocations. *)
Definition naive_hill_climbing_state (self : ContractProgram)
    (decay threshold : Q) (fuel : nat) : option (result search_state) :=
  match Num.truediv (budget self) (Num.of_nat (order (dag self))) with
  | Err e => Some (Err e)
  | Ok allocation =>
      hill_loop (global_expected_utility self) decay threshold fuel
        (allocations self, allocation)
  end.

Definition naive_hill_climbing (self : ContractProgram)
    (decay threshold : Q) (fuel : nat)
  : option (result (list TimeAllocation)) :=
  fmap (M:=option) (fmap (M:=result) fst)
    (naive_hill_climbing_state self decay threshold fuel).

(** ** A contract program to run

    A leaf (node 0) feeding a root (node 1), a budget of 2 seconds, time
    slots of one second read in steps of 0.1, quality bands of 0.25.  All
    numbers are binary fractions, so the floats of the source compute
    them exactly. *)

Module Example.
Local Open Scope string_scope.

Definition tenths (whole : string) : list string :=
  (λ d, whole +:+ "." +:+ d) <$> ["0"; "1"; "2"; "3"; "4"; "5"; "6"; "7"; "8"; "9"].

(** The same samples at each of the keys. *)
Definition slots (keys : list string) (samples : list Q)
  : list (string * mapping) :=
  (λ key, (key, Samples samples)) <$> keys.

Definition object (entries : list (string * mapping)) : mapping :=
  Dict (list_to_map entries).

Definition file : mapping :=
  object [
    ("node_0", object [
       ("qualities", object (
          slots (tenths "0") [1 # 2] ++ slots (tenths "1") [1 # 4]
          ++ [("2.0", Samples [3 # 4])]))]);
    ("node_1", object [
       ("qualities", object [
          ("0.50", object (slots (tenths "1") [1 # 4]));
          ("0.25", object (slots (tenths "0") [1 # 2]
                           ++ slots (tenths "1") [1 # 4]));
          ("0.75", object (slots (tenths "0") [1 # 2]))])])].

Definition leaf : Node := mkNode 0 [].
Definition root : Node := mkNode 1 [leaf].
Definition graph : DAG := mkDAG 2 [leaf; root].

(** [ContractProgram(graph, budget=2, scale=1, decimals=None,
    quality_interval=0.25, time_interval=1)] *)
Definition program : ContractProgram :=
  mkContractProgram
    (mkPerformanceProfile (Some file) 1 (1 # 4) 2 STEP_SIZE)
    2 graph [mkTimeAllocation 1 0; mkTimeAllocation 1 1] 1 None.

Definition allocation (t0 t1 : Q) : list TimeAllocation :=
  [mkTimeAllocation t0 0; mkTimeAllocation t1 1].

(** The two objects of [program.allocations], at addresses 0 and 1. *)
Definition store : gmap nat TimeAllocation :=
  list_to_map [(0%nat, mkTimeAllocation 1 0); (1%nat, mkTimeAllocation 1 1)].

(** A profile whose quality band is the whole of [0,1]. *)
Definition unit_band : PerformanceProfile :=
  mkPerformanceProfile None 1 1 10 STEP_SIZE.
End Example.

(** ** The program on binary64

    The same methods, on the floats CPython computes with: the
    arithmetic is that of IEEE-754 binary64, rounded to nearest, and the
    comparisons are those of the floats.  What depends on the rounding of
    a sum, of a quotient or of a step is stated on these definitions. *)

Module Float64.
Import PrimFloat SpecFloat FloatOps.

(** [TimeAllocation(time, node_id)], with a float for [time]. *)
Record TimeAllocation : Type := mkTimeAllocation {
  time : float;
  node_id : nat
}.

(** The parsed JSON file, its numbers as [json.loads] returns them. *)
Inductive mapping : Type :=
| Samples (qualities : list float)
| Dict (entries : gmap string mapping).

Inductive value : Type :=
| VFloat (x : float)
| VList (items : list value).

Record PerformanceProfile : Type := mkPerformanceProfile {
  dictionary : option mapping;
  time_interval : float;
  quality_interval : float;
  time_limit : float;
  time_step_size : float
}.

(** The number a finite float denotes. *)
Definition to_Q (x : float) : option Q :=
  match Prim2SF x with
  | S754_zero _ => Some 0%Q
  | S754_finite s m e =>
      let n := if s then Z.neg m else Z.pos m in
      Some (if 0 <=? e then inject_Z (n * 2 ^ e)
            else Qmake n (Z.to_pos (2 ^ (- e))))
  | _ => None
  end.

(** ["{:.<d>f}".format(x)]: the decimal expansion of the number [x]
    denotes, rounded to [d] decimals, halves to even. *)
Definition format_fixed (d : nat) (x : float) : string :=
  match Prim2SF x with
  | S754_nan => "nan"
  | S754_infinity s => if s then "-inf" else "inf"
  | S754_zero s => ((if s then "-" else "") +:+ Text.format_fixed d 0)%string
  | S754_finite _ _ _ => Text.format_fixed d (default 0%Q (to_Q x))
  end.

(** [float(n)] for a length or an order [n]: the nearest float. *)
Definition of_nat (n : nat) : float :=
  SF2Prim (binary_normalize prec emax (Z.of_nat n) 0 false).

(** [x / n] for a float [x] and a length or an order [n]. *)
Definition div_nat (x : float) (n : nat) : result float :=
  match n with
  | O => Err ZeroDivisionError
  | S _ => Ok (PrimFloat.div x (of_nat n))
  end.

(** [sum(xs)] of a list of floats: from 0, left to right, each addition
    rounded (CPython before 3.12, which compensates the sum). *)
Definition sum (xs : list float) : float := fold_left PrimFloat.add xs zero.

(** [d[key]] *)
Definition subscript (d : mapping) (key : string) : result mapping :=
  match d with
  | Dict entries =>
      match entries !! key with
      | Some v => Ok v
      | None => Err KeyError
      end
  | Samples _ => Err TypeError
  end.

Definition samples_of (d : mapping) : result (list float) :=
  match d with
  | Samples qualities => Ok qualities
  | Dict _ => Err TypeError
  end.

Definition truthy (v : value) : bool :=
  match v with
  | VFloat x => negb (PrimFloat.eqb x zero)
  | VList [] => false
  | VList (_ :: _) => true
  end.
Definition iterate (v : value) : result (list value) :=
  match v with
  | VList items => Ok items
  | VFloat _ => Err TypeError
  end.
Definition as_float (v : value) : result float :=
  match v with
  | VFloat x => Ok x
  | VList _ => Err TypeError
  end.

Definition node_qualities (top : mapping) (id : nat) : result mapping :=
  node ← subscript top ("node_" +:+ pretty id)%string;
  subscript node "qualities"%string.

(** [PerformanceProfile.average_quality]:
    [sum(qualities) / len(qualities)]. *)
Definition average_quality (qualities : list float) : result float :=
  div_nat (sum qualities) (length qualities).

Section profile.
Context (self : PerformanceProfile).

Definition descend (d : mapping) (parent_qualities : list value)
  : result mapping :=
  for_each
    (λ d parent_quality,
       x ← as_float parent_quality;
       x ← round_nearest x (quality_interval self);
       subscript d (format_fixed 2 x))
    d parent_qualities.

(** [PerformanceProfile.query_average_quality] *)
Definition query_average_quality
    (id : nat) (time_allocation : TimeAllocation) (parent_qualities : value)
  : result float :=
  match dictionary self with
  | None => Err ValueError
  | Some top =>
      if negb (truthy parent_qualities) then
        d ← node_qualities top id;
        estimated_time ← round_nearest (time time_allocation) (time_interval self);
        found ← subscript d (format_fixed 1 estimated_time);
        qualities ← samples_of found;
        average_quality qualities
      else
        d ← node_qualities top id;
        estimated_time ← round_nearest (time time_allocation) (time_interval self);
        pqs ← iterate parent_qualities;
        d ← descend d pqs;
        found ← subscript d (format_fixed 1 estimated_time);
        qualities ← samples_of found;
        average_quality qualities
  end.
End profile.

(** *** Naive hill climbing *)

Section hill_climbing.
(** [self.global_expected_utility], which the search calls and whose
    values it compares. *)
Context (eu : list TimeAllocation → result float).

Definition gtb (a b : float) : bool := PrimFloat.ltb b a.

Definition set_time (a : TimeAllocation) (t : float) : TimeAllocation :=
  mkTimeAllocation t (node_id a).

(** Lines 138-150. *)
Definition adjust (allocations : list TimeAllocation) (time_switched : float)
    (permutation : TimeAllocation * TimeAllocation)
  : result (option (list TimeAllocation)) :=
  let '(p0, p1) := permutation in
  if (node_id p0 =? node_id p1)%nat then Ok None
  else
    a0 ← index allocations (node_id p0);
    if PrimFloat.ltb (PrimFloat.sub (time a0) time_switched) zero then Ok None
    else
      let adjusted :=
        <[node_id p0 := set_time a0 (PrimFloat.sub (time a0) time_switched)]>
          allocations in
      a1 ← index adjusted (node_id p1);
      Ok (Some (<[node_id p1 :=
                    set_time a1 (PrimFloat.add (time a1) time_switched)]>
                  adjusted)).

(** Lines 136-153 for one pair. *)
Definition consider (allocations : list TimeAllocation) (time_switched : float)
    (possible_local_max : list (list TimeAllocation))
    (permutation : TimeAllocation * TimeAllocation)
  : result (list (list TimeAllocation)) :=
  candidate ← adjust allocations time_switched permutation;
  match candidate with
  | None => Ok possible_local_max
  | Some adjusted_allocations =>
      eu_adjusted ← eu adjusted_allocations;
      eu_original ← eu allocations;
      Ok (if gtb eu_adjusted eu_original
          then possible_local_max ++ [adjusted_allocations]
          else possible_local_max)
  end.

Definition improving (allocations : list TimeAllocation) (time_switched : float)
  : result (list (list TimeAllocation)) :=
  for_each (consider allocations time_switched) []
    (permutations2 allocations).

(** [max(xs)] on a list of floats. *)
Definition py_max (xs : list float) : result float :=
  match xs with
  | [] => Err ValueError
  | x :: xs' => Ok (fold_left (λ m y, if gtb y m then y else m) xs' x)
  end.

(** Lines 174-178. *)
Definition select (allocations : list TimeAllocation)
    (possible_local_max : list (list TimeAllocation))
  : result (list TimeAllocation) :=
  utilities ← comprehension eu possible_local_max;
  best_allocation ← py_max utilities;
  for_each
    (λ allocations j,
       u ← eu j;
       Ok (if PrimFloat.eqb u best_allocation then j else allocations))
    allocations possible_local_max.

Definition search_state : Type := list TimeAllocation * float.

(** One round: the body of the [while] loop. *)
Definition hill_round (decay : float) (st : search_state) : result search_state :=
  let '(allocations, time_switched) := st in
  possible_local_max ← improving allocations time_switched;
  match possible_local_max with
  | [] =>
      time_switched ← Binary64.truediv time_switched decay;
      Ok (allocations, time_switched)
  | _ :: _ =>
      allocations ← select allocations possible_local_max;
      Ok (allocations, time_switched)
  end.

(** The [while] loop, for at most [fuel] rounds; [None] when the rounds
    run out. *)
Fixpoint hill_loop (decay threshold : float) (fuel : nat) (st : search_state)
  : option (result search_state) :=
  if gtb (snd st) threshold then
    match fuel with
    | O => None
    | S fuel' =>
        match hill_round decay st with
        | Ok st' => hill_loop decay threshold fuel' st'
        | Err e => Some (Err e)
        end
    end
  else Some (Ok st).

(** [ContractProgram.naive_hill_climbing] on a program with this budget,
    a graph of this order and these allocations, with the final step
    next to the allocations it returns. *)
Definition naive_hill_climbing_state
    (budget : float) (order : nat) (allocations : list TimeAllocation)
    (decay threshold : float) (fuel : nat) : option (result search_state) :=
  match div_nat budget order with
  | Err e => Some (Err e)
  | Ok allocation => hill_loop decay threshold fuel (allocations, allocation)
  end.

Definition naive_hill_climbing
    (budget : float) (order : nat) (allocations : list TimeAllocation)
    (decay threshold : float) (fuel : nat)
  : option (result (list TimeAllocation)) :=
  fmap (M:=option) (fmap (M:=result) fst)
    (naive_hill_climbing_state budget order allocations decay threshold fuel).
End hill_climbing.
End Float64.
(** ** Vocabulary of the statements *)

(** A candidate that was kept: built from a pair of the current
    allocations, and scored strictly higher than them. *)
Definition improves (eu : list TimeAllocation → result Q)
    (allocations : list TimeAllocation) (time_switched : Q)
    (candidate : list TimeAllocation) : Prop :=
  ∃ permutation u v,
    permutation ∈ permutations2 allocations
    ∧ adjust allocations time_switched permutation = Ok (Some candidate)
    ∧ eu candidate = Ok u ∧ eu allocations = Ok v ∧ (v < u)%Q.

(** Two allocations that follow each other at the ends of rounds: the
    same, or the second scored strictly higher. *)
Definition round_step (eu : list TimeAllocation → result Q)
    (a a' : list TimeAllocation) : Prop :=
  a' = a ∨ ∃ u u', eu a = Ok u ∧ eu a' = Ok u' ∧ (u < u')%Q.

(** Neighbours in a list are related. *)
Fixpoint chain {A} (R : A → A → Prop) (x : A) (xs : list A) : Prop :=
  match xs with
  | [] => True
  | y :: ys => R x y ∧ chain R y ys
  end.

(** What the search may end with: allocations and a step at or under the
    threshold, or the exception of a bad index or of a score. *)
Definition sound_outcome (eu : list TimeAllocation → result Q) (threshold : Q)
    (outcome : result search_state) : Prop :=
  match outcome with
  | Ok st => (snd st <= threshold)%Q
  | Err e => e = IndexError ∨ ∃ c, eu c = Err e
  end.

Module StoreSpec.
(** A store extends another when it keeps every object of it. *)
Definition extends (h h' : gmap nat TimeAllocation) : Prop :=
  ∀ l, l ∈ dom h → h' !! l = h !! l.
End StoreSpec.
(** ** Vocabulary of the termination argument *)

Module Lattice.
Local Open Scope Q_scope.

(** [d] to the power [n]. *)
Fixpoint pow (d : Q) (n : nat) : Q :=
  match n with
  | O => 1
  | S n' => d * pow d n'
  end.

(** The lowest time an entry that starts at [x0] can take: the search
    only takes time from an entry that stays at 0 or above. *)
Definition floor_of (x0 : TimeAllocation) : Q :=
  if Qle_bool 0 (time x0) then 0 else time x0.

(** The room between the allocations and their floors. *)
Definition room (a0 : list TimeAllocation) : Q :=
  Num.total ((λ x0, time x0 - floor_of x0) <$> a0).

(** How many steps of size [s] an entry can be away from its start. *)
Definition reach (a0 : list TimeAllocation) (s : Q) : Z :=
  Qceiling (room a0 / s).

(** What an entry that started as [x0] can be after whole steps. *)
Definition entry_choices (s : Q) (n : Z) (x0 : TimeAllocation)
  : list TimeAllocation :=
  (λ t, mkTimeAllocation t (node_id x0))
    <$> (time x0
         :: ((λ k, Qred (time x0 + inject_Z k * s)) <$> seqZ (- n) (2 * n + 1))).

(** The allocation vectors with one of these at every entry. *)
Fixpoint box (s : Q) (n : Z) (a0 : list TimeAllocation)
  : list (list TimeAllocation) :=
  match a0 with
  | [] => [[]]
  | x0 :: a0' =>
      x ← entry_choices s n x0; a ← box s n a0'; [x :: a]
  end.

(** An entry [x] of the current allocations against the entry [x0] it
    was when the step became [s]. *)
Definition entry_inv (s : Q) (x0 x : TimeAllocation) : Prop :=
  node_id x = node_id x0
  ∧ (time x = time x0 ∨ time x = Qred (time x))
  ∧ (∃ k : Z, time x == time x0 + inject_Z k * s)
  ∧ floor_of x0 <= time x.

Definition inv (s : Q) (a0 a : list TimeAllocation) : Prop :=
  Forall2 (entry_inv s) a0 a
  ∧ Num.total (time <$> a) == Num.total (time <$> a0).

(** The candidates of the box that score strictly higher than [a]. *)
Definition better (eu : list TimeAllocation → result Q)
    (a c : list TimeAllocation) : bool :=
  match eu c, eu a with
  | Ok u, Ok v => Num.ltb v u
  | _, _ => false
  end.

Definition ahead (eu : list TimeAllocation → result Q) (s : Q)
    (a0 a : list TimeAllocation) : nat :=
  length (List.filter (better eu a) (box s (reach a0 s) a0)).
End Lattice.

(** ** More of the contract program *)

(** [ContractProgram.random_budget], as a function of the row [draw] that
    [np.random.dirichlet(np.ones(order), size=1)] returns (an array of
    shape [(1, order)]).  [squeeze()] drops the axes of length 1, so a row
    of one number becomes a 0-d array, [tolist()] turns that into a
    float, and the comprehension over it raises [TypeError]. *)
Definition random_budget (self : ContractProgram) (draw : list Q)
  : result (list TimeAllocation) :=
  match draw with
  | [_] => Err TypeError
  | _ =>
      let allocations_list := (λ time, Num.mul time (budget self)) <$> draw in
      Ok (imap (λ id time, mkTimeAllocation time id) allocations_list)
  end.

(** ** Vocabulary of the further statements *)

(** Every sample sequence of a mapping satisfies [P]. *)
Inductive samples_within (P : Q → Prop) : mapping → Prop :=
| samples_within_samples qualities :
    Forall P qualities → samples_within P (Samples qualities)
| samples_within_dict entries :
    (∀ key d, entries !! key = Some d → samples_within P d) →
    samples_within P (Dict entries).

(** [i] is the id of the node or of one of its ancestors. *)
Inductive in_tree (i : nat) : Node → Prop :=
| in_tree_here ps : in_tree i (mkNode i ps)
| in_tree_parent j p ps : p ∈ ps → in_tree i p → in_tree i (mkNode j ps).

(** Every node id of an allocation vector is an index of it. *)
Definition indices_in_range (a : list TimeAllocation) : Prop :=
  Forall (λ x, (node_id x < length a)%nat) a.

(** A quality, as the data model has it. *)
Definition unit_quality (q : Q) : Prop := (0 <= q <= 1)%Q.

(** The time slots of the leaf of the example. *)
Definition example_leaf_entries : gmap string mapping :=
  list_to_map
    (Example.slots (Example.tenths "0") [1 # 2]
     ++ Example.slots (Example.tenths "1") [1 # 4]
     ++ [("2.0"%string, Samples [3 # 4])]).

(** A program of a single node, with the parsed file it is given. *)
Definition example_single (file : option mapping) : ContractProgram :=
  mkContractProgram
    (mkPerformanceProfile file 1 (1 # 4) 1 STEP_SIZE)
    1 (mkDAG 1 [Example.leaf]) [mkTimeAllocation 1 0] 1 None.

(** ** Vocabulary of the statements on binary64 *)

Module Float64Spec.
Import PrimFloat SpecFloat FloatOps.
Import Float64.

(** The step after [n] rounds that found no improving candidate. *)
Fixpoint cooled (decay : float) (n : nat) (time_switched : float) : float :=
  match n with
  | O => time_switched
  | S n' => cooled decay n' (PrimFloat.div time_switched decay)
  end.

(** The state after [n] rounds, whatever the threshold. *)
Fixpoint rounds (eu : list TimeAllocation → result float) (decay : float)
    (n : nat) (st : search_state) : result search_state :=
  match n with
  | O => Ok st
  | S n' => st' ← hill_round eu decay st; rounds eu decay n' st'
  end.

(** The first [m] rounds all start with a step above the threshold. *)
Definition guarded (eu : list TimeAllocation → result float)
    (decay threshold : float) (st : search_state) (m : nat) : Prop :=
  ∀ j, (j < m)%nat →
       ∃ st_j, rounds eu decay j st = Ok st_j
               ∧ gtb (snd st_j) threshold = true.

(** The place of a float in the order of the floats: 0 for the zeros,
    and for the others the exponent and the mantissa, in this order. *)
Definition rank (x : float) : Z :=
  match Prim2SF x with
  | S754_zero _ | S754_nan => 0
  | S754_infinity s => if s then - 2 ^ 65 else 2 ^ 65
  | S754_finite s m e =>
      let r := (e + 1075) * 2 ^ 53 + Z.pos m in
      if s then - r else r
  end.

(** How many floats a score can still rise through. *)
Definition headroom (score : result float) : nat :=
  match score with
  | Ok u => Z.to_nat (2 ^ 65 - rank u)
  | Err _ => Z.to_nat (2 ^ 66)
  end.

(** The smallest positive floats, and the float of the literal [1.2]. *)
Definition tiny (k : Z) : float := SF2Prim (S754_finite false (Z.to_pos k) (-1074)).
Definition d1_2 : float := 0x1.3333333333333p+0%float.
Definition d0_2 : float := 0x1.999999999999ap-3%float.
Definition d0_3 : float := 0x1.3333333333333p-2%float.

(** The number a float denotes (0 for what is not a number), and the
    arithmetic mean of the numbers a list of floats denotes. *)
Definition value_of (x : float) : Q := default 0%Q (to_Q x).
Definition exact_mean (xs : list float) : Q :=
  (Num.total (value_of <$> xs) / inject_Z (Z.of_nat (length xs)))%Q.

(** A score to run the search with: the time of the first node. *)
Definition example_score (allocations : list TimeAllocation) : result float :=
  match allocations with
  | x :: _ => Ok (time x)
  | [] => Err IndexError
  end.

(** A leaf whose slot at 1.0 holds the samples 0.1, 0.2 and 0.3. *)
Definition example_profile : PerformanceProfile :=
  mkPerformanceProfile
    (Some (Dict (list_to_map
       [("node_0"%string, Dict (list_to_map
          [("qualities"%string, Dict (list_to_map
             [("1.0"%string, Samples [Binary64.d0_1; d0_2; d0_3])]))]))])))
    1 Binary64.d0_05 10 Binary64.d0_1.
End Float64Spec.

(** * Properties *)

(** ** The embedding at work *)

Example format_fixed_1 : Text.format_fixed 1 (3 # 1) = "3.0"%string.
Proof. reflexivity. Qed.

Example format_fixed_2 : Text.format_fixed 2 (1 # 8) = "0.12"%string.
Proof. reflexivity. Qed.

Example repr_tenth : Text.repr (19 # 10) = "1.9"%string.
Proof. reflexivity. Qed.

Example repr_whole : Text.repr (2 # 1) = "2.0"%string.
Proof. reflexivity. Qed.

Example repr_small : Text.repr (1 # 100000) = "1e-05"%string.
Proof. reflexivity. Qed.

Example repr_large : Text.repr (10000000000000000 # 1) = "1e+16"%string.
Proof. reflexivity. Qed.

Example program_init :
  ContractProgram_init (Some Example.file) Example.graph 2 1 None (1 # 4) 1
  = Ok Example.program.
Proof. reflexivity. Qed.

Example utility_1_1 :
  global_expected_utility Example.program (Example.allocation 1 1) = Ok (1 # 2).
Proof. vm_compute. reflexivity. Qed.

Example utility_0_2 :
  global_expected_utility Example.program (Example.allocation 0 2) = Ok (3 # 4).
Proof. vm_compute. reflexivity. Qed.

Example utility_2_0 :
  global_expected_utility Example.program (Example.allocation 2 0) = Ok (3 # 4).
Proof. vm_compute. reflexivity. Qed.

(** ** Results *)

Lemma bind_ok {A B} (a : A) (f : A → result B) : (Ok a ≫= f) = f a.
Proof. reflexivity. Qed.

Lemma bind_err {A B} (e : exn) (f : A → result B) : (Err e ≫= f) = Err e.
Proof. reflexivity. Qed.

(** ** Facts about the arithmetic *)

Module NumFacts.
Local Open Scope Q_scope.

Lemma eqb_true a b : Num.eqb a b = true ↔ a == b.
Proof. apply Qeq_bool_iff. Qed.

Lemma eqb_false a b : Num.eqb a b = false ↔ ¬ a == b.
Proof.
  rewrite <- eqb_true. destruct (Num.eqb a b); split; congruence.
Qed.

Lemma leb_true a b : Num.leb a b = true ↔ a <= b.
Proof. apply Qle_bool_iff. Qed.

Lemma ltb_true a b : Num.ltb a b = true ↔ a < b.
Proof.
  unfold Num.ltb. rewrite negb_true_iff.
  split.
  - intros H. apply Qnot_le_lt. intros Hle.
    apply Qle_bool_iff in Hle. congruence.
  - intros H. destruct (Qle_bool b a) eqn:E; [|done].
    apply Qle_bool_iff in E. lra.
Qed.

Lemma ltb_false a b : Num.ltb a b = false ↔ b <= a.
Proof.
  unfold Num.ltb. rewrite negb_false_iff. apply Qle_bool_iff.
Qed.

Lemma gtb_true a b : Num.gtb a b = true ↔ b < a.
Proof. apply ltb_true. Qed.

Lemma gtb_false a b : Num.gtb a b = false ↔ a <= b.
Proof. apply ltb_false. Qed.

Lemma add_eq a b : Num.add a b == a + b.
Proof. apply Qred_correct. Qed.
Lemma sub_eq a b : Num.sub a b == a - b.
Proof. apply Qred_correct. Qed.
Lemma mul_eq a b : Num.mul a b == a * b.
Proof. apply Qred_correct. Qed.

Lemma truediv_ok a b : ¬ b == 0 → Num.truediv a b = Ok (Qred (a / b)).
Proof.
  intros H. unfold Num.truediv. apply eqb_false in H. by rewrite H.
Qed.

Lemma truediv_zero a b : b == 0 → Num.truediv a b = Err ZeroDivisionError.
Proof.
  intros H. unfold Num.truediv. apply eqb_true in H. by rewrite H.
Qed.

Lemma floordiv_ok a b :
  ¬ b == 0 → Num.floordiv a b = Ok (inject_Z (Qfloor (a / b))).
Proof.
  intros H. unfold Num.floordiv. apply eqb_false in H. by rewrite H.
Qed.

(** Every failure of the two divisions is a division by zero. *)
Lemma truediv_err a b e : Num.truediv a b = Err e → e = ZeroDivisionError.
Proof. unfold Num.truediv. destruct (Num.eqb b 0); congruence. Qed.
Lemma floordiv_err a b e : Num.floordiv a b = Err e → e = ZeroDivisionError.
Proof. unfold Num.floordiv. destruct (Num.eqb b 0); congruence. Qed.

Lemma sum_from a xs : fold_left Num.add xs a == a + Num.total xs.
Proof.
  revert a. induction xs as [|x xs IH]; intros a; simpl.
  - lra.
  - rewrite IH, add_eq. lra.
Qed.

Lemma sum_eq xs : Num.sum xs == Num.total xs.
Proof. unfold Num.sum. rewrite sum_from. lra. Qed.

Lemma of_nat_pos n : (0 < n)%nat → 0 < Num.of_nat n.
Proof.
  intros H. unfold Num.of_nat. change 0 with (inject_Z 0).
  rewrite <- Zlt_Qlt. lia.
Qed.
End NumFacts.

(** ** The performance profile store *)

Section profile_facts.
Local Open Scope Q_scope.
Context (self : PerformanceProfile).

Lemma length_insert_sorted x xs :
  length (insert_sorted x xs) = S (length xs).
Proof.
  induction xs as [|y ys IH]; simpl; [done|].
  destruct (Num.ltb y x); simpl; by rewrite ?IH.
Qed.

Lemma length_sorted xs : length (sorted xs) = length xs.
Proof.
  induction xs as [|x xs IH]; simpl; [done|].
  by rewrite length_insert_sorted, IH.
Qed.

Lemma Forall_insert_sorted (P : Q → Prop) x xs :
  P x → Forall P xs → Forall P (insert_sorted x xs).
Proof.
  intros Hx. induction 1 as [|y ys Hy Hys IH]; simpl.
  - by constructor.
  - destruct (Num.ltb y x); repeat constructor; auto.
Qed.

Lemma Forall_sorted (P : Q → Prop) xs : Forall P xs → Forall P (sorted xs).
Proof.
  induction 1; simpl; [constructor|]. by apply Forall_insert_sorted.
Qed.

(** The counting loop, from any start. *)
Lemma count_from lo hi xs n :
  fold_left
    (λ k quality, if Num.leb lo quality && Num.ltb quality hi
                  then (k + 1)%Z else k) xs n
  = (n + count_in_interval lo hi xs)%Z.
Proof.
  unfold count_in_interval. revert n.
  induction xs as [|x xs IH]; intros n; simpl; [lia|].
  destruct (Num.leb lo x && Num.ltb x hi).
  - rewrite (IH (n + 1)%Z), (IH (0 + 1)%Z). lia.
  - apply IH.
Qed.

Lemma count_cons lo hi x xs :
  count_in_interval lo hi (x :: xs)
  = ((if Num.leb lo x && Num.ltb x hi then 1 else 0)
     + count_in_interval lo hi xs)%Z.
Proof.
  unfold count_in_interval at 1. simpl. rewrite count_from.
  by destruct (Num.leb lo x && Num.ltb x hi).
Qed.

Lemma count_bounds lo hi xs :
  (0 <= count_in_interval lo hi xs <= Z.of_nat (length xs))%Z.
Proof.
  induction xs as [|x xs IH]; [done|].
  rewrite count_cons. simpl length.
  destruct (Num.leb lo x && Num.ltb x hi); lia.
Qed.

Lemma count_all lo hi xs :
  Forall (λ x, lo <= x ∧ x < hi) xs →
  count_in_interval lo hi xs = Z.of_nat (length xs).
Proof.
  induction 1 as [|x xs [Hlo Hhi] _ IH]; [done|].
  rewrite count_cons, IH. simpl length.
  apply NumFacts.leb_true in Hlo. apply NumFacts.ltb_true in Hhi.
  rewrite Hlo, Hhi. simpl. lia.
Qed.

(** The value of [query_probability_contract_expression] on a band that
    exists and a sample list that is not empty. *)
Lemma probability_value queried_quality quality_list :
  ¬ quality_interval self == 0 →
  quality_list ≠ [] →
  let start_quality :=
    Num.mul (inject_Z (Qfloor (queried_quality / quality_interval self)))
      (quality_interval self) in
  let end_quality := Num.add start_quality (quality_interval self) in
  query_probability_contract_expression self queried_quality quality_list
  = Ok (Qred (Num.of_Z (count_in_interval start_quality end_quality
                          (sorted quality_list))
              / Num.of_nat (length quality_list))).
Proof.
  intros Hqi Hne. unfold query_probability_contract_expression.
  rewrite NumFacts.floordiv_ok by done. simpl.
  rewrite length_sorted. apply NumFacts.truediv_ok.
  intros H0. assert (0 < Num.of_nat (length quality_list)).
  { apply NumFacts.of_nat_pos. destruct quality_list; simpl; [done|lia]. }
  lra.
Qed.
End profile_facts.

(** C5 (first half, and the second half as the code has it): with a
    quality band that exists and samples that are not empty,
    [query_probability_contract_expression] returns a probability in
    [0,1]; and it returns exactly 1 when the band is at least 1.0 wide,
    the queried quality lies in [0, quality_interval) and every sample lies
    in [0,1] and strictly below [quality_interval] (which [0,1] alone
    gives once the band is wider than 1.0). *)
Theorem interval_probability_range
    (self : PerformanceProfile) (queried_quality : Q) (quality_list : list Q) :
  (¬ quality_interval self == 0)%Q →
  quality_list ≠ [] →
  ∃ p,
    query_probability_contract_expression self queried_quality quality_list
    = Ok p
    ∧ (0 <= p <= 1)%Q
    ∧ ((1 <= quality_interval self)%Q →
       (0 <= queried_quality < quality_interval self)%Q →
       Forall (λ x, 0 <= x <= 1 ∧ x < quality_interval self)%Q quality_list →
       p = 1%Q).
Proof.
  intros Hqi Hne. eexists. split; [by apply probability_value|].
  set (lo := Num.mul _ _). set (hi := Num.add lo _).
  assert (Hlen : (0 < Num.of_nat (length quality_list))%Q).
  { apply NumFacts.of_nat_pos. destruct quality_list; simpl; [done|lia]. }
  pose proof (count_bounds lo hi (sorted quality_list)) as [Hc0 Hc1].
  rewrite length_sorted in Hc1.
  split.
  - rewrite Qred_correct. unfold Num.of_Z, Num.of_nat in *.
    rewrite Zle_Qle in Hc0, Hc1.
    set (c := inject_Z (count_in_interval lo hi (sorted quality_list))) in *.
    set (n := inject_Z (Z.of_nat (length quality_list))) in *.
    change (inject_Z 0) with 0%Q in Hc0.
    split.
    + apply Qle_shift_div_l; [done|]. lra.
    + apply Qle_shift_div_r; [done|]. lra.
  - intros Hwide [Hq0 Hq1] Hall.
    assert (Hfloor : Qfloor (queried_quality / quality_interval self) = 0%Z).
    { assert (Hpos : (0 < quality_interval self)%Q) by lra.
      assert (0 <= queried_quality / quality_interval self)%Q
        by (apply Qle_shift_div_l; lra).
      assert (queried_quality / quality_interval self < 1)%Q
        by (apply Qlt_shift_div_r; lra).
      pose proof (Qfloor_le (queried_quality / quality_interval self)).
      pose proof (Qlt_floor (queried_quality / quality_interval self)).
      assert (Hlt : (inject_Z (Qfloor (queried_quality / quality_interval self)) < inject_Z 1)%Q)
        by (change (inject_Z 1) with 1%Q; lra).
      assert (Hgt : (inject_Z (-1) < inject_Z (Qfloor (queried_quality / quality_interval self)))%Q).
      { rewrite inject_Z_plus in *. change (inject_Z 1) with 1%Q in *.
        change (inject_Z (-1)) with (-1)%Q. lra. }
      rewrite <- Zlt_Qlt in Hlt, Hgt. lia. }
    assert (Hlo : (lo == 0)%Q).
    { subst lo. rewrite NumFacts.mul_eq, Hfloor. change (inject_Z 0) with 0%Q. lra. }
    assert (Hhi : (hi == quality_interval self)%Q).
    { subst hi. rewrite NumFacts.add_eq, Hlo. lra. }
    rewrite count_all.
    + rewrite length_sorted.
      change 1%Q with (Qred 1). apply Qred_complete.
      unfold Num.of_Z. fold (Num.of_nat (length quality_list)).
      field. lra.
    + apply Forall_sorted. eapply Forall_impl; [exact Hall|].
      simpl. intros x [[Hx0 Hx1] Hx2]. rewrite Hlo, Hhi. lra.
Qed.

Lemma interval_probability_range_witness :
  ∃ p,
    query_probability_contract_expression Example.program (1 # 2)
      [1 # 2; 3 # 5; 1 # 4]
    = Ok p
    ∧ (0 <= p <= 1)%Q
    ∧ ((1 <= quality_interval Example.program)%Q →
       (0 <= 1 # 2 < quality_interval Example.program)%Q →
       Forall (λ x, 0 <= x <= 1 ∧ x < quality_interval Example.program)%Q
         [1 # 2; 3 # 5; 1 # 4] →
       p = 1%Q).
Proof.
  apply (interval_probability_range Example.program (1 # 2) [1 # 2; 3 # 5; 1 # 4]).
  - vm_compute. discriminate.
  - discriminate.
Defined.

(** C5, as stated, fails: with [quality_interval = 1.0] the band of 0.5 is
    [0.0, 1.0), and the sample 1.0 lies outside it. *)
Lemma interval_probability_full_range_counterexample :
  (1 <= quality_interval Example.unit_band)%Q
  ∧ Forall (λ x, 0 <= x <= 1)%Q [1%Q]
  ∧ query_probability_contract_expression Example.unit_band (1 # 2) [1%Q] = Ok 0%Q
  ∧ query_probability_contract_expression Example.unit_band (1 # 2) [1%Q] ≠ Ok 1%Q.
Proof.
  split; [vm_compute; discriminate|].
  split; [repeat constructor; vm_compute; discriminate|].
  split; [reflexivity|discriminate].
Qed.

(** C6: on an empty sample sequence
    [query_probability_contract_expression] raises [ZeroDivisionError],
    whatever the queried quality and the profile; it does not return 0,
    and the exception is not the [KeyError] of a key that is missing. *)
Theorem interval_probability_empty
    (self : PerformanceProfile) (queried_quality : Q) :
  query_probability_contract_expression self queried_quality []
  = Err ZeroDivisionError
  ∧ query_probability_contract_expression self queried_quality [] ≠ Ok 0%Q
  ∧ (∀ entries key,
       entries !! key = None → subscript (Dict entries) key = Err KeyError)
  ∧ Err (A:=Q) ZeroDivisionError ≠ Err KeyError.
Proof.
  assert (H : query_probability_contract_expression self queried_quality []
              = Err ZeroDivisionError).
  { unfold query_probability_contract_expression.
    destruct (Num.floordiv queried_quality (quality_interval self)) as [q|e] eqn:E.
    - reflexivity.
    - apply NumFacts.floordiv_err in E. by subst e. }
  split; [exact H|]. split; [by rewrite H|].
  split; [|discriminate].
  intros entries key Hkey. simpl. by rewrite Hkey.
Qed.

(** A time whose key is not recorded fails with [KeyError], samples that
    are missing at a recorded key with [ZeroDivisionError]. *)
Example missing_key_and_empty_samples :
  query_average_quality Example.program 0 (mkTimeAllocation 5 0) (VList [])
  = Err KeyError
  ∧ query_probability_contract_expression Example.program (1 # 2) []
    = Err ZeroDivisionError
  ∧ average_quality [] = Err ZeroDivisionError.
Proof. repeat split; vm_compute; reflexivity. Qed.

(** C9: [round_nearest] is [round(number / step) * step]; on binary64,
    0.07 / 0.05 is 1.4000000000000001 and rounds to 1, 0.08 / 0.05 is
    1.5999999999999999 and rounds to 2, so that
    [round_nearest(0.07, 0.05)] is 0.05 and [round_nearest(0.08, 0.05)] is
    0.1. *)
Theorem round_nearest_binary64 :
  (∀ number step : PrimFloat.float,
     round_nearest number step
     = (quotient ← Binary64.truediv number step;
        n ← Binary64.round_half_even quotient;
        Binary64.int_mul n step))
  ∧ (Binary64.truediv Binary64.d0_07 Binary64.d0_05
       ≫= Binary64.round_half_even) = Ok 1%Z
  ∧ round_nearest Binary64.d0_07 Binary64.d0_05 = Ok Binary64.d0_05
  ∧ (Binary64.truediv Binary64.d0_08 Binary64.d0_05
       ≫= Binary64.round_half_even) = Ok 2%Z
  ∧ round_nearest Binary64.d0_08 Binary64.d0_05 = Ok Binary64.d0_1.
Proof.
  split; [reflexivity|].
  repeat split; vm_compute; reflexivity.
Qed.

(** The constants are the floats the decimal literals denote. *)
Example binary64_literals :
  Binary64.decimal 5 2 = Ok Binary64.d0_05
  ∧ Binary64.decimal 7 2 = Ok Binary64.d0_07
  ∧ Binary64.decimal 8 2 = Ok Binary64.d0_08
  ∧ Binary64.decimal 1 1 = Ok Binary64.d0_1.
Proof. repeat split; vm_compute; reflexivity. Qed.

(** The same calls in exact arithmetic. *)
Example round_nearest_exact :
  round_nearest (7 # 100) (1 # 20) = Ok (1 # 20)
  ∧ round_nearest (8 # 100) (1 # 20) = Ok (1 # 10).
Proof. split; reflexivity. Qed.

(** ** Quality propagation *)

Lemma comprehension_Forall2 {A B} (f : A → result B) xs ys :
  comprehension f xs = Ok ys → Forall2 (λ x y, f x = Ok y) xs ys.
Proof.
  revert ys. induction xs as [|x xs IH]; intros ys; simpl.
  - intros [= <-]. constructor.
  - destruct (f x) as [y|e] eqn:Hx; [|discriminate]. rewrite bind_ok.
    destruct (comprehension f xs) as [ys'|e]; [|discriminate].
    rewrite bind_ok. intros [= <-]. constructor; auto.
Qed.

Section propagation.
Context (self : ContractProgram).

(** [find_parent_qualities] with its loop over the parents folded
    into a comprehension. *)
Lemma find_parent_qualities_unfold node time_allocations depth :
  find_parent_qualities self node time_allocations depth
  = (parent_qualities ←
       comprehension
         (λ parent, find_parent_qualities self parent time_allocations (S depth))
         (parents node);
     if (S depth =? 1)%nat then Ok (VList parent_qualities)
     else
       time_allocation ← index time_allocations (id node);
       VFloat <$> query_average_quality self (id node) time_allocation
                    (VList parent_qualities)).
Proof.
  destruct node as [node_id ps]. destruct ps as [|p ps]; [reflexivity|].
  assert (Hloop : ∀ qs,
    (fix loop (ps0 : list Node) : result (list value) :=
       match ps0 with
       | [] => Ok []
       | parent :: ps' =>
           quality ← find_parent_qualities self parent time_allocations (S depth);
           rest ← loop ps';
           Ok (quality :: rest)
       end) qs
    = comprehension
        (λ parent, find_parent_qualities self parent time_allocations (S depth))
        qs).
  { induction qs as [|q qs IH]; [reflexivity|].
    cbn [comprehension]. rewrite <- IH. reflexivity. }
  cbn [find_parent_qualities parents id comprehension].
  rewrite Hloop. reflexivity.
Qed.

(** Below the outermost call the result is a float. *)
Lemma find_parent_qualities_deep node time_allocations depth v :
  find_parent_qualities self node time_allocations (S depth) = Ok v →
  ∃ q, v = VFloat q.
Proof.
  rewrite find_parent_qualities_unfold.
  destruct (comprehension _ (parents node)) as [pqs|e]; [|discriminate].
  rewrite bind_ok. cbn [Nat.eqb].
  destruct (index time_allocations (id node)) as [ta|e]; [|discriminate].
  rewrite bind_ok.
  destruct (query_average_quality self (id node) ta (VList pqs)) as [q|e];
    [|discriminate].
  intros [= <-]. by exists q.
Qed.
End propagation.

(** C7: the outermost call of [find_parent_qualities] (depth 0) returns a
    list with one float per parent of the node, each the result of the call
    on that parent at depth 1, and never a float; the empty list for a node
    without parents.  Every call at depth at least 1 returns the float of
    [query_average_quality] for the node, its allocation and the list of its
    parents' qualities, which is empty for a leaf; and never a list. *)
Theorem find_parent_qualities_shape
    (self : ContractProgram) (node : Node)
    (time_allocations : list TimeAllocation) :
  find_parent_qualities self node time_allocations 0
  = VList <$> comprehension
                (λ parent, find_parent_qualities self parent time_allocations 1)
                (parents node)
  ∧ (∀ q, find_parent_qualities self node time_allocations 0 ≠ Ok (VFloat q))
  ∧ (∀ items,
       find_parent_qualities self node time_allocations 0 = Ok (VList items) →
       Forall2
         (λ parent item,
            ∃ q, item = VFloat q
                 ∧ find_parent_qualities self parent time_allocations 1
                   = Ok (VFloat q))
         (parents node) items)
  ∧ (parents node = [] →
     find_parent_qualities self node time_allocations 0 = Ok (VList []))
  ∧ (∀ depth items,
       find_parent_qualities self node time_allocations (S depth)
       ≠ Ok (VList items))
  ∧ (∀ depth,
       find_parent_qualities self node time_allocations (S depth)
       = (parent_qualities ←
            comprehension
              (λ parent,
                 find_parent_qualities self parent time_allocations (S (S depth)))
              (parents node);
          time_allocation ← index time_allocations (id node);
          VFloat <$> query_average_quality self (id node) time_allocation
                       (VList parent_qualities)))
  ∧ (∀ depth,
       parents node = [] →
       find_parent_qualities self node time_allocations (S depth)
       = (time_allocation ← index time_allocations (id node);
          VFloat <$> query_average_quality self (id node) time_allocation
                       (VList []))).
Proof.
  assert (H0 : find_parent_qualities self node time_allocations 0
               = VList <$> comprehension
                   (λ parent, find_parent_qualities self parent time_allocations 1)
                   (parents node)).
  { rewrite find_parent_qualities_unfold.
    by destruct (comprehension _ (parents node)). }
  assert (Hdeep : ∀ depth,
       find_parent_qualities self node time_allocations (S depth)
       = (parent_qualities ←
            comprehension
              (λ parent,
                 find_parent_qualities self parent time_allocations (S (S depth)))
              (parents node);
          time_allocation ← index time_allocations (id node);
          VFloat <$> query_average_quality self (id node) time_allocation
                       (VList parent_qualities))).
  { intros depth. by rewrite find_parent_qualities_unfold. }
  split; [exact H0|].
  split.
  { intros q. rewrite H0. by destruct (comprehension _ (parents node)). }
  split.
  { intros items. rewrite H0.
    destruct (comprehension _ (parents node)) as [pqs|e] eqn:Hc; [|discriminate].
    intros [= <-]. apply comprehension_Forall2 in Hc.
    eapply Forall2_impl; [exact Hc|].
    intros parent item Hitem. simpl in Hitem.
    destruct (find_parent_qualities_deep _ _ _ _ _ Hitem) as [q ->].
    by exists q. }
  split.
  { intros Hleaf. rewrite H0, Hleaf. reflexivity. }
  split.
  { intros depth items Hlist.
    by destruct (find_parent_qualities_deep _ _ _ _ _ Hlist). }
  split; [exact Hdeep|].
  intros depth Hleaf. rewrite Hdeep, Hleaf. reflexivity.
Qed.

(** In the example, the root is conditioned on the quality of the leaf. *)
Example find_parent_qualities_root :
  find_parent_qualities Example.program Example.root (Example.allocation 1 1) 0
  = Ok (VList [VFloat (1 # 4)])
  ∧ find_parent_qualities Example.program Example.leaf (Example.allocation 1 1) 0
    = Ok (VList [])
  ∧ find_parent_qualities Example.program Example.leaf (Example.allocation 1 1) 1
    = Ok (VFloat (1 # 4)).
Proof. repeat split; vm_compute; reflexivity. Qed.

(** ** Candidates: the copy and the two updates *)

Section adjust_facts.
Local Open Scope Q_scope.

(** What a candidate is, on allocation vectors. *)
Lemma adjust_Some allocations time_switched p0 p1 adjusted :
  adjust allocations time_switched (p0, p1) = Ok (Some adjusted) →
  node_id p0 ≠ node_id p1
  ∧ ∃ a0 a1,
      allocations !! node_id p0 = Some a0
      ∧ allocations !! node_id p1 = Some a1
      ∧ 0 <= time a0 - time_switched
      ∧ adjusted
        = <[node_id p1 := set_time a1 (Num.add (time a1) time_switched)]>
            (<[node_id p0 := set_time a0 (Num.sub (time a0) time_switched)]>
               allocations).
Proof.
  unfold adjust, index.
  destruct (node_id p0 =? node_id p1)%nat eqn:Hne; [discriminate|].
  apply Nat.eqb_neq in Hne.
  destruct (allocations !! node_id p0) as [a0|] eqn:H0; [|discriminate].
  rewrite bind_ok.
  destruct (Num.ltb _ 0) eqn:Hneg; [discriminate|].
  apply NumFacts.ltb_false in Hneg. rewrite NumFacts.sub_eq in Hneg.
  rewrite list_lookup_insert_ne by done.
  destruct (allocations !! node_id p1) as [a1|] eqn:H1; [|discriminate].
  rewrite bind_ok. intros [= <-].
  split; [done|]. by exists a0, a1.
Qed.

(** The entries of a candidate. *)
Lemma adjust_entries allocations time_switched p0 p1 adjusted :
  adjust allocations time_switched (p0, p1) = Ok (Some adjusted) →
  length adjusted = length allocations
  ∧ (∃ a0, allocations !! node_id p0 = Some a0
           ∧ adjusted !! node_id p0
             = Some (mkTimeAllocation (Num.sub (time a0) time_switched)
                       (node_id a0)))
  ∧ (∃ a1, allocations !! node_id p1 = Some a1
           ∧ adjusted !! node_id p1
             = Some (mkTimeAllocation (Num.add (time a1) time_switched)
                       (node_id a1)))
  ∧ (∀ k, k ≠ node_id p0 → k ≠ node_id p1 →
          adjusted !! k = allocations !! k)
  ∧ node_id <$> adjusted = node_id <$> allocations.
Proof.
  intros (Hne & a0 & a1 & H0 & H1 & _ & ->)%adjust_Some.
  assert (Hl0 : (node_id p0 < length allocations)%nat)
    by (eapply lookup_lt_Some; eauto).
  assert (Hl1 : (node_id p1 < length allocations)%nat)
    by (eapply lookup_lt_Some; eauto).
  split; [by rewrite !length_insert|].
  split.
  { exists a0. split; [done|].
    rewrite list_lookup_insert_ne by done.
    by rewrite list_lookup_insert_eq. }
  split.
  { exists a1. split; [done|].
    rewrite list_lookup_insert_eq; [done|]. by rewrite length_insert. }
  split.
  { intros k Hk0 Hk1. by rewrite !list_lookup_insert_ne. }
  rewrite !list_fmap_insert. simpl.
  rewrite (list_insert_id (node_id <$> allocations) (node_id p0)).
  - apply list_insert_id. by rewrite list_lookup_fmap, H1.
  - by rewrite list_lookup_fmap, H0.
Qed.
End adjust_facts.

Module StoreFacts.
Import StoreSpec.

Lemma extends_refl h : extends h h.
Proof. by intros l _. Qed.

Lemma extends_dom h h' l : extends h h' → l ∈ dom h → l ∈ dom h'.
Proof.
  intros Hext Hl. apply elem_of_dom. rewrite Hext by done.
  by apply elem_of_dom.
Qed.

Lemma extends_trans h1 h2 h3 : extends h1 h2 → extends h2 h3 → extends h1 h3.
Proof.
  intros H12 H23 l Hl. rewrite H23, H12; eauto using extends_dom.
Qed.

Lemma extends_total h h' l : extends h h' → l ∈ dom h → h' !!! l = h !!! l.
Proof.
  intros Hext Hl. rewrite !lookup_total_alt. by rewrite Hext.
Qed.

Lemma extends_read h h' xs :
  extends h h' → (∀ l, l ∈ xs → l ∈ dom h) → Store.read h' xs = Store.read h xs.
Proof.
  intros Hext Hxs. unfold Store.read. apply list_fmap_ext.
  intros i l Hl. apply extends_total; [done|].
  apply Hxs. by eapply list_elem_of_lookup_2.
Qed.

Lemma extends_insert_fresh h l a : l ∉ dom h → extends h (<[l := a]> h).
Proof.
  intros Hl l' Hl'. apply lookup_insert_ne. intros ->. done.
Qed.

(** The copy: new objects, equal to the old ones, at distinct new
    addresses. *)
Lemma deepcopy_items_spec xs : ∀ h memo h' ys,
  NoDup xs →
  (∀ l, l ∈ xs → memo !! l = None) →
  (∀ l, l ∈ xs → l ∈ dom h) →
  Store.deepcopy_items h memo xs = (h', ys) →
  extends h h'
  ∧ Forall2 (λ l l', h' !! l' = h !! l) xs ys
  ∧ NoDup ys
  ∧ (∀ l', l' ∈ ys → (l' ∉ dom h) ∧ (l' ∈ dom h'))
  ∧ (∀ l, l ∈ dom h' → l ∈ dom h ∨ l ∈ ys).
Proof.
  induction xs as [|l xs IH]; intros h memo h' ys Hnd Hmemo Hdom; simpl.
  - intros [= <- <-]. split; [apply extends_refl|].
    split; [constructor|]. split; [constructor|].
    split; [intros l' Hl'; by apply elem_of_nil in Hl'|]. auto.
  - rewrite Hmemo by left. unfold Store.alloc.
    set (l' := fresh (dom h)).
    assert (Hfresh : l' ∉ dom h) by apply is_fresh.
    set (h1 := <[l' := h !!! l]> h).
    destruct (Store.deepcopy_items h1 (<[l := l']> memo) xs) as [h2 ys'] eqn:Hrec.
    intros [= <- <-].
    apply NoDup_cons in Hnd as [Hl Hnd].
    assert (Hext1 : extends h h1) by by apply extends_insert_fresh.
    apply IH in Hrec as (Hext & Hcopy & Hnd' & Hnew & Hold); [|done|..].
    + assert (Hl' : l' ∈ dom h1) by (apply elem_of_dom; unfold h1;
                                     by rewrite lookup_insert_eq).
      split; [by eapply extends_trans|].
      assert (Hcopy' : Forall2 (λ x y, h2 !! y = h !! x) xs ys').
      { apply Forall2_same_length_lookup. apply Forall2_same_length_lookup in Hcopy.
        destruct Hcopy as [Hlen Hcopy]. split; [done|].
        intros i x y Hx Hy. rewrite (Hcopy i x y Hx Hy).
        apply Hext1, Hdom. right. by eapply list_elem_of_lookup_2. }
      split.
      { constructor; [|eapply Forall2_impl; [exact Hcopy'|done]].
        rewrite Hext by done. unfold h1. rewrite lookup_insert_eq.
        assert (Hin : l ∈ dom h) by (apply Hdom; left).
        apply elem_of_dom in Hin as [a Ha].
        by rewrite (lookup_total_correct _ _ _ Ha). }
      split.
      { apply NoDup_cons. split; [|done].
        intros Hin. by apply Hnew in Hin as [? _]. }
      split.
      { intros y [->|Hy]%elem_of_cons.
        - split; [done|]. by eapply extends_dom.
        - apply Hnew in Hy as [Hy1 Hy2]. split; [|done].
          intros Hy3. apply Hy1. by eapply extends_dom. }
      intros y Hy. apply Hold in Hy as [Hy|Hy].
      * unfold h1 in Hy. rewrite dom_insert in Hy.
        apply elem_of_union in Hy as [->%elem_of_singleton|Hy];
          [right; left|by left].
      * right. by right.
    + intros x Hx. rewrite lookup_insert_ne; [apply Hmemo; by right|].
      intros ->. done.
    + intros x Hx. eapply extends_dom; [done|]. apply Hdom. by right.
Qed.

Lemma read_lookup h xs i :
  Store.read h xs !! i = (λ l, h !!! l) <$> xs !! i.
Proof. apply list_lookup_fmap. Qed.

Lemma Forall2_copy_read h h' xs ys :
  Forall2 (λ l l', h' !! l' = h !! l) xs ys → Store.read h' ys = Store.read h xs.
Proof.
  unfold Store.read. induction 1 as [|x y xs ys Hxy _ IH]; [done|].
  rewrite !fmap_cons, IH. f_equal. by rewrite !lookup_total_alt, Hxy.
Qed.

(** Writing through one reference of a list without aliases changes one
    entry. *)
Lemma read_insert h xs i l a :
  NoDup xs → xs !! i = Some l →
  Store.read (<[l := a]> h) xs = <[i := a]> (Store.read h xs).
Proof.
  intros Hnd Hi. apply list_eq. intros k. unfold Store.read.
  rewrite list_lookup_fmap.
  destruct (decide (k = i)) as [->|Hk].
  - rewrite Hi. simpl. rewrite lookup_total_insert_eq.
    rewrite list_lookup_insert_eq; [done|].
    rewrite length_fmap. by eapply lookup_lt_Some.
  - rewrite list_lookup_insert_ne by done. rewrite list_lookup_fmap.
    destruct (xs !! k) as [l'|] eqn:Hl'; [|done]. simpl.
    rewrite lookup_total_insert_ne; [done|].
    intros ->. apply Hk. symmetry. by eapply NoDup_lookup.
Qed.

(** [Store.adjust] computes the candidate of [adjust] on the vectors the
    references denote, in new objects, and keeps the old ones. *)
Lemma adjust_refines h allocations time_switched p0 p1 :
  NoDup allocations →
  (∀ l, l ∈ allocations → l ∈ dom h) →
  p0 ∈ dom h → p1 ∈ dom h →
  match Store.adjust h allocations time_switched (p0, p1) with
  | Ok (h1, candidate) =>
      extends h h1
      ∧ adjust (Store.read h allocations) time_switched (h !!! p0, h !!! p1)
        = Ok (Store.read h1 <$> candidate)
      ∧ (∀ ls, candidate = Some ls →
               NoDup ls ∧ length ls = length allocations
               ∧ ∀ l, l ∈ ls → l ∉ dom h)
  | Err e =>
      adjust (Store.read h allocations) time_switched (h !!! p0, h !!! p1) = Err e
  end.
Proof.
  intros Hnd Hdom Hp0 Hp1. unfold Store.adjust, adjust.
  destruct (node_id (h !!! p0) =? node_id (h !!! p1))%nat eqn:Hne.
  { split; [apply extends_refl|]. split; [done|]. intros ls [=]. }
  apply Nat.eqb_neq in Hne.
  destruct (Store.deepcopy h allocations) as [h' adjusted] eqn:Hcopy.
  apply deepcopy_items_spec in Hcopy
    as (Hext & Hcopy & Hnd' & Hnew & _); [|done|done|done].
  assert (Hread : Store.read h' adjusted = Store.read h allocations)
    by by apply Forall2_copy_read.
  assert (Hlen : length adjusted = length allocations)
    by (symmetry; by eapply Forall2_length).
  rewrite (extends_total h h' p0) by done.
  set (n0 := node_id (h !!! p0)) in *.
  set (n1 := node_id (h !!! p1)) in *.
  unfold index. rewrite <- Hread, read_lookup.
  destruct (adjusted !! n0) as [l0|] eqn:Hl0; [|done].
  cbn [fmap option_fmap option_map]. rewrite ?bind_ok.
  destruct (Num.ltb (Num.sub (time (h' !!! l0)) time_switched) 0).
  { split; [done|]. split; [done|]. intros ls [=]. }
  assert (Hl0new : l0 ∉ dom h)
    by (eapply Hnew, list_elem_of_lookup_2; eauto).
  assert (Hp1l0 : p1 ≠ l0) by (intros ->; done).
  rewrite lookup_total_insert_ne by done.
  rewrite (extends_total h h' p1) by done. fold n1.
  rewrite list_lookup_insert_ne by done. rewrite read_lookup.
  destruct (adjusted !! n1) as [l1|] eqn:Hl1; [|done].
  cbn [fmap option_fmap option_map]. rewrite ?bind_ok.
  assert (Hl1new : l1 ∉ dom h)
    by (eapply Hnew, list_elem_of_lookup_2; eauto).
  assert (Hl01 : l0 ≠ l1).
  { intros ->. apply Hne. by eapply NoDup_lookup. }
  rewrite (lookup_total_insert_ne _ l0 l1) by done.
  split.
  { intros l Hl. rewrite !lookup_insert_ne by (intros ->; done).
    by apply Hext. }
  split.
  { simpl. do 2 f_equal.
    rewrite (read_insert _ _ n1) by done.
    by rewrite (read_insert _ _ n0) by done. }
  intros ls [= <-]. split; [done|]. split; [done|].
  intros l Hl. by apply Hnew.
Qed.
End StoreFacts.

(** C10: for a pair of allocations with distinct node ids [i] and [j]
    that are indices of the list, when the time of entry [i] less the step
    is not negative, a candidate is built, and it is scored against the
    current best.  The candidate is made of new objects, a copy of the
    current best in which the time of entry [i] is decreased by the step
    and the time of entry [j] is increased by it; every other entry and
    every node id is as in the current best, and building and scoring the
    candidate leaves every object that existed before, so the current
    best itself, as it was. *)
Theorem candidate_frame
    (eu : list TimeAllocation → result Q)
    (h : gmap nat TimeAllocation) (allocations : list Store.loc)
    (time_switched : Q) (p0 p1 : Store.loc) :
  NoDup allocations →
  (∀ l, l ∈ allocations → l ∈ dom h) →
  p0 ∈ allocations → p1 ∈ allocations →
  let i := node_id (h !!! p0) in
  let j := node_id (h !!! p1) in
  (∀ a0,
     i ≠ j →
     Store.read h allocations !! i = Some a0 →
     (j < length allocations)%nat →
     Num.ltb (Num.sub (time a0) time_switched) 0 = false →
     ∃ h1 adjusted,
       Store.adjust h allocations time_switched (p0, p1)
       = Ok (h1, Some adjusted)
       ∧ ∀ possible_local_max u v,
           eu (Store.read h1 adjusted) = Ok u →
           eu (Store.read h allocations) = Ok v →
           Store.consider eu h allocations time_switched possible_local_max
             (p0, p1)
           = Ok (h1, if Num.gtb u v
                     then possible_local_max ++ [adjusted]
                     else possible_local_max))
  ∧ (∀ h1 adjusted,
     Store.adjust h allocations time_switched (p0, p1) = Ok (h1, Some adjusted) →
     i ≠ j
     ∧ (∀ l, l ∈ adjusted → l ∉ dom h)
     ∧ length adjusted = length allocations
     ∧ (∃ a0, Store.read h allocations !! i = Some a0
              ∧ Store.read h1 adjusted !! i
                = Some (mkTimeAllocation (Num.sub (time a0) time_switched)
                          (node_id a0)))
     ∧ (∃ a1, Store.read h allocations !! j = Some a1
              ∧ Store.read h1 adjusted !! j
                = Some (mkTimeAllocation (Num.add (time a1) time_switched)
                          (node_id a1)))
     ∧ (∀ k, k ≠ i → k ≠ j →
             Store.read h1 adjusted !! k = Store.read h allocations !! k)
     ∧ node_id <$> Store.read h1 adjusted = node_id <$> Store.read h allocations
     ∧ adjust (Store.read h allocations) time_switched (h !!! p0, h !!! p1)
       = Ok (Some (Store.read h1 adjusted)))
  ∧ (∀ possible_local_max h1 possible_local_max',
       Store.consider eu h allocations time_switched possible_local_max (p0, p1)
       = Ok (h1, possible_local_max') →
       (∀ l, l ∈ dom h → h1 !! l = h !! l)
       ∧ Store.read h1 allocations = Store.read h allocations).
Proof.
  intros Hnd Hdom Hp0 Hp1 i j.
  pose proof (StoreFacts.adjust_refines h allocations time_switched p0 p1
                Hnd Hdom (Hdom _ Hp0) (Hdom _ Hp1)) as Href.
  split; [|split].
  - intros a0 Hne Ha0 Hj Hroom.
    assert (Hpure : ∃ c,
      adjust (Store.read h allocations) time_switched (h !!! p0, h !!! p1)
      = Ok (Some c)).
    { unfold adjust, index. fold i j.
      apply Nat.eqb_neq in Hne. rewrite Hne, Ha0, bind_ok, Hroom.
      apply Nat.eqb_neq in Hne. rewrite list_lookup_insert_ne by done.
      destruct (lookup_lt_is_Some_2 (Store.read h allocations) j) as [a1 Ha1];
        [unfold Store.read; by rewrite length_fmap|].
      rewrite Ha1, bind_ok. by eexists. }
    destruct Hpure as [c Hpure].
    destruct (Store.adjust h allocations time_switched (p0, p1))
      as [[h1 candidate]|e] eqn:Hadj; cbv iota beta in Href; [|congruence].
    destruct Href as (Hext & Hval & _).
    destruct candidate as [adjusted|];
      [|rewrite Hpure in Hval; discriminate].
    exists h1, adjusted. split; [done|].
    intros plm u v Hu Hv. unfold Store.consider.
    rewrite Hadj, bind_ok. cbv iota beta. rewrite Hu, bind_ok.
    rewrite (StoreFacts.extends_read h h1 allocations), Hv by done.
    by rewrite bind_ok.
  - intros h1 adjusted Hadj. rewrite Hadj in Href.
    destruct Href as (Hext & Hval & Hnew). simpl in Hval.
    destruct (Hnew _ eq_refl) as (_ & Hlen & Hfresh).
    pose proof Hval as (Hne & _)%adjust_Some.
    pose proof Hval as (_ & H0 & H1 & Hother & Hids)%adjust_entries.
    simpl in *. by repeat split.
  - intros plm h1 plm'. unfold Store.consider.
    destruct (Store.adjust h allocations time_switched (p0, p1))
      as [[h2 candidate]|e]; [|discriminate].
    destruct Href as (Hext & _). rewrite bind_ok.
    intros Hcons.
    assert (h1 = h2) as ->.
    { destruct candidate as [adjusted|]; [|by inversion Hcons].
      destruct (eu (Store.read h2 adjusted)); [|discriminate].
      rewrite bind_ok in Hcons.
      destruct (eu (Store.read h2 allocations)); [|discriminate].
      by inversion Hcons. }
    split; [exact Hext|]. by apply StoreFacts.extends_read.
Qed.

Lemma candidate_frame_witness :
  ∃ h1 adjusted,
    Store.adjust Example.store [0; 1]%nat 1 (0, 1)%nat = Ok (h1, Some adjusted)
    ∧ ∀ possible_local_max u v,
        global_expected_utility Example.program (Store.read h1 adjusted) = Ok u →
        global_expected_utility Example.program
          (Store.read Example.store [0; 1]%nat) = Ok v →
        Store.consider (global_expected_utility Example.program) Example.store
          [0; 1]%nat 1 possible_local_max (0, 1)%nat
        = Ok (h1, if Num.gtb u v
                  then possible_local_max ++ [adjusted]
                  else possible_local_max).
Proof.
  destruct (candidate_frame (global_expected_utility Example.program)
              Example.store [0; 1]%nat 1 0%nat 1%nat) as [Hbuilt _].
  - apply (bool_decide_unpack _). vm_compute. reflexivity.
  - intros l Hl. apply elem_of_dom.
    apply elem_of_cons in Hl as [->|Hl]; [by eexists|].
    apply elem_of_cons in Hl as [->|Hl]; [by eexists|].
    by apply elem_of_nil in Hl.
  - by left.
  - right. by left.
  - apply (Hbuilt (mkTimeAllocation 1 0)).
    + discriminate.
    + reflexivity.
    + apply Nat.ltb_lt. vm_compute. reflexivity.
    + reflexivity.
Defined.

(** The candidate of the pair (node 0, node 1) in the example: two new
    objects that hold (0, 2), next to the current best (1, 1). *)
Example candidate_in_store :
  match Store.adjust Example.store [0; 1]%nat 1 (0, 1)%nat with
  | Ok (h1, Some adjusted) =>
      adjusted = [2; 3]%nat
      ∧ Store.read h1 adjusted = Example.allocation 0 2
      ∧ Store.read h1 [0; 1]%nat = Example.allocation 1 1
  | _ => False
  end.
Proof. vm_compute. repeat split. Qed.

(** ** Rounds of the search *)

Lemma for_each_invariant {A S} (body : S → A → result S) (P : S → Prop) xs :
  ∀ s0 s,
    (∀ s x s', x ∈ xs → P s → body s x = Ok s' → P s') →
    P s0 → for_each body s0 xs = Ok s → P s.
Proof.
  induction xs as [|x xs IH]; intros s0 s Hbody H0; simpl.
  - by intros [= <-].
  - destruct (body s0 x) as [s1|e] eqn:Hx; [|discriminate].
    rewrite bind_ok. apply IH.
    + intros s' y s'' Hy. apply Hbody. by right.
    + eapply Hbody; [by left|done|done].
Qed.

Section rounds.
Local Open Scope Q_scope.
Context (eu : list TimeAllocation → result Q).

Lemma improving_improves allocations time_switched possible_local_max :
  improving eu allocations time_switched = Ok possible_local_max →
  Forall (improves eu allocations time_switched) possible_local_max.
Proof.
  unfold improving.
  apply (for_each_invariant _ (Forall (improves eu allocations time_switched)));
    [|constructor].
  intros plm permutation plm' Hin Hplm. unfold consider.
  destruct (adjust allocations time_switched permutation)
    as [[candidate|]|e] eqn:Hadj; rewrite ?bind_ok; [|by intros [= <-]|done].
  destruct (eu candidate) as [u|e] eqn:Hu; [|done]. rewrite bind_ok.
  destruct (eu allocations) as [v|e] eqn:Hv; [|done]. rewrite bind_ok.
  destruct (Num.gtb u v) eqn:Hgt; intros [= <-]; [|done].
  apply Forall_app. split; [done|]. constructor; [|constructor].
  exists permutation, u, v. apply NumFacts.gtb_true in Hgt. done.
Qed.

(** [max]: an element of the list that none exceeds. *)
Lemma py_max_spec xs m :
  py_max xs = Ok m → m ∈ xs ∧ Forall (λ x, x <= m) xs.
Proof.
  destruct xs as [|x xs]; [discriminate|]. simpl. intros [= <-].
  assert (H : ∀ ys m0,
    let m := fold_left (λ m y, if Num.gtb y m then y else m) ys m0 in
    (m = m0 ∨ m ∈ ys) ∧ m0 <= m ∧ Forall (λ x, x <= m) ys).
  { induction ys as [|y ys IH]; intros m0; simpl.
    - split; [by left|]. split; [lra|constructor].
    - specialize (IH (if Num.gtb y m0 then y else m0)). simpl in IH.
      destruct IH as (Hin & Hle & Hall).
      destruct (Num.gtb y m0) eqn:Hgt.
      + apply NumFacts.gtb_true in Hgt.
        split; [right; destruct Hin as [->|Hin]; [left|by right]|].
        split; [lra|]. by constructor.
      + apply NumFacts.gtb_false in Hgt.
        split; [destruct Hin as [->|Hin]; [by left|right; by right]|].
        split; [done|]. constructor; [lra|done]. }
  destruct (H xs x) as (Hin & Hle & Hall).
  split; [destruct Hin as [->|Hin]; [left|by right]|].
  by constructor.
Qed.

(** The scan of lines 175-178 ends on the last element that scores
    [best]. *)
Lemma last_match_spec best xs : ∀ a0 a,
  for_each
    (λ allocations j,
       u ← eu j; Ok (if Num.eqb u best then j else allocations))
    a0 xs = Ok a →
  (a = a0 ∧ Forall (λ c, ∃ u, eu c = Ok u ∧ ¬ u == best) xs)
  ∨ (∃ pre post u,
       xs = pre ++ a :: post ∧ eu a = Ok u ∧ u == best
       ∧ Forall (λ c, ∃ u, eu c = Ok u ∧ ¬ u == best) post).
Proof.
  induction xs as [|x xs IH]; intros a0 a; simpl.
  - intros [= <-]. left. split; [done|constructor].
  - destruct (eu x) as [u|e] eqn:Hu; [|discriminate]. rewrite bind_ok.
    intros Hrest. apply IH in Hrest as [[-> Hnone]|Hsome].
    + destruct (Num.eqb u best) eqn:Heq.
      * apply NumFacts.eqb_true in Heq. right. by exists [], xs, u.
      * apply NumFacts.eqb_false in Heq. left. split; [done|].
        constructor; [by exists u|done].
    + destruct Hsome as (pre & post & u' & -> & Hu' & Heq & Hpost).
      right. by exists (x :: pre), post, u'.
Qed.

(** The selection among candidates that all have a score. *)
Lemma select_spec allocations possible_local_max :
  possible_local_max ≠ [] →
  Forall (λ c, is_ok (eu c) = true) possible_local_max →
  ∃ new pre post best,
    select eu allocations possible_local_max = Ok new
    ∧ possible_local_max = pre ++ new :: post
    ∧ eu new = Ok best
    ∧ Forall (λ c, ∃ u, eu c = Ok u ∧ u <= best) possible_local_max
    ∧ Forall (λ c, ∃ u, eu c = Ok u ∧ u < best) post.
Proof.
  intros Hne Hok. unfold select.
  destruct (comprehension eu possible_local_max) as [utilities|e] eqn:Hc.
  2:{ exfalso. clear Hne. revert e Hc.
      induction Hok as [|c cs Hc' _ IH]; intros e; simpl; [done|].
      destruct (eu c); [|done]. rewrite bind_ok.
      destruct (comprehension eu cs) as [|e']; [done|].
      rewrite bind_err. intros _. by eapply IH. }
  rewrite bind_ok. apply comprehension_Forall2 in Hc.
  destruct (py_max utilities) as [best|e] eqn:Hmax.
  2:{ destruct Hc; [done|discriminate]. }
  rewrite bind_ok. apply py_max_spec in Hmax as [Hin Hmax].
  assert (Hle : Forall (λ c, ∃ u, eu c = Ok u ∧ u <= best) possible_local_max).
  { clear Hin Hne Hok. induction Hc as [|c u cs us Hcu _ IH]; [constructor|].
    apply Forall_cons in Hmax as [Hu Hmax].
    constructor; [by exists u|by apply IH]. }
  destruct (for_each _ allocations possible_local_max) as [new|e] eqn:Hscan.
  2:{ exfalso. clear -Hok Hscan. revert allocations e Hscan.
      induction Hok as [|c cs Hc' _ IH]; intros a0 e; simpl; [done|].
      destruct (eu c); [|done]. rewrite bind_ok. apply IH. }
  apply last_match_spec in Hscan as [[_ Hnone]|Hsome].
  - exfalso. apply list_elem_of_lookup in Hin as [i Hi].
    destruct (Forall2_lookup_r _ _ _ _ _ Hc Hi) as (c & Hci & Hcu).
    eapply Forall_lookup in Hnone as (u & Hu & Hneq); [|done].
    rewrite Hcu in Hu. injection Hu as <-. by apply Hneq.
  - destruct Hsome as (pre & post & u & Heq & Hu & Hbest & Hpost).
    assert (Hpost' : Forall (λ c, ∃ u, eu c = Ok u ∧ u < best) post).
    { rewrite Heq in Hle. apply Forall_app in Hle as [_ Hle].
      apply Forall_cons in Hle as [_ Hle].
      apply Forall_forall. intros c Hcin.
      eapply Forall_forall in Hle as (v & Hv & Hvle); [|done].
      eapply Forall_forall in Hpost as (v' & Hv' & Hvne); [|done].
      rewrite Hv in Hv'. injection Hv' as <-.
      exists v. split; [done|]. apply Qle_lteq in Hvle as [Hlt|Heq']; done. }
    exists new, pre, post, u. split; [done|]. split; [done|].
    split; [done|]. split; [|].
    + eapply Forall_impl; [exact Hle|]. intros c (v & Hv & Hvle).
      exists v. split; [done|]. lra.
    + eapply Forall_impl; [exact Hpost'|]. intros c (v & Hv & Hvle).
      exists v. split; [done|]. lra.
Qed.

(** A round either cools down or moves to a candidate that improves. *)
Lemma hill_round_cases decay allocations time_switched st' :
  hill_round eu decay (allocations, time_switched) = Ok st' →
  (improving eu allocations time_switched = Ok []
   ∧ Num.truediv time_switched decay = Ok (snd st')
   ∧ fst st' = allocations)
  ∨ (∃ possible_local_max pre post best,
       improving eu allocations time_switched = Ok possible_local_max
       ∧ possible_local_max = pre ++ fst st' :: post
       ∧ snd st' = time_switched
       ∧ improves eu allocations time_switched (fst st')
       ∧ eu (fst st') = Ok best
       ∧ Forall (λ c, ∃ u, eu c = Ok u ∧ u <= best) possible_local_max
       ∧ Forall (λ c, ∃ u, eu c = Ok u ∧ u < best) post).
Proof.
  unfold hill_round.
  destruct (improving eu allocations time_switched) as [plm|e] eqn:Himp;
    [|discriminate].
  rewrite bind_ok. destruct plm as [|c plm].
  - destruct (Num.truediv time_switched decay) as [s|e]; [|discriminate].
    rewrite bind_ok. intros [= <-]. by left.
  - pose proof (improving_improves _ _ _ Himp) as Himps.
    destruct (select_spec allocations (c :: plm))
      as (new & pre & post & best & Hsel & Heq & Hbest & Hle & Hlt); [done|..].
    { eapply Forall_impl; [exact Himps|].
      intros x (_ & u & _ & _ & _ & -> & _). done. }
    rewrite Hsel, bind_ok. intros [= <-]. right.
    exists (c :: plm), pre, post, best. simpl.
    split; [done|]. split; [done|]. split; [done|].
    split; [|done].
    eapply Forall_forall in Himps; [exact Himps|].
    rewrite Heq. apply elem_of_app. right. left.
Qed.
End rounds.

(** ** The selection and the scores across rounds *)

(** C4, as the code has it: in a round whose list of improving candidates
    is not empty, the current best is replaced by a candidate of maximum
    expected utility among them, the step size is unchanged, and of the
    candidates that tie for the maximum it is the one encountered last in
    the enumeration that is kept: every candidate after it scores strictly
    less. *)
Theorem selection_keeps_last_maximum
    (self : ContractProgram) (decay : Q)
    (allocations : list TimeAllocation) (time_switched : Q)
    (possible_local_max : list (list TimeAllocation)) :
  improving (global_expected_utility self) allocations time_switched
  = Ok possible_local_max →
  possible_local_max ≠ [] →
  ∃ new pre post best,
    hill_round (global_expected_utility self) decay (allocations, time_switched)
    = Ok (new, time_switched)
    ∧ possible_local_max = pre ++ new :: post
    ∧ global_expected_utility self new = Ok best
    ∧ Forall (λ c, ∃ u, global_expected_utility self c = Ok u ∧ (u <= best)%Q)
        possible_local_max
    ∧ Forall (λ c, ∃ u, global_expected_utility self c = Ok u ∧ (u < best)%Q)
        post.
Proof.
  intros Himp Hne.
  destruct (hill_round (global_expected_utility self) decay
              (allocations, time_switched)) as [[new s]|e] eqn:Hround.
  - apply hill_round_cases in Hround as [(Hnil & _)|Hsome].
    + rewrite Himp in Hnil. by injection Hnil.
    + destruct Hsome as (plm & pre & post & best & Himp' & Heq & Hs & _ & Hbest
                         & Hle & Hlt).
      rewrite Himp in Himp'. injection Himp' as <-. simpl in *. subst s.
      by exists new, pre, post, best.
  - exfalso. unfold hill_round in Hround. rewrite Himp, bind_ok in Hround.
    destruct possible_local_max as [|c plm]; [done|].
    destruct (select_spec (global_expected_utility self) allocations (c :: plm))
      as (new & _ & _ & _ & Hsel & _); [done| |].
    + eapply Forall_impl; [by apply improving_improves|].
      intros x (_ & u & _ & _ & _ & -> & _). done.
    + by rewrite Hsel in Hround.
Qed.

Lemma selection_keeps_last_maximum_witness :
  ∃ new pre post best,
    hill_round (global_expected_utility Example.program) 2
      (Example.allocation 1 1, 1%Q)
    = Ok (new, 1%Q)
    ∧ [Example.allocation 0 2; Example.allocation 2 0] = pre ++ new :: post
    ∧ global_expected_utility Example.program new = Ok best
    ∧ Forall (λ c, ∃ u, global_expected_utility Example.program c = Ok u
                        ∧ (u <= best)%Q)
        [Example.allocation 0 2; Example.allocation 2 0]
    ∧ Forall (λ c, ∃ u, global_expected_utility Example.program c = Ok u
                        ∧ (u < best)%Q)
        post.
Proof.
  apply (selection_keeps_last_maximum Example.program 2
           (Example.allocation 1 1) 1
           [Example.allocation 0 2; Example.allocation 2 0]).
  - vm_compute. reflexivity.
  - discriminate.
Defined.

(** C4, as stated, fails: from (1, 1) with step 1 both (0, 2) and (2, 0)
    improve and tie at 0.75; (0, 2) is encountered first, and the round
    ends on (2, 0). *)
Lemma selection_first_tie_counterexample :
  improving (global_expected_utility Example.program)
    (Example.allocation 1 1) 1
  = Ok [Example.allocation 0 2; Example.allocation 2 0]
  ∧ global_expected_utility Example.program (Example.allocation 0 2)
    = Ok (3 # 4)
  ∧ global_expected_utility Example.program (Example.allocation 2 0)
    = Ok (3 # 4)
  ∧ hill_round (global_expected_utility Example.program) 2
      (Example.allocation 1 1, 1%Q)
    = Ok (Example.allocation 2 0, 1%Q)
  ∧ Example.allocation 2 0 ≠ Example.allocation 0 2.
Proof.
  repeat split; try (vm_compute; reflexivity). discriminate.
Qed.

(** The whole search on the example returns (2, 0) as well. *)
Example naive_hill_climbing_example :
  naive_hill_climbing Example.program 2 (1 # 2) 2
  = Some (Ok (Example.allocation 2 0)).
Proof. vm_compute. reflexivity. Qed.

Section trace.
Local Open Scope Q_scope.
Context (eu : list TimeAllocation → result Q).

Lemma hill_round_step decay a s st' :
  hill_round eu decay (a, s) = Ok st' → round_step eu a (fst st').
Proof.
  intros [(_ & _ & ->)|Hsome]%hill_round_cases; [by left|].
  destruct Hsome as (plm & pre & post & best & _ & _ & _ & Himp & _).
  destruct Himp as (_ & u & v & _ & _ & Hu & Hv & Hlt).
  right. by exists v, u.
Qed.

Lemma hill_trace_chain decay threshold n : ∀ st trace,
  hill_trace eu decay threshold n st = Ok trace →
  chain (round_step eu) (fst st) (fst <$> trace).
Proof.
  induction n as [|n IH]; intros [a s] trace; cbn [hill_trace snd fst].
  - by intros [= <-].
  - destruct (Num.gtb s threshold); [|by intros [= <-]].
    destruct (hill_round eu decay (a, s)) as [st'|e] eqn:Hround; [|discriminate].
    rewrite bind_ok.
    destruct (hill_trace eu decay threshold n st') as [rest|e] eqn:Hrest;
      [|discriminate].
    rewrite bind_ok. intros [= <-]. rewrite fmap_cons. cbn [chain].
    split; [by eapply hill_round_step|by apply IH].
Qed.

(** Along such a chain that starts with a score, every allocation has a
    score and the scores never decrease. *)
Lemma chain_scores a u : ∀ rest,
  eu a = Ok u →
  chain (round_step eu) a rest →
  ∃ us, comprehension eu (a :: rest) = Ok (u :: us)
        ∧ Sorted Qle (u :: us).
Proof.
  intros rest. revert a u.
  induction rest as [|a' rest IH]; intros a u Hu; simpl.
  - intros _. exists []. rewrite Hu. split; [done|]. repeat constructor.
  - intros [Hstep Hchain]. rewrite Hu, bind_ok.
    destruct Hstep as [->|(v & u' & Hv & Hu' & Hlt)].
    + destruct (IH a u Hu Hchain) as (us & Hc & Hs).
      simpl in Hc. rewrite Hu, bind_ok in Hc. rewrite Hu, bind_ok.
      destruct (comprehension eu rest) as [us'|]; [|discriminate].
      rewrite bind_ok in *. injection Hc as <-.
      exists (u :: us'). split; [done|].
      constructor; [done|]. constructor. lra.
    + rewrite Hu in Hv. injection Hv as <-.
      destruct (IH a' u' Hu' Hchain) as (us & Hc & Hs).
      simpl in Hc. rewrite Hu', bind_ok in Hc. rewrite Hu', bind_ok.
      destruct (comprehension eu rest) as [us'|]; [|discriminate].
      rewrite bind_ok in *. injection Hc as <-.
      exists (u' :: us'). split; [done|].
      constructor; [done|]. constructor. lra.
Qed.

Lemma hill_trace_S decay threshold n st :
  hill_trace eu decay threshold (S n) st
  = if Num.gtb (snd st) threshold then
      st' ← hill_round eu decay st;
      rest ← hill_trace eu decay threshold n st';
      Ok (st' :: rest)
    else Ok [].
Proof. reflexivity. Qed.

Lemma hill_loop_S decay threshold fuel st :
  hill_loop eu decay threshold (S fuel) st
  = if Num.gtb (snd st) threshold then
      match hill_round eu decay st with
      | Ok st' => hill_loop eu decay threshold fuel st'
      | Err e => Some (Err e)
      end
    else Some (Ok st).
Proof. reflexivity. Qed.

(** The loop returns the last state of its trace. *)
Lemma hill_loop_trace decay threshold fuel : ∀ st st',
  hill_loop eu decay threshold fuel st = Some (Ok st') →
  ∃ trace, hill_trace eu decay threshold (S fuel) st = Ok trace
           ∧ last (st :: trace) = Some st'.
Proof.
  induction fuel as [|fuel IH]; intros st st'; rewrite hill_trace_S.
  - simpl. destruct (Num.gtb (snd st) threshold); [done|].
    intros [= <-]. by exists [].
  - rewrite hill_loop_S. destruct (Num.gtb (snd st) threshold).
    2:{ intros [= <-]. by exists []. }
    destruct (hill_round eu decay st) as [st1|e]; [|done].
    intros (trace & Htrace & Hlast)%IH.
    rewrite bind_ok, Htrace, bind_ok. exists (st1 :: trace).
    split; [done|]. by rewrite last_cons_cons.
Qed.
End trace.

(** C2: take the allocations at the start of the search and at the end of
    each of its rounds.  From one to the next, the current best either
    stays or is replaced by an allocation of strictly higher expected
    utility; so, once the start has an expected utility, every one of them
    has, and these values never decrease.  A search that returns, returns
    the last of them. *)
Theorem hill_climbing_monotone
    (self : ContractProgram) (decay threshold : Q) (n : nat)
    (st : search_state) (trace : list search_state) :
  hill_trace (global_expected_utility self) decay threshold n st = Ok trace →
  chain (round_step (global_expected_utility self)) (fst st) (fst <$> trace)
  ∧ (∀ u, global_expected_utility self (fst st) = Ok u →
          ∃ us, comprehension (global_expected_utility self)
                  (fst st :: (fst <$> trace)) = Ok us
                ∧ StronglySorted Qle us)
  ∧ (∀ fuel st',
       S fuel = n →
       hill_loop (global_expected_utility self) decay threshold fuel st
       = Some (Ok st') →
       last (st :: trace) = Some st').
Proof.
  intros Htrace.
  pose proof (hill_trace_chain _ _ _ _ _ _ Htrace) as Hchain.
  split; [done|]. split.
  - intros u Hu.
    destruct (chain_scores _ _ _ _ Hu Hchain) as (us & Hc & Hs).
    exists (u :: us). split; [done|].
    apply Sorted_StronglySorted; [|done].
    intros x y z. apply Qle_trans.
  - intros fuel st' <- (trace' & Htrace' & Hlast)%hill_loop_trace.
    rewrite Htrace in Htrace'. by injection Htrace' as <-.
Qed.

Lemma hill_climbing_monotone_witness :
  chain (round_step (global_expected_utility Example.program))
    (Example.allocation 1 1)
    (fst <$> [(Example.allocation 2 0, 1%Q); (Example.allocation 2 0, 1 # 2)])
  ∧ (∀ u, global_expected_utility Example.program (Example.allocation 1 1) = Ok u →
          ∃ us, comprehension (global_expected_utility Example.program)
                  (Example.allocation 1 1
                   :: (fst <$> [(Example.allocation 2 0, 1%Q);
                                (Example.allocation 2 0, 1 # 2)])) = Ok us
                ∧ StronglySorted Qle us)
  ∧ (∀ fuel st',
       S fuel = 3%nat →
       hill_loop (global_expected_utility Example.program) 2 (1 # 2) fuel
         (Example.allocation 1 1, 1%Q)
       = Some (Ok st') →
       last ((Example.allocation 1 1, 1%Q)
             :: [(Example.allocation 2 0, 1%Q); (Example.allocation 2 0, 1 # 2)])
       = Some st').
Proof.
  apply (hill_climbing_monotone Example.program 2 (1 # 2) 3
           (Example.allocation 1 1, 1%Q)).
  vm_compute. reflexivity.
Defined.

(** The scores of the example: 0.5 at the start, then 0.75 twice. *)
Example hill_climbing_scores :
  comprehension (global_expected_utility Example.program)
    [Example.allocation 1 1; Example.allocation 2 0; Example.allocation 2 0]
  = Ok [1 # 2; 3 # 4; 3 # 4].
Proof. vm_compute. reflexivity. Qed.

(** ** Termination of the search on exact numbers *)

Module LatticeFacts.
Import Lattice.
Local Open Scope Q_scope.

Lemma pow_pos d n : 0 < d → 0 < pow d n.
Proof.
  intros Hd. induction n as [|n IH]; simpl; [lra|].
  apply Qmult_lt_0_compat; done.
Qed.

(** Bernoulli's inequality. *)
Lemma pow_linear d n : 1 <= d → 1 + Num.of_nat n * (d - 1) <= pow d n.
Proof.
  intros Hd. induction n as [|n IH].
  - unfold Num.of_nat. change (inject_Z (Z.of_nat 0)) with 0. cbn [pow]. lra.
  - cbn [pow]. unfold Num.of_nat in *.
    rewrite Nat2Z.inj_succ, <- Z.add_1_r, inject_Z_plus in *.
    change (inject_Z 1) with 1.
    set (x := inject_Z (Z.of_nat n)) in *.
    assert (0 <= x).
    { subst x. change 0 with (inject_Z 0). rewrite <- Zle_Qle. lia. }
    set (p := pow d n) in *.
    assert (0 <= x * (d - 1)) by (apply Qmult_le_0_compat; lra).
    assert (0 <= (d - 1) * (x * (d - 1))) by (apply Qmult_le_0_compat; lra).
    assert (0 <= (d - 1) * (p - (1 + x * (d - 1))))
      by (apply Qmult_le_0_compat; lra).
    lra.
Qed.

(** Dividing by a factor above 1 often enough brings any step under
    any positive threshold. *)
Lemma cooling_reaches s threshold d :
  1 < d → 0 < threshold → ∃ n, s <= threshold * pow d n.
Proof.
  intros Hd Ht.
  set (x := s / (threshold * (d - 1))).
  exists (Z.to_nat (Qceiling x)).
  assert (Hx : x * (threshold * (d - 1)) == s).
  { subst x. field. split; lra. }
  assert (Hn : x <= Num.of_nat (Z.to_nat (Qceiling x))).
  { eapply Qle_trans; [apply Qle_ceiling|]. unfold Num.of_nat.
    rewrite <- Zle_Qle. lia. }
  pose proof (pow_linear d (Z.to_nat (Qceiling x))) as Hpow.
  set (n := Num.of_nat (Z.to_nat (Qceiling x))) in *.
  set (p := pow d (Z.to_nat (Qceiling x))) in *.
  assert (Hp : 1 + n * (d - 1) <= p) by (apply Hpow; lra).
  assert (Hnx : x * (threshold * (d - 1)) <= n * (threshold * (d - 1))).
  { apply Qmult_le_compat_r; [done|]. apply Qlt_le_weak.
    apply Qmult_lt_0_compat; lra. }
  assert (threshold * (1 + n * (d - 1)) <= threshold * p).
  { apply Qmult_le_l; done. }
  lra.
Qed.

(** Filtering by a weaker test that also loses an element. *)
Lemma filter_length_lt {A} (f g : A → bool) (x0 : A) (l : list A) :
  (∀ x, f x = true → g x = true) →
  x0 ∈ l → g x0 = true → f x0 = false →
  (length (List.filter f l) < length (List.filter g l))%nat.
Proof.
  intros Hfg Hin Hg Hf.
  assert (Hle : ∀ l', (length (List.filter f l') <= length (List.filter g l'))%nat).
  { induction l' as [|x l' IH]; simpl; [lia|].
    destruct (f x) eqn:Hfx.
    - rewrite (Hfg x Hfx). simpl. lia.
    - destruct (g x); simpl; lia. }
  induction l as [|x l IH]; [by apply elem_of_nil in Hin|].
  apply elem_of_cons in Hin as [<-|Hin]; simpl.
  - rewrite Hf, Hg. simpl. specialize (Hle l). lia.
  - specialize (IH Hin). destruct (f x) eqn:Hfx.
    + rewrite (Hfg x Hfx). simpl. lia.
    + destruct (g x); simpl; lia.
Qed.

Lemma total_app xs ys : Num.total (xs ++ ys) == Num.total xs + Num.total ys.
Proof.
  unfold Num.total. induction xs as [|x xs IH]; simpl; [ring|].
  rewrite IH. ring.
Qed.

(** The sum after one entry is replaced. *)
Lemma total_insert (a : list TimeAllocation) i x y :
  a !! i = Some x →
  Num.total (time <$> <[i := y]> a)
  == Num.total (time <$> a) - time x + time y.
Proof.
  unfold Num.total. revert i. induction a as [|z a IH]; intros i; [done|].
  destruct i as [|i]; rewrite !fmap_cons; cbn [insert list_insert foldr].
  - intros [= ->]. rewrite fmap_cons. cbn [foldr].
    set (F := foldr _ _ _). ring.
  - intros Hi. rewrite fmap_cons. cbn [foldr]. rewrite (IH i Hi).
    set (F := foldr _ _ _). ring.
Qed.

(** A term of a sum of terms that are not negative is at most the
    sum. *)
Lemma term_le_total ds i d :
  Forall (λ d, 0 <= d) ds → ds !! i = Some d → d <= Num.total ds.
Proof.
  unfold Num.total. intros Hpos. revert i.
  assert (Htot : ∀ ds, Forall (λ d, 0 <= d) ds → 0 <= foldr Qplus 0 ds).
  { induction 1; simpl; lra. }
  induction Hpos as [|d' ds Hd' Hpos IH]; intros i; [done|].
  destruct i as [|i]; simpl.
  - intros [= ->]. specialize (Htot ds Hpos). lra.
  - intros Hi. specialize (IH i Hi). lra.
Qed.

Lemma floor_of_le x0 : floor_of x0 <= time x0 ∧ floor_of x0 <= 0.
Proof.
  unfold floor_of. destruct (Qle_bool 0 (time x0)) eqn:H.
  - apply Qle_bool_iff in H. lra.
  - assert (¬ 0 <= time x0) by (rewrite <- Qle_bool_iff; congruence).
    split; lra.
Qed.
End LatticeFacts.

Module SearchFacts.
Import Lattice LatticeFacts.
Local Open Scope Q_scope.

Lemma entry_inv_refl s x : entry_inv s x x.
Proof.
  split; [done|]. split; [by left|]. split.
  - exists 0%Z. change (inject_Z 0) with 0. ring.
  - apply floor_of_le.
Qed.

Lemma inv_refl s a : inv s a a.
Proof.
  split; [|reflexivity].
  induction a; constructor; auto using entry_inv_refl.
Qed.

(** An entry after time is taken from it, or given to it. *)
Lemma entry_inv_sub s x0 x :
  entry_inv s x0 x → 0 <= time x - s →
  entry_inv s x0 (set_time x (Num.sub (time x) s)).
Proof.
  intros (Hid & _ & [k Hk] & Hfloor) Hpos. split; [done|]. simpl.
  split; [right; symmetry; apply Qred_complete, Qred_correct|].
  split.
  - exists (k - 1)%Z. rewrite NumFacts.sub_eq, Hk.
    unfold Z.sub. rewrite inject_Z_plus, inject_Z_opp.
    change (inject_Z 1) with 1.
    set (q := inject_Z k). ring.
  - rewrite NumFacts.sub_eq. destruct (floor_of_le x0). lra.
Qed.

Lemma entry_inv_add s x0 x :
  entry_inv s x0 x → 0 < s →
  entry_inv s x0 (set_time x (Num.add (time x) s)).
Proof.
  intros (Hid & _ & [k Hk] & Hfloor) Hpos. split; [done|]. simpl.
  split; [right; symmetry; apply Qred_complete, Qred_correct|].
  split.
  - exists (k + 1)%Z. rewrite NumFacts.add_eq, Hk.
    rewrite inject_Z_plus. change (inject_Z 1) with 1.
    set (q := inject_Z k). ring.
  - rewrite NumFacts.add_eq. lra.
Qed.

(** A candidate keeps the invariant. *)
Lemma inv_adjust s a0 a permutation a' :
  0 < s → inv s a0 a →
  adjust a s permutation = Ok (Some a') →
  inv s a0 a'.
Proof.
  intros Hs [Hall Hsum]. destruct permutation as [p0 p1].
  intros (Hne & x & y & Hx & Hy & Hpos & ->)%adjust_Some.
  set (x' := set_time x (Num.sub (time x) s)).
  set (y' := set_time y (Num.add (time y) s)).
  split.
  - apply Forall2_same_length_lookup.
    apply Forall2_same_length_lookup in Hall as [Hlen Hall].
    split; [by rewrite !length_insert|].
    intros i z0 z Hz0.
    destruct (decide (i = node_id p1)) as [->|Hi1].
    { rewrite list_lookup_insert_eq
        by (rewrite length_insert; by eapply lookup_lt_Some).
      intros [= <-]. apply entry_inv_add; [|done]. by eapply Hall. }
    rewrite list_lookup_insert_ne by done.
    destruct (decide (i = node_id p0)) as [->|Hi0].
    { rewrite list_lookup_insert_eq by (by eapply lookup_lt_Some).
      intros [= <-]. apply entry_inv_sub; [|done]. by eapply Hall. }
    rewrite list_lookup_insert_ne by done. by apply Hall.
  - rewrite <- Hsum.
    rewrite (total_insert _ _ y) by by rewrite list_lookup_insert_ne.
    rewrite (total_insert _ _ x) by done.
    subst x' y'. simpl. rewrite NumFacts.sub_eq, NumFacts.add_eq.
    set (F := Num.total _). ring.
Qed.

(** The distances to the floors add up to the room. *)
Lemma distances_total (R : TimeAllocation → TimeAllocation → Prop) a0 a :
  Forall2 R a0 a →
  Num.total (zip_with (λ x0 x, time x - floor_of x0) a0 a)
  == Num.total (time <$> a) - Num.total (floor_of <$> a0).
Proof.
  unfold Num.total. induction 1 as [|x0 x a0 a _ _ IH].
  - simpl. ring.
  - rewrite !fmap_cons. cbn [zip_with foldr]. rewrite IH.
    set (F := foldr _ _ (time <$> a)). set (G := foldr _ _ (floor_of <$> a0)).
    ring.
Qed.

Lemma room_total a0 :
  room a0 == Num.total (time <$> a0) - Num.total (floor_of <$> a0).
Proof.
  unfold room, Num.total. induction a0 as [|x0 a0 IH].
  - simpl. ring.
  - rewrite !fmap_cons. cbn [foldr]. rewrite IH.
    set (F := foldr _ _ (time <$> a0)). set (G := foldr _ _ (floor_of <$> a0)).
    ring.
Qed.

Lemma room_term a0 i x0 :
  a0 !! i = Some x0 → time x0 - floor_of x0 <= room a0.
Proof.
  intros Hi. unfold room. eapply term_le_total.
  - apply Forall_fmap, Forall_forall. intros z _. simpl.
    destruct (floor_of_le z). lra.
  - by rewrite list_lookup_fmap, Hi.
Qed.

(** No entry is further from its floor than the room. *)
Lemma distance_le_room s a0 a i x0 x :
  inv s a0 a → a0 !! i = Some x0 → a !! i = Some x →
  time x - floor_of x0 <= room a0.
Proof.
  intros [Hall Hsum] Hx0 Hx.
  rewrite room_total, <- Hsum, <- (distances_total _ _ _ Hall).
  eapply term_le_total.
  - apply Forall_forall. intros d Hd.
    apply list_elem_of_lookup in Hd as [j Hj].
    apply lookup_zip_with_Some in Hj as (z0 & z & -> & Hz0 & Hz).
    destruct (Forall2_lookup_lr _ _ _ _ _ _ Hall Hz0 Hz) as (_ & _ & _ & Hf).
    lra.
  - apply lookup_zip_with_Some. by exists x0, x.
Qed.

Lemma box_member s n a0 a :
  Forall2 (λ x0 x, x ∈ entry_choices s n x0) a0 a → a ∈ box s n a0.
Proof.
  induction 1 as [|x0 x a0 a Hx _ IH]; cbn [box].
  - by left.
  - apply list_elem_of_bind. exists x. split; [|done].
    apply list_elem_of_bind. exists a. split; [by left|done].
Qed.

(** The allocations of a phase stay in its box. *)
Lemma inv_in_box s a0 a :
  0 < s → inv s a0 a → a ∈ box s (reach a0 s) a0.
Proof.
  intros Hs Hinv. apply box_member.
  pose proof Hinv as [Hall _].
  apply Forall2_same_length_lookup.
  split; [by eapply Forall2_length|].
  intros i x0 x Hx0 Hx.
  pose proof (distance_le_room _ _ _ _ _ _ Hinv Hx0 Hx) as Hup.
  pose proof (room_term _ _ _ Hx0) as Hdown.
  destruct (Forall2_lookup_lr _ _ _ _ _ _ Hall Hx0 Hx)
    as (Hid & Hnorm & [k Hk] & Hfloor).
  destruct x as [t id]. simpl in *. subst id.
  unfold entry_choices. apply list_elem_of_fmap.
  exists t. split; [done|].
  destruct Hnorm as [->|Hnorm]; [by left|]. right.
  apply list_elem_of_fmap. exists k. split.
  { rewrite Hnorm. by apply Qred_complete. }
  destruct (floor_of_le x0) as [Hf1 Hf2].
  assert (Hq : room a0 / s <= inject_Z (reach a0 s)) by apply Qle_ceiling.
  assert (Hk1 : inject_Z k * s <= room a0) by lra.
  assert (Hk2 : inject_Z (- k) * s <= room a0).
  { rewrite inject_Z_opp. lra. }
  assert (Hk1' : inject_Z k <= room a0 / s) by by apply Qle_shift_div_l.
  assert (Hk2' : inject_Z (- k) <= room a0 / s) by by apply Qle_shift_div_l.
  assert (Hle1 : (k <= reach a0 s)%Z) by (rewrite Zle_Qle; lra).
  assert (Hle2 : (- k <= reach a0 s)%Z) by (rewrite Zle_Qle; lra).
  apply elem_of_seqZ. lia.
Qed.

Section measure.
Context (eu : list TimeAllocation → result Q).

(** Moving to a higher score leaves fewer allocations ahead. *)
Lemma ahead_decreases s a0 a a' u v :
  0 < s → inv s a0 a' →
  eu a = Ok v → eu a' = Ok u → v < u →
  (ahead eu s a0 a' < ahead eu s a0 a)%nat.
Proof.
  intros Hs Hinv Hv Hu Hlt. unfold ahead.
  apply (filter_length_lt _ _ a').
  - intros c. unfold better. rewrite Hv, Hu.
    destruct (eu c) as [w|]; [|done].
    rewrite !NumFacts.ltb_true. lra.
  - by apply inv_in_box.
  - unfold better. rewrite Hv, Hu. by apply NumFacts.ltb_true.
  - unfold better. rewrite Hu. apply NumFacts.ltb_false. lra.
Qed.

Lemma for_each_err {A S} (body : S → A → result S) xs : ∀ s0 e,
  for_each body s0 xs = Err e → ∃ s x, x ∈ xs ∧ body s x = Err e.
Proof.
  induction xs as [|x xs IH]; intros s0 e; simpl; [done|].
  destruct (body s0 x) as [s1|e'] eqn:Hx.
  - rewrite bind_ok. intros (s & y & Hy & Hbody)%IH.
    exists s, y. split; [by right|done].
  - rewrite bind_err. intros [= ->]. exists s0, x. split; [by left|done].
Qed.

(** A round fails on a bad index or on a failing score only. *)
Lemma hill_round_err decay a s e :
  ¬ decay == 0 →
  hill_round eu decay (a, s) = Err e →
  e = IndexError ∨ ∃ c, eu c = Err e.
Proof.
  intros Hdecay. unfold hill_round.
  destruct (improving eu a s) as [plm|e'] eqn:Himp.
  - rewrite bind_ok. destruct plm as [|c plm].
    + rewrite NumFacts.truediv_ok by done. done.
    + destruct (select_spec eu a (c :: plm))
        as (new & _ & _ & _ & Hsel & _); [done| |].
      * eapply Forall_impl; [by apply improving_improves|].
        intros x (_ & u & _ & _ & _ & -> & _). done.
      * by rewrite Hsel.
  - rewrite bind_err. intros [= ->].
    apply for_each_err in Himp as (plm & [p0 p1] & _ & Hbody).
    unfold consider in Hbody.
    destruct (adjust a s (p0, p1)) as [[c|]|e'] eqn:Hadj;
      rewrite ?bind_ok, ?bind_err in Hbody; [|done|].
    + destruct (eu c) as [u|e'] eqn:Hu;
        rewrite ?bind_ok, ?bind_err in Hbody.
      * destruct (eu a) as [v|e'] eqn:Hv;
          rewrite ?bind_ok, ?bind_err in Hbody; [done|].
        injection Hbody as ->. right. by exists a.
      * injection Hbody as ->. right. by exists c.
    + injection Hbody as ->. left.
      unfold adjust, index in Hadj.
      destruct (node_id p0 =? node_id p1)%nat; [done|].
      destruct (a !! node_id p0) as [x|]; [|by injection Hadj].
      rewrite bind_ok in Hadj.
      destruct (Num.ltb _ 0); [done|].
      destruct (_ !! node_id p1); [done|by injection Hadj].
Qed.
End measure.
End SearchFacts.

Section termination.
Import Lattice LatticeFacts SearchFacts.
Local Open Scope Q_scope.
Context (eu : list TimeAllocation → result Q) (decay threshold : Q).

Lemma hill_loop_more_fuel fuel : ∀ st outcome fuel',
  hill_loop eu decay threshold fuel st = Some outcome →
  (fuel <= fuel')%nat →
  hill_loop eu decay threshold fuel' st = Some outcome.
Proof.
  induction fuel as [|fuel IH]; intros st outcome fuel' Hloop Hle.
  - destruct fuel' as [|fuel']; [done|].
    rewrite hill_loop_S. simpl in Hloop.
    by destruct (Num.gtb (snd st) threshold).
  - destruct fuel' as [|fuel']; [lia|].
    rewrite hill_loop_S in *.
    destruct (Num.gtb (snd st) threshold); [|done].
    destruct (hill_round eu decay st); [|done].
    apply IH; [done|lia].
Qed.

Lemma hill_loop_exit fuel : ∀ st st',
  hill_loop eu decay threshold fuel st = Some (Ok st') →
  snd st' <= threshold.
Proof.
  induction fuel as [|fuel IH]; intros st st'.
  - simpl. destruct (Num.gtb (snd st) threshold) eqn:Hgt; [done|].
    intros [= <-]. by apply NumFacts.gtb_false.
  - rewrite hill_loop_S.
    destruct (Num.gtb (snd st) threshold) eqn:Hgt.
    + destruct (hill_round eu decay st); [apply IH|done].
    + intros [= <-]. by apply NumFacts.gtb_false.
Qed.

Context (Hdecay : 1 < decay) (Hthreshold : 0 < threshold).

(** From a state of a phase, what one round leads to. *)
Lemma round_progress s a0 a :
  threshold < s → inv s a0 a →
  (∃ e, hill_round eu decay (a, s) = Err e ∧ sound_outcome eu threshold (Err e))
  ∨ (∃ s', hill_round eu decay (a, s) = Ok (a, s') ∧ s' == s / decay)
  ∨ (∃ a', hill_round eu decay (a, s) = Ok (a', s)
           ∧ inv s a0 a'
           ∧ (ahead eu s a0 a' < ahead eu s a0 a)%nat).
Proof.
  intros Hs Hinv.
  destruct (hill_round eu decay (a, s)) as [[a' s']|e] eqn:Hround.
  - right.
    apply hill_round_cases in Hround as [(_ & Hdiv & Ha)|Hsome];
      simpl in *.
    + left. subst a'. exists s'. split; [done|].
      rewrite NumFacts.truediv_ok in Hdiv by lra.
      injection Hdiv as <-. apply Qred_correct.
    + right.
      destruct Hsome as (_ & _ & _ & _ & _ & _ & -> & Himp & _).
      destruct Himp as (permutation & u & v & _ & Hadj & Hu & Hv & Hlt).
      assert (Hinv' : inv s a0 a') by (eapply inv_adjust; [lra|done..]).
      exists a'. split; [done|]. split; [done|].
      eapply ahead_decreases; [lra|done..].
  - left. exists e. split; [done|].
    eapply hill_round_err; [|done]. lra.
Qed.

(** The loop ends from every state of every phase. *)
Lemma phase_terminates n : ∀ s,
  s <= threshold * pow decay n →
  ∀ m a0 a,
    inv s a0 a → (ahead eu s a0 a <= m)%nat →
    ∃ fuel outcome,
      hill_loop eu decay threshold fuel (a, s) = Some outcome
      ∧ sound_outcome eu threshold outcome.
Proof.
  assert (Hstop : ∀ s a, s <= threshold →
    ∃ fuel outcome,
      hill_loop eu decay threshold fuel (a, s) = Some outcome
      ∧ sound_outcome eu threshold outcome).
  { intros s a Hs. exists 0%nat, (Ok (a, s)). simpl.
    pose proof Hs as Hb. apply NumFacts.gtb_false in Hb. by rewrite Hb. }
  induction n as [|n IHn]; intros s Hpow.
  { intros m a0 a _ _. apply Hstop. simpl in Hpow. lra. }
  assert (Hround : ∀ m,
    (∀ a0 a, inv s a0 a → (ahead eu s a0 a < m)%nat →
       ∃ fuel outcome,
         hill_loop eu decay threshold fuel (a, s) = Some outcome
         ∧ sound_outcome eu threshold outcome) →
    ∀ a0 a, inv s a0 a → (ahead eu s a0 a <= m)%nat →
      ∃ fuel outcome,
        hill_loop eu decay threshold fuel (a, s) = Some outcome
        ∧ sound_outcome eu threshold outcome).
  { intros m IHm a0 a Hinv Hahead.
    destruct (Qlt_le_dec threshold s) as [Hs|Hs]; [|by apply Hstop].
    assert (Hgt : Num.gtb s threshold = true) by by apply NumFacts.gtb_true.
    destruct (round_progress s a0 a Hs Hinv)
      as [(e & Hr & Hsound)|[(s' & Hr & Hs')|(a' & Hr & Hinv' & Hlt)]].
    - exists 1%nat, (Err e). rewrite hill_loop_S. cbn [snd].
      by rewrite Hgt, Hr.
    - destruct (IHn s') with (m := ahead eu s' a a) (a0 := a) (a := a)
        as (fuel & outcome & Hloop & Hsound).
      + rewrite Hs'. apply Qle_shift_div_r; [lra|].
        cbn [pow] in Hpow. lra.
      + apply inv_refl.
      + done.
      + exists (S fuel), outcome. rewrite hill_loop_S. cbn [snd].
        by rewrite Hgt, Hr.
    - destruct (IHm a0 a' Hinv') as (fuel & outcome & Hloop & Hsound);
        [lia|].
      exists (S fuel), outcome. rewrite hill_loop_S. cbn [snd].
      by rewrite Hgt, Hr. }
  induction m as [|m IHm].
  - apply Hround. intros a0 a _ Hlt. lia.
  - apply Hround. intros a0 a Hinv Hlt. apply (IHm a0 a Hinv). lia.
Qed.

(** The search ends from every state. *)
Lemma hill_loop_terminates st :
  ∃ fuel outcome,
    hill_loop eu decay threshold fuel st = Some outcome
    ∧ sound_outcome eu threshold outcome.
Proof.
  destruct st as [a s].
  destruct (cooling_reaches s threshold decay Hdecay Hthreshold) as [n Hn].
  eapply (phase_terminates n s Hn _ a a); [apply inv_refl|done].
Qed.
End termination.

(** On exact numbers every decay above 1 brings the step to any
    threshold above 0, and at a fixed step the allocations stay on a
    finite lattice: the search ends after finitely many rounds.  (On
    binary64 the divisions of the step can stall; see
    [naive_hill_climbing_terminates_binary64].) *)
Theorem exact_search_terminates
    (self : ContractProgram) (decay threshold : Q) :
  (1 < decay)%Q → (0 < threshold)%Q →
  ∃ fuel outcome,
    naive_hill_climbing_state self decay threshold fuel = Some outcome
    ∧ naive_hill_climbing self decay threshold fuel = Some (fst <$> outcome)
    ∧ (∀ fuel', (fuel <= fuel')%nat →
         naive_hill_climbing_state self decay threshold fuel' = Some outcome)
    ∧ (∀ allocations time_switched,
         outcome = Ok (allocations, time_switched) →
         (time_switched <= threshold)%Q)
    ∧ (∀ e, outcome = Err e →
         (order (dag self) = 0%nat ∧ e = ZeroDivisionError)
         ∨ e = IndexError
         ∨ ∃ c, global_expected_utility self c = Err e)
    ∧ (∀ n st,
         (snd st <= threshold)%Q →
         hill_loop (global_expected_utility self) decay threshold n st
         = Some (Ok st))
    ∧ (∀ n st st',
         hill_loop (global_expected_utility self) decay threshold n st
         = Some (Ok st') →
         (snd st' <= threshold)%Q).
Proof.
  intros Hdecay Hthreshold.
  assert (Hexit : ∀ n st,
    (snd st <= threshold)%Q →
    hill_loop (global_expected_utility self) decay threshold n st
    = Some (Ok st)).
  { intros n st Hst. apply NumFacts.gtb_false in Hst.
    destruct n; simpl; by rewrite Hst. }
  unfold naive_hill_climbing, naive_hill_climbing_state.
  destruct (Num.truediv (budget self) (Num.of_nat (order (dag self))))
    as [allocation|e] eqn:Hdiv.
  - destruct (hill_loop_terminates (global_expected_utility self) decay
                threshold Hdecay Hthreshold (allocations self, allocation))
      as (fuel & outcome & Hloop & Hsound).
    exists fuel, outcome. rewrite Hloop.
    split; [done|]. split; [done|].
    split; [intros fuel' Hle; by eapply hill_loop_more_fuel|].
    split; [by intros a s ->|].
    split; [intros e ->; right; exact Hsound|].
    split; [done|]. apply hill_loop_exit.
  - exists 0%nat, (Err e).
    split; [done|]. split; [done|]. split; [done|].
    split; [done|]. split; [|split; [done|apply hill_loop_exit]].
    intros e' [= <-]. left.
    pose proof (NumFacts.truediv_err _ _ _ Hdiv) as ->. split; [|done].
    unfold Num.truediv in Hdiv.
    destruct (Num.eqb (Num.of_nat (order (dag self))) 0) eqn:Hz; [|done].
    apply NumFacts.eqb_true in Hz. unfold Num.of_nat in Hz.
    destruct (order (dag self)); [done|].
    exfalso. unfold Qeq in Hz. simpl in Hz. lia.
Qed.

(** On the example the search returns after two rounds, with the default
    decay and threshold after 39. *)
Example naive_hill_climbing_default :
  naive_hill_climbing_state Example.program 2 (1 # 2) 2
  = Some (Ok (Example.allocation 2 0, 1 # 2))
  ∧ naive_hill_climbing Example.program (6 # 5) (1 # 1000) 38 = None
  ∧ naive_hill_climbing Example.program (6 # 5) (1 # 1000) 39
    = Some (Ok (Example.allocation 2 0)).
Proof. repeat split; vm_compute; reflexivity. Qed.

(** ** The interval of times read *)

Section interval_facts.
Local Open Scope Q_scope.

(** [numpy.arange] stops before [stop]. *)
Lemma np_arange_half_open start stop step ts :
  0 < step →
  Num.np_arange start stop step = Ok ts →
  Forall (λ t, start <= t ∧ t < stop) ts.
Proof.
  intros Hstep. unfold Num.np_arange.
  rewrite NumFacts.truediv_ok by lra. rewrite bind_ok. intros [= <-].
  apply Forall_fmap, Forall_forall. intros i Hi. simpl.
  apply elem_of_seq in Hi as [_ Hi]. simpl in Hi.
  rewrite NumFacts.add_eq.
  set (x := (stop - start) / step) in *.
  assert (Hx : x * step == stop - start) by (subst x; field; lra).
  assert (Hi0 : 0 <= Num.of_nat i).
  { unfold Num.of_nat. change 0 with (inject_Z 0). rewrite <- Zle_Qle. lia. }
  assert (Hix : Num.of_nat i < x).
  { eapply Qle_lt_trans; [|apply Qceiling_lt].
    rewrite Qred_correct in Hi. unfold Num.of_nat. rewrite <- Zle_Qle. lia. }
  assert (0 <= Num.of_nat i * step) by (apply Qmult_le_0_compat; lra).
  assert (Num.of_nat i * step < x * step) by (apply Qmult_lt_r; lra).
  split; lra.
Qed.

(** At the time limit the interval read ends at the limit or before
    it. *)
Lemma interval_bounds_at_limit (self : PerformanceProfile) start_step end_step :
  0 < time_interval self →
  interval_bounds self (time_limit self) = Ok (start_step, end_step) →
  end_step == start_step + time_interval self
  ∧ end_step <= time_limit self.
Proof.
  intros Hti. unfold interval_bounds.
  rewrite !NumFacts.floordiv_ok by lra. rewrite !bind_ok.
  assert (Heq : Num.eqb (time_limit self) (time_limit self) = true)
    by by apply NumFacts.eqb_true.
  rewrite Heq.
  set (x := Num.sub (time_limit self) (time_interval self) / time_interval self).
  set (f := inject_Z (Qfloor x)).
  intros Hpair.
  assert (start_step = Num.mul f (time_interval self)) as -> by congruence.
  assert (end_step
          = Num.add (Num.mul f (time_interval self)) (time_interval self))
    as -> by congruence.
  rewrite NumFacts.add_eq. split; [reflexivity|].
  rewrite NumFacts.mul_eq.
  assert (Hx : x * time_interval self
               == time_limit self - time_interval self).
  { subst x. rewrite NumFacts.sub_eq. field. lra. }
  pose proof (Qfloor_le x) as Hfloor. fold f in Hfloor.
  assert (f * time_interval self <= x * time_interval self)
    by (apply Qmult_le_compat_r; lra).
  lra.
Qed.
End interval_facts.

(** C1: at the time limit of the example (2 seconds, slots of one second,
    steps of 0.1) the keys read are "1.0" to "1.9": the samples recorded
    at the key "2.0" of the limit itself, [0.75], are not in the returned
    sequence; and in every profile with a positive interval and step the
    times enumerated at the limit lie in [start_step, end_step), at or
    under the limit, which excludes the limit. *)
Theorem quality_samples_at_limit :
  time_limit Example.program = 2%Q
  ∧ (∃ entries,
       node_qualities Example.file 0 = Ok (Dict entries)
       ∧ entries !! "2.0"%string = Some (Samples [3 # 4]))
  ∧ interval_keys Example.program 2
    = Ok ["1.0"; "1.1"; "1.2"; "1.3"; "1.4"; "1.5"; "1.6"; "1.7"; "1.8"; "1.9"]%string
  ∧ query_quality_list_on_interval Example.program 2 0 (VList [])
    = Ok [1 # 4; 1 # 4; 1 # 4; 1 # 4; 1 # 4; 1 # 4; 1 # 4; 1 # 4; 1 # 4; 1 # 4]
  ∧ (∀ (self : PerformanceProfile) start_step end_step ts,
       (0 < time_interval self)%Q → (0 < time_step_size self)%Q →
       interval_bounds self (time_limit self) = Ok (start_step, end_step) →
       Num.np_arange start_step end_step (time_step_size self) = Ok ts →
       Forall (λ t, start_step <= t ∧ t < end_step ∧ t < time_limit self)%Q ts).
Proof.
  split; [reflexivity|].
  split.
  { eexists. split; vm_compute; reflexivity. }
  split; [vm_compute; reflexivity|].
  split; [vm_compute; reflexivity|].
  intros self start_step end_step ts Hti Hstep Hbounds Hts.
  apply interval_bounds_at_limit in Hbounds as [_ Hend]; [|done].
  eapply Forall_impl; [by eapply np_arange_half_open|].
  simpl. intros t [H1 H2]. repeat split; [done..|].
  eapply Qlt_le_trans; done.
Qed.

(** * Properties on binary64 *)

Module FloatFacts.
Import PrimFloat SpecFloat FloatOps FloatAxioms.
Import Float64 Float64Spec.

Lemma digits2_pos_bound m : Z.pos m < 2 ^ Z.pos (digits2_pos m).
Proof.
  induction m as [m IH|m IH|]; cbn [digits2_pos];
    rewrite ?Pos2Z.inj_succ, ?Z.pow_succ_r by lia; lia.
Qed.

(** The exponent and the mantissa of a finite float. *)
Lemma finite_bounds x s m e :
  Prim2SF x = S754_finite s m e → -1074 <= e <= 971 ∧ Z.pos m < 2 ^ 53.
Proof.
  intros Hx. pose proof (Prim2SF_valid x) as Hvalid. rewrite Hx in Hvalid.
  unfold SpecFloat.valid_binary, bounded, canonical_mantissa, fexp, emin in Hvalid.
  change prec with 53 in Hvalid. change emax with 1024 in Hvalid.
  apply andb_prop in Hvalid as [Hcanon Hmax].
  apply Z.eqb_eq in Hcanon. apply Z.leb_le in Hmax.
  pose proof (digits2_pos_bound m) as Hm.
  assert (Hd : Z.pos (digits2_pos m) <= 53) by lia.
  split; [lia|].
  eapply Z.lt_le_trans; [exact Hm|]. apply Z.pow_le_mono_r; lia.
Qed.

Lemma rank_finite x s m e :
  Prim2SF x = S754_finite s m e →
  let r := (e + 1075) * 2 ^ 53 + Z.pos m in
  0 < r < 2 ^ 64 ∧ rank x = if s then - r else r.
Proof.
  intros Hx r. pose proof (finite_bounds x s m e Hx) as [He Hm].
  split; [|unfold rank; by rewrite Hx].
  subst r. change (2 ^ 64) with (2048 * 2 ^ 53). nia.
Qed.

Lemma rank_bounds x : - 2 ^ 65 <= rank x <= 2 ^ 65.
Proof.
  destruct (Prim2SF x) as [s|s| |s m e] eqn:Hx.
  - unfold rank. rewrite Hx. lia.
  - unfold rank. rewrite Hx. destruct s; lia.
  - unfold rank. rewrite Hx. lia.
  - destruct (rank_finite x s m e Hx) as [Hr ->].
    change (2 ^ 65) with (2 * 2 ^ 64). destruct s; lia.
Qed.

(** A float below another one has a lower rank. *)
Lemma ltb_rank x y : PrimFloat.ltb x y = true → rank x < rank y.
Proof.
  rewrite ltb_spec. unfold SFltb.
  destruct (Prim2SF x) as [sx|sx| |sx mx ex] eqn:Hx;
    destruct (Prim2SF y) as [sy|sy| |sy my ey] eqn:Hy;
    try discriminate;
    try (pose proof (rank_finite x _ _ _ Hx) as [Hrx Hx']; rewrite Hx';
         cbv zeta in Hrx);
    try (pose proof (rank_finite y _ _ _ Hy) as [Hry Hy']; rewrite Hy';
         cbv zeta in Hry);
    try (unfold rank at 1; rewrite Hx);
    try (unfold rank; rewrite Hy);
    change (2 ^ 65) with (2 * 2 ^ 64) in *;
    cbn [SFcompare].
  all: try destruct sx; try destruct sy; try discriminate; try (intros _; lia).
  all: pose proof (finite_bounds x _ _ _ Hx) as [_ Hmx];
    pose proof (finite_bounds y _ _ _ Hy) as [_ Hmy];
    change (PosDef.Pos.compare_cont Eq mx my) with (mx ?= my)%positive;
    destruct (Z.compare_spec ex ey) as [->|Hlt|Hgt];
    try destruct (Pos.compare_spec mx my) as [->|Hlt'|Hgt'];
    cbn [CompOpp]; try discriminate; intros _; nia.
Qed.

(** A float that is above or below a float equals itself. *)
Lemma eqb_refl_of_ltb x y : PrimFloat.ltb x y = true → PrimFloat.eqb y y = true.
Proof.
  rewrite ltb_spec, eqb_spec. unfold SFltb, SFeqb.
  destruct (Prim2SF y) as [sy|sy| |sy my ey];
    [done|by destruct sy| |].
  - by destruct (Prim2SF x).
  - intros _. cbn [SFcompare].
    rewrite Z.compare_refl.
    change (Pos.compare_cont Eq my my) with (my ?= my)%positive.
    rewrite Pos.compare_refl. by destruct sy.
Qed.

Lemma headroom_lt u v :
  PrimFloat.ltb v u = true → (headroom (Ok u) < headroom (Ok v))%nat.
Proof.
  intros Hlt%ltb_rank. unfold headroom.
  pose proof (rank_bounds u). pose proof (rank_bounds v). lia.
Qed.
End FloatFacts.


(** ** The search on binary64 *)

Section float_rounds.
Import PrimFloat.
Import Float64 Float64Spec.
Context (eu : list TimeAllocation → result float).

(** Every candidate that is kept scored above the allocations. *)
Lemma float_improving_spec allocations time_switched possible_local_max :
  improving eu allocations time_switched = Ok possible_local_max →
  Forall (λ c, ∃ u v, eu c = Ok u ∧ eu allocations = Ok v
                      ∧ PrimFloat.ltb v u = true) possible_local_max.
Proof.
  unfold improving. apply for_each_invariant; [|constructor].
  intros plm permutation plm' _ Hplm. unfold consider.
  destruct (adjust allocations time_switched permutation)
    as [[candidate|]|e]; rewrite ?bind_ok; [|by intros [= <-]|done].
  destruct (eu candidate) as [u|e] eqn:Hu; [|done]. rewrite bind_ok.
  destruct (eu allocations) as [v|e] eqn:Hv; [|done]. rewrite bind_ok.
  destruct (gtb u v) eqn:Hgt; intros [= <-]; [|done].
  apply Forall_app. split; [done|]. constructor; [|constructor].
  by exists u, v.
Qed.

Lemma float_py_max_in xs m : py_max xs = Ok m → m ∈ xs.
Proof.
  destruct xs as [|x xs]; [discriminate|]. simpl. intros [= <-].
  assert (H : ∀ ys m0,
    let m := fold_left (λ m y, if gtb y m then y else m) ys m0 in
    m = m0 ∨ m ∈ ys).
  { induction ys as [|y ys IH]; intros m0; simpl; [by left|].
    destruct (IH (if gtb y m0 then y else m0)) as [->|Hin].
    - destruct (gtb y m0); [right; left|by left].
    - right. by right. }
  destruct (H xs x) as [->|Hin]; [left|by right].
Qed.

(** The scan of lines 175-178 stays on the allocations when no
    candidate scores [best], and ends on a candidate otherwise. *)
Lemma float_scan_spec best xs : ∀ a0 a,
  for_each
    (λ allocations j,
       u ← eu j; Ok (if PrimFloat.eqb u best then j else allocations))
    a0 xs = Ok a →
  (a = a0 ∧ Forall (λ c, ∃ u, eu c = Ok u ∧ PrimFloat.eqb u best = false) xs)
  ∨ a ∈ xs.
Proof.
  induction xs as [|x xs IH]; intros a0 a; simpl.
  - intros [= <-]. left. split; [done|constructor].
  - destruct (eu x) as [u|e] eqn:Hu; [|discriminate]. rewrite bind_ok.
    intros Hrest. apply IH in Hrest as [[-> Hnone]|Hin]; [|right; by right].
    destruct (PrimFloat.eqb u best) eqn:Heq; [right; left|].
    left. split; [done|]. constructor; [by exists u|done].
Qed.

(** Among candidates that all have a score that equals itself, the
    selection ends on one of them. *)
Lemma float_select_in allocations possible_local_max :
  possible_local_max ≠ [] →
  Forall (λ c, ∃ u, eu c = Ok u ∧ PrimFloat.eqb u u = true)
    possible_local_max →
  ∃ new, select eu allocations possible_local_max = Ok new
         ∧ new ∈ possible_local_max.
Proof.
  intros Hne Hok. unfold select.
  destruct (comprehension eu possible_local_max) as [utilities|e] eqn:Hc.
  2:{ exfalso. clear Hne. revert e Hc.
      induction Hok as [|c cs (u & Hu & _) _ IH]; intros e; simpl; [done|].
      rewrite Hu, bind_ok.
      destruct (comprehension eu cs) as [|e']; [done|].
      rewrite bind_err. intros _. by eapply IH. }
  rewrite bind_ok. apply comprehension_Forall2 in Hc.
  destruct (py_max utilities) as [best|e] eqn:Hmax.
  2:{ destruct Hc; [done|discriminate]. }
  rewrite bind_ok. apply float_py_max_in in Hmax.
  destruct (for_each _ allocations possible_local_max) as [new|e] eqn:Hscan.
  2:{ exfalso. clear -Hok Hscan. revert allocations e Hscan.
      induction Hok as [|c cs (u & Hu & _) _ IH]; intros a0 e; simpl; [done|].
      rewrite Hu, bind_ok. apply IH. }
  exists new. split; [done|].
  apply float_scan_spec in Hscan as [[_ Hnone]|Hin]; [exfalso|done].
  apply list_elem_of_lookup in Hmax as [i Hi].
  destruct (Forall2_lookup_r _ _ _ _ _ Hc Hi) as (c & Hci & Hcu).
  pose proof (Forall_lookup_1 _ _ _ _ Hnone Hci) as (u & Hu & Hneq).
  pose proof (Forall_lookup_1 _ _ _ _ Hok Hci) as (u' & Hu' & Heq).
  congruence.
Qed.

(** A round either divides the step or moves to allocations that score
    above the current ones. *)
Lemma float_round_cases decay allocations time_switched st' :
  hill_round eu decay (allocations, time_switched) = Ok st' →
  (improving eu allocations time_switched = Ok []
   ∧ PrimFloat.eqb decay zero = false
   ∧ snd st' = PrimFloat.div time_switched decay
   ∧ fst st' = allocations)
  ∨ (snd st' = time_switched
     ∧ ∃ u v, eu (fst st') = Ok u ∧ eu allocations = Ok v
              ∧ PrimFloat.ltb v u = true).
Proof.
  unfold hill_round.
  destruct (improving eu allocations time_switched) as [plm|e] eqn:Himp;
    [|discriminate].
  rewrite bind_ok. destruct plm as [|c plm].
  - unfold Binary64.truediv.
    destruct (PrimFloat.eqb decay zero); [discriminate|].
    rewrite bind_ok. intros [= <-]. by left.
  - pose proof (float_improving_spec _ _ _ Himp) as Himps.
    destruct (float_select_in allocations (c :: plm))
      as (new & Hsel & Hin); [done|..].
    { eapply Forall_impl; [exact Himps|].
      intros x (u & v & Hu & _ & Hlt). exists u. split; [done|].
      by eapply FloatFacts.eqb_refl_of_ltb. }
    rewrite Hsel, bind_ok. intros [= <-]. right. split; [done|].
    by apply (proj1 (Forall_forall _ _) Himps).
Qed.

(** A round raises on a decay of 0, on a bad index or on a score. *)
Lemma float_round_err decay allocations time_switched e :
  hill_round eu decay (allocations, time_switched) = Err e →
  (e = ZeroDivisionError ∧ PrimFloat.eqb decay zero = true)
  ∨ e = IndexError
  ∨ ∃ c, eu c = Err e.
Proof.
  unfold hill_round.
  destruct (improving eu allocations time_switched) as [plm|e'] eqn:Himp.
  - rewrite bind_ok. destruct plm as [|c plm].
    + unfold Binary64.truediv.
      destruct (PrimFloat.eqb decay zero); [|done].
      rewrite bind_err. intros [= <-]. by left.
    + destruct (float_select_in allocations (c :: plm))
        as (new & Hsel & _); [done| |by rewrite Hsel].
      eapply Forall_impl; [exact (float_improving_spec _ _ _ Himp)|].
      intros x (u & v & Hu & _ & Hlt). exists u. split; [done|].
      by eapply FloatFacts.eqb_refl_of_ltb.
  - rewrite bind_err. intros [= ->]. right.
    apply SearchFacts.for_each_err in Himp as (plm & [p0 p1] & _ & Hbody).
    unfold consider in Hbody.
    destruct (adjust allocations time_switched (p0, p1))
      as [[c|]|e'] eqn:Hadj; rewrite ?bind_ok, ?bind_err in Hbody; [|done|].
    + destruct (eu c) as [u|e'] eqn:Hu;
        rewrite ?bind_ok, ?bind_err in Hbody.
      * destruct (eu allocations) as [v|e'] eqn:Hv;
          rewrite ?bind_ok, ?bind_err in Hbody; [done|].
        injection Hbody as ->. right. by exists allocations.
      * injection Hbody as ->. right. by exists c.
    + injection Hbody as ->. left.
      unfold adjust, index in Hadj.
      destruct (node_id p0 =? node_id p1)%nat; [done|].
      destruct (allocations !! node_id p0) as [x|]; [|by injection Hadj].
      rewrite bind_ok in Hadj.
      destruct (PrimFloat.ltb _ zero); [done|].
      destruct (_ !! node_id p1); [done|by injection Hadj].
Qed.

Lemma float_loop_S decay threshold fuel st :
  hill_loop eu decay threshold (S fuel) st
  = if gtb (snd st) threshold then
      match hill_round eu decay st with
      | Ok st' => hill_loop eu decay threshold fuel st'
      | Err e => Some (Err e)
      end
    else Some (Ok st).
Proof. reflexivity. Qed.

Lemma float_rounds_S decay n st :
  rounds eu decay (S n) st
  = (st' ← hill_round eu decay st; rounds eu decay n st').
Proof. reflexivity. Qed.

Lemma float_loop_more_fuel decay threshold fuel : ∀ st outcome fuel',
  hill_loop eu decay threshold fuel st = Some outcome →
  (fuel <= fuel')%nat →
  hill_loop eu decay threshold fuel' st = Some outcome.
Proof.
  induction fuel as [|fuel IH]; intros st outcome fuel' Hloop Hle.
  - destruct fuel' as [|fuel']; [done|].
    rewrite float_loop_S. simpl in Hloop.
    by destruct (gtb (snd st) threshold).
  - destruct fuel' as [|fuel']; [lia|].
    rewrite float_loop_S in *.
    destruct (gtb (snd st) threshold); [|done].
    destruct (hill_round eu decay st); [|done].
    apply IH; [done|lia].
Qed.
End float_rounds.


Section float_termination.
Import PrimFloat.
Import Float64 Float64Spec.
Context (eu : list TimeAllocation → result float) (decay threshold : float).

Lemma cooled_S n s :
  cooled decay (S n) s = cooled decay n (PrimFloat.div s decay).
Proof. reflexivity. Qed.

Lemma cooled_add n k s :
  cooled decay (n + k) s = cooled decay k (cooled decay n s).
Proof.
  revert s. induction n as [|n IH]; intros s; [done|].
  cbn [Nat.add cooled]. apply IH.
Qed.

(** What the loop returns is what the rounds lead to, one after the
    other, each started above the threshold. *)
Lemma float_loop_rounds fuel : ∀ st outcome,
  hill_loop eu decay threshold fuel st = Some outcome →
  ∃ m, (m <= fuel)%nat
       ∧ guarded eu decay threshold st m
       ∧ match outcome with
         | Ok st' =>
             rounds eu decay m st = Ok st' ∧ gtb (snd st') threshold = false
         | Err e =>
             ∃ st_m, rounds eu decay m st = Ok st_m
                     ∧ gtb (snd st_m) threshold = true
                     ∧ hill_round eu decay st_m = Err e
         end.
Proof.
  induction fuel as [|fuel IH]; intros st outcome.
  - simpl. destruct (gtb (snd st) threshold) eqn:Hgt; [done|].
    intros [= <-]. exists 0%nat. split; [done|].
    split; [intros j Hj; lia|done].
  - rewrite float_loop_S. destruct (gtb (snd st) threshold) eqn:Hgt.
    2:{ intros [= <-]. exists 0%nat. split; [lia|].
        split; [intros j Hj; lia|done]. }
    destruct (hill_round eu decay st) as [st1|e] eqn:Hround.
    + intros (m & Hm & Hguard & Hout)%IH. exists (S m).
      split; [lia|]. split.
      * intros [|j] Hj; [by exists st|].
        rewrite float_rounds_S, Hround, bind_ok. apply Hguard. lia.
      * rewrite float_rounds_S, Hround, bind_ok. exact Hout.
    + intros [= <-]. exists 0%nat. split; [lia|].
      split; [intros j Hj; lia|]. by exists st.
Qed.

(** Rounds run out: one that divides the step takes one of the
    divisions that are left, one that moves takes the score higher. *)
Lemma float_loop_terminates k : ∀ n allocations time_switched,
  gtb (cooled decay n time_switched) threshold = false →
  (headroom (eu allocations) + n < k)%nat →
  ∃ outcome,
    hill_loop eu decay threshold k (allocations, time_switched) = Some outcome.
Proof.
  induction k as [|k IH]; intros n a s Hcool Hk; [lia|].
  rewrite float_loop_S. cbn [snd].
  destruct (gtb s threshold) eqn:Hgt; [|by eexists].
  destruct n as [|n]; [simpl in Hcool; congruence|].
  destruct (hill_round eu decay (a, s)) as [[a' s']|e] eqn:Hround;
    [|by eexists].
  apply float_round_cases in Hround as [(_ & _ & Hs' & Ha')|Hmove];
    simpl in *.
  - subst a' s'. apply (IH n); [done|lia].
  - destruct Hmove as (-> & u & v & Hu & Hv & Hlt).
    apply (IH (S n)); [done|].
    rewrite Hu. rewrite Hv in Hk.
    pose proof (FloatFacts.headroom_lt u v Hlt). lia.
Qed.

(** While no number of divisions brings the step to the threshold, the
    loop does not return. *)
Lemma float_loop_never fuel : ∀ allocations time_switched,
  (∀ n, gtb (cooled decay n time_switched) threshold = true) →
  hill_loop eu decay threshold fuel (allocations, time_switched) = None
  ∨ ∃ e, hill_loop eu decay threshold fuel (allocations, time_switched)
         = Some (Err e).
Proof.
  induction fuel as [|fuel IH]; intros a s Hhot.
  - pose proof (Hhot 0%nat) as H0. cbn [cooled] in H0.
    simpl. rewrite H0. by left.
  - pose proof (Hhot 0%nat) as H0. cbn [cooled] in H0.
    rewrite float_loop_S. cbn [snd]. rewrite H0.
    destruct (hill_round eu decay (a, s)) as [[a' s']|e] eqn:Hround;
      [|right; by exists e].
    apply float_round_cases in Hround as [(_ & _ & Hs' & Ha')|Hmove];
      simpl in *.
    + subst a' s'. apply IH. intros n. apply (Hhot (S n)).
    + destruct Hmove as (-> & _). by apply IH.
Qed.

(** A single allocation has no pair: every round divides the step. *)
Lemma float_loop_single x fuel : ∀ time_switched,
  PrimFloat.eqb decay zero = false →
  (∀ n, gtb (cooled decay n time_switched) threshold = true) →
  hill_loop eu decay threshold fuel ([x], time_switched) = None.
Proof.
  intros s Hdecay. revert s.
  induction fuel as [|fuel IH]; intros s Hhot.
  - pose proof (Hhot 0%nat) as H0. cbn [cooled] in H0.
    simpl. by rewrite H0.
  - pose proof (Hhot 0%nat) as H0. cbn [cooled] in H0.
    rewrite float_loop_S. cbn [snd]. rewrite H0.
    unfold hill_round, improving. cbn [permutations2 imap flat_map app Nat.eqb for_each].
    rewrite bind_ok. unfold Binary64.truediv. rewrite Hdecay, bind_ok.
    apply IH. intros n. apply (Hhot (S n)).
Qed.
End float_termination.


Section float_search_claims.
Import PrimFloat.

(** C3, as stated, fails on binary64.  The decay 1.2 is above 1 and the
    threshold 1e-323 (twice the smallest positive float) is above 0; from
    a step of 1 the divisions by 1.2 arrive at three times the smallest
    positive float, which divided by 1.2 is itself again and stays above
    the threshold.  So on a program of one node and a budget of 1, where
    every round divides the step, the search is still running after any
    number of rounds, whatever the expected utility. *)
Lemma naive_hill_climbing_subnormal_counterexample :
  PrimFloat.ltb 1 Float64Spec.d1_2 = true
  ∧ PrimFloat.ltb 0 (Float64Spec.tiny 2) = true
  ∧ Float64.div_nat 1 1 = Ok 1%float
  ∧ Float64Spec.cooled Float64Spec.d1_2 4100 1 = Float64Spec.tiny 3
  ∧ PrimFloat.div (Float64Spec.tiny 3) Float64Spec.d1_2 = Float64Spec.tiny 3
  ∧ Float64.gtb (Float64Spec.tiny 3) (Float64Spec.tiny 2) = true
  ∧ ∀ eu fuel,
      Float64.naive_hill_climbing eu 1 1 [Float64.mkTimeAllocation 1 0]
        Float64Spec.d1_2 (Float64Spec.tiny 2) fuel
      = None.
Proof.
  assert (Harrive :
    Float64Spec.cooled Float64Spec.d1_2 4100 1 = Float64Spec.tiny 3)
    by (vm_compute; reflexivity).
  assert (Hstay :
    PrimFloat.div (Float64Spec.tiny 3) Float64Spec.d1_2 = Float64Spec.tiny 3)
    by (vm_compute; reflexivity).
  assert (Habove :
    Float64.gtb (Float64Spec.tiny 3) (Float64Spec.tiny 2) = true)
    by (vm_compute; reflexivity).
  do 3 (split; [vm_compute; reflexivity|]).
  split; [done|]. split; [done|]. split; [done|].
  assert (Hfix : ∀ k,
    Float64Spec.cooled Float64Spec.d1_2 k (Float64Spec.tiny 3)
    = Float64Spec.tiny 3).
  { induction k as [|k IH]; [done|]. by rewrite cooled_S, Hstay. }
  assert (Hbefore :
    forallb
      (λ n, Float64.gtb (Float64Spec.cooled Float64Spec.d1_2 n 1)
              (Float64Spec.tiny 2))
      (seq 0 4100) = true) by (vm_compute; reflexivity).
  assert (Hhot : ∀ n,
    Float64.gtb (Float64Spec.cooled Float64Spec.d1_2 n 1) (Float64Spec.tiny 2)
    = true).
  { intros n. destruct (le_lt_dec 4100 n) as [Hn|Hn].
    - replace n with (4100 + (n - 4100))%nat by lia.
      by rewrite cooled_add, Harrive, Hfix.
    - apply (proj1 (forallb_forall _ _) Hbefore). apply in_seq. lia. }
  intros eu fuel.
  unfold Float64.naive_hill_climbing, Float64.naive_hill_climbing_state.
  assert (Hdecay : PrimFloat.eqb Float64Spec.d1_2 PrimFloat.zero = false)
    by (vm_compute; reflexivity).
  pose proof (float_loop_single eu Float64Spec.d1_2 (Float64Spec.tiny 2)
                (Float64.mkTimeAllocation 1 0) fuel 1%float Hdecay Hhot)
    as Hloop.
  change (Float64.div_nat 1 1) with (Ok 1%float). cbv iota.
  by rewrite Hloop.
Qed.

(** C3: on binary64 the search ends exactly when the divisions of the
    step lead to the threshold.  From the step [budget / order], when some
    number of divisions by the decay gives a step that is not above the
    threshold, the search ends after finitely many rounds, and on any
    larger number of rounds in the same way: it returns the allocations
    and the step that the rounds, each started above the threshold and run
    one after the other, lead to, the step not above the threshold; or a
    round raises, on a decay of 0, on an index out of range or on an
    expected utility.  When no number of divisions gives such a step, the
    search never returns allocations. *)
Theorem naive_hill_climbing_terminates_binary64
    (eu : list Float64.TimeAllocation → result PrimFloat.float)
    (budget : PrimFloat.float) (order : nat)
    (allocations : list Float64.TimeAllocation)
    (decay threshold allocation : PrimFloat.float) :
  Float64.div_nat budget order = Ok allocation →
  ((∃ n, Float64.gtb (Float64Spec.cooled decay n allocation) threshold = false) →
   ∃ fuel outcome,
     Float64.naive_hill_climbing_state eu budget order allocations decay
       threshold fuel = Some outcome
     ∧ Float64.naive_hill_climbing eu budget order allocations decay
         threshold fuel = Some (fst <$> outcome)
     ∧ (∀ fuel', (fuel <= fuel')%nat →
          Float64.naive_hill_climbing_state eu budget order allocations decay
            threshold fuel' = Some outcome)
     ∧ ∃ m,
         (m <= fuel)%nat
         ∧ Float64Spec.guarded eu decay threshold (allocations, allocation) m
         ∧ match outcome with
           | Ok st' =>
               Float64Spec.rounds eu decay m (allocations, allocation) = Ok st'
               ∧ Float64.gtb (snd st') threshold = false
           | Err e =>
               (∃ st_m,
                  Float64Spec.rounds eu decay m (allocations, allocation)
                  = Ok st_m
                  ∧ Float64.gtb (snd st_m) threshold = true
                  ∧ Float64.hill_round eu decay st_m = Err e)
               ∧ ((e = ZeroDivisionError
                   ∧ PrimFloat.eqb decay PrimFloat.zero = true)
                  ∨ e = IndexError
                  ∨ ∃ c, eu c = Err e)
           end)
  ∧ ((∀ n, Float64.gtb (Float64Spec.cooled decay n allocation) threshold = true) →
     ∀ fuel,
       Float64.naive_hill_climbing eu budget order allocations decay
         threshold fuel = None
       ∨ ∃ e, Float64.naive_hill_climbing eu budget order allocations decay
                threshold fuel = Some (Err e)).
Proof.
  intros Hdiv.
  unfold Float64.naive_hill_climbing, Float64.naive_hill_climbing_state.
  rewrite Hdiv. split.
  - intros [n Hcool].
    set (fuel := S (Float64Spec.headroom (eu allocations) + n)).
    destruct (float_loop_terminates eu decay threshold fuel n allocations
                allocation Hcool) as [outcome Hloop]; [subst fuel; lia|].
    exists fuel, outcome. rewrite Hloop.
    split; [done|]. split; [done|].
    split; [intros fuel' Hle; by eapply float_loop_more_fuel|].
    destruct (float_loop_rounds eu decay threshold fuel _ _ Hloop)
      as (m & Hm & Hguard & Hout).
    exists m. split; [done|]. split; [done|].
    destruct outcome as [st'|e]; [done|].
    split; [done|]. destruct Hout as ([a s] & _ & _ & Hround).
    by apply float_round_err in Hround.
  - intros Hhot fuel.
    destruct (float_loop_never eu decay threshold fuel allocations allocation
                Hhot) as [->|[e ->]]; [by left|right; by exists e].
Qed.

Lemma naive_hill_climbing_terminates_binary64_witness :
  ∃ fuel outcome,
    Float64.naive_hill_climbing_state Float64Spec.example_score 2 2
      [Float64.mkTimeAllocation 1 0; Float64.mkTimeAllocation 1 1]
      2 0.5 fuel = Some outcome
    ∧ Float64.naive_hill_climbing Float64Spec.example_score 2 2
        [Float64.mkTimeAllocation 1 0; Float64.mkTimeAllocation 1 1]
        2 0.5 fuel = Some (fst <$> outcome)
    ∧ (∀ fuel', (fuel <= fuel')%nat →
         Float64.naive_hill_climbing_state Float64Spec.example_score 2 2
           [Float64.mkTimeAllocation 1 0; Float64.mkTimeAllocation 1 1]
           2 0.5 fuel' = Some outcome)
    ∧ ∃ m,
        (m <= fuel)%nat
        ∧ Float64Spec.guarded Float64Spec.example_score 2 0.5
            ([Float64.mkTimeAllocation 1 0; Float64.mkTimeAllocation 1 1],
             1%float) m
        ∧ match outcome with
          | Ok st' =>
              Float64Spec.rounds Float64Spec.example_score 2 m
                ([Float64.mkTimeAllocation 1 0; Float64.mkTimeAllocation 1 1],
                 1%float) = Ok st'
              ∧ Float64.gtb (snd st') 0.5 = false
          | Err e =>
              (∃ st_m,
                 Float64Spec.rounds Float64Spec.example_score 2 m
                   ([Float64.mkTimeAllocation 1 0; Float64.mkTimeAllocation 1 1],
                    1%float) = Ok st_m
                 ∧ Float64.gtb (snd st_m) 0.5 = true
                 ∧ Float64.hill_round Float64Spec.example_score 2 st_m = Err e)
              ∧ ((e = ZeroDivisionError
                  ∧ PrimFloat.eqb 2 PrimFloat.zero = true)
                 ∨ e = IndexError
                 ∨ ∃ c, Float64Spec.example_score c = Err e)
          end.
Proof.
  apply (naive_hill_climbing_terminates_binary64 Float64Spec.example_score 2 2
           [Float64.mkTimeAllocation 1 0; Float64.mkTimeAllocation 1 1]
           2 0.5 1).
  - vm_compute. reflexivity.
  - exists 1%nat. vm_compute. reflexivity.
Defined.

(** The run of the example: the first round moves to (2, 0), the second
    divides the step, and the search returns.  On a graph of order 0 the
    search raises before the first round. *)
Example naive_hill_climbing_binary64_example :
  Float64.naive_hill_climbing_state Float64Spec.example_score 2 2
    [Float64.mkTimeAllocation 1 0; Float64.mkTimeAllocation 1 1] 2 0.5 2
  = Some (Ok ([Float64.mkTimeAllocation 2 0; Float64.mkTimeAllocation 0 1],
              0.5%float))
  ∧ ∀ eu budget allocations decay threshold fuel,
      Float64.naive_hill_climbing_state eu budget 0 allocations decay
        threshold fuel
      = Some (Err ZeroDivisionError).
Proof. split; [vm_compute; reflexivity|done]. Qed.
End float_search_claims.


(** ** The estimate on binary64 *)

Section float_profile_claims.
Import PrimFloat.

(** C8, as stated, fails on binary64: for the samples 0.1, 0.2 and 0.3 at
    the key of the time 1.0 the estimate is 0.20000000000000004, which
    is not their arithmetic mean, and is further from it than the float
    0.2 is. *)
Lemma average_quality_drift_counterexample :
  Float64.query_average_quality Float64Spec.example_profile 0
    (Float64.mkTimeAllocation 1 0) (Float64.VList [])
  = Ok 0x1.999999999999bp-3%float
  ∧ ¬ (Float64Spec.value_of 0x1.999999999999bp-3
       == Float64Spec.exact_mean [Binary64.d0_1; Float64Spec.d0_2; Float64Spec.d0_3])%Q
  ∧ (Qabs (Float64Spec.value_of Float64Spec.d0_2
           - Float64Spec.exact_mean
               [Binary64.d0_1; Float64Spec.d0_2; Float64Spec.d0_3])
     < Qabs (Float64Spec.value_of 0x1.999999999999bp-3
             - Float64Spec.exact_mean
                 [Binary64.d0_1; Float64Spec.d0_2; Float64Spec.d0_3]))%Q.
Proof.
  split; [vm_compute; reflexivity|]. split.
  - intros H. vm_compute in H. discriminate.
  - vm_compute. reflexivity.
Qed.

(** C8: for a node queried without parent qualities, when the time
    rounded on binary64 to the nearest multiple of [time_interval]
    formats (one decimal) to a recorded key, [query_average_quality]
    reads the samples at that one key and returns their binary64 sum,
    added up from 0 in the order of the samples, divided on binary64 by
    their number. *)
Theorem average_quality_estimate_binary64
    (self : Float64.PerformanceProfile) (id : nat)
    (time_allocation : Float64.TimeAllocation)
    (top : Float64.mapping) (entries : gmap string Float64.mapping)
    (estimated_time : float) (qualities : list float) :
  Float64.dictionary self = Some top →
  Float64.node_qualities top id = Ok (Float64.Dict entries) →
  round_nearest (Float64.time time_allocation) (Float64.time_interval self)
  = Ok estimated_time →
  entries !! Float64.format_fixed 1 estimated_time
  = Some (Float64.Samples qualities) →
  qualities ≠ [] →
  Float64.query_average_quality self id time_allocation (Float64.VList [])
  = Ok (PrimFloat.div (fold_left PrimFloat.add qualities PrimFloat.zero)
          (Float64.of_nat (length qualities))).
Proof.
  intros Htop Hnode Hround Hkey Hne.
  unfold Float64.query_average_quality. rewrite Htop.
  cbn [Float64.truthy negb]. rewrite Hnode, bind_ok, Hround, bind_ok.
  cbn [Float64.subscript]. rewrite Hkey, bind_ok.
  cbn [Float64.samples_of]. rewrite bind_ok.
  unfold Float64.average_quality, Float64.div_nat, Float64.sum.
  by destruct qualities.
Qed.

Lemma average_quality_estimate_binary64_witness :
  Float64.query_average_quality Float64Spec.example_profile 0
    (Float64.mkTimeAllocation 1 0) (Float64.VList [])
  = Ok (PrimFloat.div
          (fold_left PrimFloat.add
             [Binary64.d0_1; Float64Spec.d0_2; Float64Spec.d0_3] PrimFloat.zero)
          (Float64.of_nat
             (length [Binary64.d0_1; Float64Spec.d0_2; Float64Spec.d0_3]))).
Proof.
  eapply (average_quality_estimate_binary64 Float64Spec.example_profile 0
            (Float64.mkTimeAllocation 1 0) _ _ 1).
  - reflexivity.
  - vm_compute. reflexivity.
  - vm_compute. reflexivity.
  - vm_compute. reflexivity.
  - discriminate.
Defined.

(** The keys on binary64: 0.05 is a little above a twentieth, so one
    decimal of it is 0.1; and [round_nearest(0.15, 0.05)] is
    0.15000000000000002. *)
Example format_fixed_binary64 :
  Float64.format_fixed 1 Binary64.d0_05 = "0.1"%string
  ∧ Text.format_fixed 1 (1 # 20) = "0.0"%string
  ∧ round_nearest 0x1.3333333333333p-3%float Binary64.d0_05
    = Ok 0x1.3333333333334p-3%float.
Proof. repeat split; vm_compute; reflexivity. Qed.
End float_profile_claims.

(** * Further properties *)

(** ** Rounding to a step *)

(** X1: [round_nearest] raises [ZeroDivisionError] on a step of 0,
    whatever the number: on exact numbers, and on binary64 for both
    zeros. *)
Theorem round_nearest_zero_step (number step : Q) :
  ((step == 0)%Q → round_nearest number step = Err ZeroDivisionError)
  ∧ (∀ x : PrimFloat.float,
       round_nearest x PrimFloat.zero = Err ZeroDivisionError
       ∧ round_nearest x PrimFloat.neg_zero = Err ZeroDivisionError).
Proof.
  split.
  { intros Hstep. unfold round_nearest. simpl.
    by rewrite NumFacts.truediv_zero. }
  intros x; split; reflexivity.
Qed.


(** ** Averages and band probabilities *)

Module SampleFacts.
Local Open Scope Q_scope.

Lemma total_bounds lo hi xs :
  Forall (λ x, lo <= x ∧ x <= hi) xs →
  Num.of_nat (length xs) * lo <= Num.total xs
  ∧ Num.total xs <= Num.of_nat (length xs) * hi.
Proof.
  unfold Num.total, Num.of_nat.
  induction 1 as [|x xs [Hlo Hhi] _ [IH1 IH2]].
  - cbn [length foldr]. change (inject_Z (Z.of_nat 0)) with 0. lra.
  - cbn [length foldr].
    rewrite Nat2Z.inj_succ, <- Z.add_1_r, inject_Z_plus.
    change (inject_Z 1) with 1.
    set (n := inject_Z (Z.of_nat (length xs))) in *.
    set (t := foldr Qplus 0 xs) in *. split; lra.
Qed.

(** The mean of samples that are not empty lies between their bounds. *)
Lemma average_between lo hi xs :
  xs ≠ [] → Forall (λ x, lo <= x ∧ x <= hi) xs →
  ∃ average, average_quality xs = Ok average ∧ lo <= average ∧ average <= hi.
Proof.
  intros Hne Hall.
  assert (Hlen : 0 < Num.of_nat (length xs)).
  { apply NumFacts.of_nat_pos. destruct xs; simpl; [done|lia]. }
  exists (Qred (Num.sum xs / Num.of_nat (length xs))).
  split; [apply NumFacts.truediv_ok; lra|].
  rewrite Qred_correct, NumFacts.sum_eq.
  destruct (total_bounds lo hi xs Hall) as [H1 H2].
  set (n := Num.of_nat (length xs)) in *. set (t := Num.total xs) in *.
  split.
  - apply Qle_shift_div_l; [done|lra].
  - apply Qle_shift_div_r; [done|lra].
Qed.

(** A mean that is returned is the mean of samples that are not empty. *)
Lemma average_ok xs average :
  average_quality xs = Ok average → xs ≠ [].
Proof. intros H ->. discriminate. Qed.

Lemma insert_sorted_perm x xs : insert_sorted x xs ≡ₚ x :: xs.
Proof.
  induction xs as [|y ys IH]; simpl; [done|].
  destruct (Num.ltb y x); [|done].
  rewrite IH. apply Permutation_swap.
Qed.

(** [sorted] rearranges. *)
Lemma sorted_perm xs : sorted xs ≡ₚ xs.
Proof.
  induction xs as [|x xs IH]; simpl; [done|].
  by rewrite insert_sorted_perm, IH.
Qed.

(** The count of a band does not depend on the order. *)
Lemma count_perm lo hi xs ys :
  xs ≡ₚ ys → count_in_interval lo hi xs = count_in_interval lo hi ys.
Proof.
  induction 1 as [|x xs ys _ IH|x y xs|xs ys zs _ IH1 _ IH2].
  - done.
  - by rewrite !count_cons, IH.
  - rewrite !count_cons. lia.
  - by rewrite IH1.
Qed.

Lemma count_none lo hi xs :
  Forall (λ x, ¬ (lo <= x ∧ x < hi)) xs → count_in_interval lo hi xs = 0%Z.
Proof.
  induction 1 as [|x xs Hx _ IH]; [done|].
  rewrite count_cons, IH.
  destruct (Num.leb lo x) eqn:H1, (Num.ltb x hi) eqn:H2; try done.
  exfalso. apply Hx. split.
  - by apply NumFacts.leb_true.
  - by apply NumFacts.ltb_true.
Qed.

End SampleFacts.

(** X3: [average_quality] of samples that are qualities, between 0 and
    1, is between 0 and 1; on no samples it raises
    [ZeroDivisionError]. *)
Theorem average_quality_unit (qualities : list Q) :
  average_quality [] = Err ZeroDivisionError
  ∧ (qualities ≠ [] →
     Forall unit_quality qualities →
     ∃ average,
       average_quality qualities = Ok average
       ∧ (0 <= average)%Q ∧ (average <= 1)%Q).
Proof.
  split; [reflexivity|]. apply (SampleFacts.average_between 0 1).
Qed.

(** X4: [query_probability_contract_expression] does not depend on the
    order of the samples: the sort of line 81 has no effect on the
    result. *)
Theorem interval_probability_order
    (self : PerformanceProfile) (queried_quality : Q)
    (quality_list quality_list' : list Q) :
  quality_list ≡ₚ quality_list' →
  query_probability_contract_expression self queried_quality quality_list
  = query_probability_contract_expression self queried_quality quality_list'.
Proof.
  intros Hperm. unfold query_probability_contract_expression.
  destruct (Num.floordiv queried_quality (quality_interval self)) as [q|e];
    [|done].
  rewrite !bind_ok, !length_sorted.
  rewrite (Permutation_length Hperm). do 2 f_equal.
  apply SampleFacts.count_perm.
  by rewrite !SampleFacts.sorted_perm.
Qed.

Lemma interval_probability_order_witness :
  query_probability_contract_expression Example.program (1 # 2)
    [1 # 2; 1 # 4; 3 # 5]
  = query_probability_contract_expression Example.program (1 # 2)
      [3 # 5; 1 # 2; 1 # 4].
Proof.
  apply (interval_probability_order Example.program (1 # 2)
           [1 # 2; 1 # 4; 3 # 5] [3 # 5; 1 # 2; 1 # 4]).
  apply (Permutation_cons_app [3 # 5] [1 # 4] (1 # 2)).
  apply Permutation_swap.
Defined.

(** X6: on a negative [quality_interval] the band ends before it starts:
    whatever the queried quality and the samples (not empty), the
    probability is 0. *)
Theorem interval_probability_negative_band
    (self : PerformanceProfile) (queried_quality : Q) (quality_list : list Q) :
  (quality_interval self < 0)%Q →
  quality_list ≠ [] →
  query_probability_contract_expression self queried_quality quality_list
  = Ok 0%Q.
Proof.
  intros Hqi Hne. rewrite probability_value by (done || lra).
  set (lo := Num.mul _ _). set (hi := Num.add lo _).
  rewrite SampleFacts.count_none; [reflexivity|].
  apply Forall_forall. intros x _ [Hlo Hhi].
  subst hi. rewrite NumFacts.add_eq in Hhi. lra.
Qed.

Lemma interval_probability_negative_band_witness :
  query_probability_contract_expression
    (mkPerformanceProfile None 1 (-1 # 4) 2 STEP_SIZE) (1 # 2) [1 # 2; 1 # 4]
  = Ok 0%Q.
Proof.
  apply (interval_probability_negative_band
           (mkPerformanceProfile None 1 (-1 # 4) 2 STEP_SIZE) (1 # 2)
           [1 # 2; 1 # 4]).
  - reflexivity.
  - discriminate.
Defined.

(** ** The keys read *)

Section gather.
Context (entries : gmap string mapping).

Lemma subscript_recorded key d :
  entries !! key = Some d → subscript (Dict entries) key = Ok d.
Proof. intros H. simpl. by rewrite H. Qed.

Lemma subscript_missing key :
  entries !! key = None → subscript (Dict entries) key = Err KeyError.
Proof. intros H. simpl. by rewrite H. Qed.

(** The loop of lines 65-67 over keys that are all recorded. *)
Lemma gather_ok keys : ∀ lists qualities,
  Forall2 (λ key l, entries !! key = Some (Samples l)) keys lists →
  for_each
    (λ qualities key,
       found ← subscript (Dict entries) key;
       more ← samples_of found;
       Ok (qualities ++ more))
    qualities keys
  = Ok (qualities ++ concat lists).
Proof.
  induction keys as [|key keys IH]; intros lists qualities Hall.
  - apply Forall2_nil_inv_l in Hall as ->. simpl. by rewrite app_nil_r.
  - apply Forall2_cons_inv_l in Hall as (l & lists' & Hkey & Hall & ->).
    cbn [for_each]. rewrite (subscript_recorded _ _ Hkey), !bind_ok.
    change (samples_of (Samples l)) with (Ok l).
    rewrite !bind_ok, (IH lists') by done. cbn [concat].
    by rewrite app_assoc.
Qed.

(** The loop stops on the first key that is not recorded. *)
Lemma gather_missing pre key post : ∀ lists qualities,
  Forall2 (λ key l, entries !! key = Some (Samples l)) pre lists →
  entries !! key = None →
  for_each
    (λ qualities key,
       found ← subscript (Dict entries) key;
       more ← samples_of found;
       Ok (qualities ++ more))
    qualities (pre ++ key :: post)
  = Err KeyError.
Proof.
  induction pre as [|k pre IH]; intros lists qualities Hall Hkey.
  - cbn [app for_each]. by rewrite (subscript_missing _ Hkey).
  - apply Forall2_cons_inv_l in Hall as (l & lists' & Hk & Hall & ->).
    rewrite <- app_comm_cons. cbn [for_each].
    rewrite (subscript_recorded _ _ Hk), !bind_ok.
    change (samples_of (Samples l)) with (Ok l). rewrite !bind_ok.
    by apply (IH lists').
Qed.
End gather.

(** X10: once the node and the parents' qualities lead to a mapping of
    time slots, [query_quality_list_on_interval] returns the samples of
    the keys of the interval, in the order of the keys, one sequence after
    the other; and when a key of the interval is not recorded (the keys
    before it being recorded) it raises [KeyError]. *)
Theorem quality_samples_gathered
    (self : PerformanceProfile) (time : Q) (id : nat)
    (parent_qualities : list value) (top d : mapping)
    (entries : gmap string mapping) (keys : list string) :
  dictionary self = Some top →
  node_qualities top id = Ok d →
  descend self d parent_qualities = Ok (Dict entries) →
  interval_keys self time = Ok keys →
  (∀ lists,
     Forall2 (λ key l, entries !! key = Some (Samples l)) keys lists →
     query_quality_list_on_interval self time id (VList parent_qualities)
     = Ok (concat lists))
  ∧ (∀ pre key post lists,
       keys = pre ++ key :: post →
       Forall2 (λ key l, entries !! key = Some (Samples l)) pre lists →
       entries !! key = None →
       query_quality_list_on_interval self time id (VList parent_qualities)
       = Err KeyError).
Proof.
  intros Htop Hnode Hdescend Hkeys.
  assert (Hquery : ∀ r,
    for_each
      (λ qualities key,
         found ← subscript (Dict entries) key;
         more ← samples_of found;
         Ok (qualities ++ more))
      [] keys = r →
    query_quality_list_on_interval self time id (VList parent_qualities) = r).
  { intros r <-. unfold query_quality_list_on_interval.
    rewrite Htop, Hnode, bind_ok.
    assert (Hd : (if truthy (VList parent_qualities)
                  then pqs ← iterate (VList parent_qualities); descend self d pqs
                  else Ok d) = Ok (Dict entries)).
    { destruct parent_qualities; [|done].
      simpl in Hdescend. by rewrite <- Hdescend. }
    by rewrite Hd, bind_ok, Hkeys, bind_ok. }
  split.
  - intros lists Hall. apply Hquery.
    by rewrite (gather_ok entries keys lists []).
  - intros pre key post lists -> Hall Hkey. apply Hquery.
    by eapply gather_missing.
Qed.

Lemma quality_samples_gathered_witness :
  (∀ lists,
     Forall2 (λ key l, example_leaf_entries !! key = Some (Samples l))
       ["0.0"; "0.1"; "0.2"; "0.3"; "0.4"; "0.5"; "0.6"; "0.7"; "0.8"; "0.9"]%string
       lists →
     query_quality_list_on_interval Example.program (1 # 2) 0 (VList [])
     = Ok (concat lists))
  ∧ (∀ pre key post lists,
       ["0.0"; "0.1"; "0.2"; "0.3"; "0.4"; "0.5"; "0.6"; "0.7"; "0.8"; "0.9"]%string
       = pre ++ key :: post →
       Forall2 (λ key l, example_leaf_entries !! key = Some (Samples l))
         pre lists →
       example_leaf_entries !! key = None →
       query_quality_list_on_interval Example.program (1 # 2) 0 (VList [])
       = Err KeyError).
Proof.
  apply (quality_samples_gathered Example.program (1 # 2) 0 [] Example.file
           (Dict example_leaf_entries) example_leaf_entries).
  - reflexivity.
  - vm_compute. reflexivity.
  - reflexivity.
  - vm_compute. reflexivity.
Defined.

(** A slot that is not recorded: the example has no samples after 2.0. *)
Example missing_slot :
  query_quality_list_on_interval Example.program 3 0 (VList []) = Err KeyError.
Proof. vm_compute. reflexivity. Qed.

(** ** Nodes and propagation *)

(** X12: [find_node] returns the first node of the graph with the id it
    is given, and raises [IndexError] exactly when no node has it. *)
Theorem find_node_first (self : ContractProgram) (node_id : nat) :
  match find_node self node_id with
  | Ok node =>
      id node = node_id
      ∧ ∃ before after,
          nodes (dag self) = before ++ node :: after
          ∧ Forall (λ other, id other ≠ node_id) before
  | Err e =>
      e = IndexError ∧ Forall (λ other, id other ≠ node_id) (nodes (dag self))
  end.
Proof.
  unfold find_node. generalize (nodes (dag self)). intros ns.
  induction ns as [|n ns IH]; simpl.
  - split; [done|constructor].
  - destruct (id n =? node_id)%nat eqn:Hn.
    + apply Nat.eqb_eq in Hn. split; [done|].
      exists [], ns. split; [done|constructor].
    + apply Nat.eqb_neq in Hn.
      destruct (List.find _ ns) as [node|].
      * destruct IH as (Hid & before & after & -> & Hbefore).
        split; [done|]. exists (n :: before), after.
        split; [done|]. by constructor.
      * destruct IH as [_ Hall]. split; [done|]. by constructor.
Qed.

(** Induction on a node, with the property for its parents. *)
Lemma Node_induction (P : Node → Prop) :
  (∀ node_id ps, Forall P ps → P (mkNode node_id ps)) → ∀ node, P node.
Proof.
  intros Hstep. fix IH 1. intros [node_id ps]. apply Hstep.
  induction ps as [|p ps IHps]; constructor; [apply IH|exact IHps].
Qed.

Lemma comprehension_ext {A B} (f g : A → result B) xs :
  Forall (λ x, f x = g x) xs → comprehension f xs = comprehension g xs.
Proof.
  induction 1 as [|x xs Hx _ IH]; [done|].
  cbn [comprehension]. by rewrite Hx, IH.
Qed.

(** X13: below the outermost call the depth plays no role:
    [find_parent_qualities] returns the same for every depth of at least
    1. *)
Theorem find_parent_qualities_depth
    (self : ContractProgram) (node : Node)
    (time_allocations : list TimeAllocation) (depth depth' : nat) :
  find_parent_qualities self node time_allocations (S depth)
  = find_parent_qualities self node time_allocations (S depth').
Proof.
  revert depth depth'. induction node as [node_id ps IH] using Node_induction.
  intros depth depth'. rewrite !find_parent_qualities_unfold.
  cbn [parents id Nat.eqb].
  rewrite (comprehension_ext
             (λ parent, find_parent_qualities self parent time_allocations
                          (S (S depth)))
             (λ parent, find_parent_qualities self parent time_allocations
                          (S (S depth')))); [done|].
  eapply Forall_impl; [exact IH|]. intros p Hp. apply Hp.
Qed.

(** X14: the parent qualities of a node depend on the allocations of its
    ancestors only: two allocation vectors that agree at the ids of the
    ancestors give the same result at depth 0, and the same result at any
    depth once they also agree at the id of the node. *)
Theorem find_parent_qualities_frame
    (self : ContractProgram) (node : Node)
    (time_allocations time_allocations' : list TimeAllocation) :
  (∀ parent i,
     parent ∈ parents node → in_tree i parent →
     time_allocations !! i = time_allocations' !! i) →
  find_parent_qualities self node time_allocations 0
  = find_parent_qualities self node time_allocations' 0
  ∧ (time_allocations !! id node = time_allocations' !! id node →
     ∀ depth,
       find_parent_qualities self node time_allocations (S depth)
       = find_parent_qualities self node time_allocations' (S depth)).
Proof.
  assert (Hdeep : ∀ n depth,
    (∀ i, in_tree i n → time_allocations !! i = time_allocations' !! i) →
    find_parent_qualities self n time_allocations (S depth)
    = find_parent_qualities self n time_allocations' (S depth)).
  { induction n as [node_id ps IH] using Node_induction.
    intros depth Hagree. rewrite !find_parent_qualities_unfold.
    cbn [parents id Nat.eqb]. unfold index.
    rewrite (Hagree node_id) by constructor.
    rewrite (comprehension_ext
               (λ parent, find_parent_qualities self parent time_allocations
                            (S (S depth)))
               (λ parent, find_parent_qualities self parent time_allocations'
                            (S (S depth)))); [done|].
    apply Forall_forall. intros p Hp.
    eapply Forall_forall in IH; [|exact Hp]. apply IH.
    intros i Hi. apply Hagree. by eapply in_tree_parent. }
  intros Hagree.
  assert (Hparents :
    comprehension
      (λ parent, find_parent_qualities self parent time_allocations 1)
      (parents node)
    = comprehension
        (λ parent, find_parent_qualities self parent time_allocations' 1)
        (parents node)).
  { apply comprehension_ext, Forall_forall. intros p Hp.
    apply Hdeep. intros i Hi. by eapply Hagree. }
  split.
  - rewrite !find_parent_qualities_unfold. cbn [Nat.eqb].
    by rewrite Hparents.
  - intros Hnode depth. apply Hdeep. intros i Hi.
    destruct node as [node_id ps]. inversion Hi; subst; [done|].
    by eapply Hagree.
Qed.

Lemma find_parent_qualities_frame_witness :
  find_parent_qualities Example.program Example.root (Example.allocation 1 1) 0
  = find_parent_qualities Example.program Example.root (Example.allocation 1 2) 0
  ∧ (Example.allocation 1 1 !! id Example.root
     = Example.allocation 1 2 !! id Example.root →
     ∀ depth,
       find_parent_qualities Example.program Example.root
         (Example.allocation 1 1) (S depth)
       = find_parent_qualities Example.program Example.root
           (Example.allocation 1 2) (S depth)).
Proof.
  apply (find_parent_qualities_frame Example.program Example.root
           (Example.allocation 1 1) (Example.allocation 1 2)).
  intros parent i Hparent Hi. simpl in Hparent.
  apply elem_of_cons in Hparent as [->|Hparent];
    [|by apply elem_of_nil in Hparent].
  inversion Hi as [ps|j p ps Hp _]; [reflexivity|].
  by apply elem_of_nil in Hp.
Defined.

(** ** Budgets *)

(** X15: [uniform_budget] raises [ZeroDivisionError] exactly on a graph
    of order 0.  Otherwise it returns as many allocations as the graph has
    nodes, all with the one time [budget / order] and each with its
    position as node id. *)
Theorem uniform_budget_partition (self : ContractProgram) :
  match uniform_budget self with
  | Ok time_allocations =>
      (0 < order (dag self))%nat
      ∧ length time_allocations = order (dag self)
      ∧ ∃ allocation,
          Num.truediv (budget self) (Num.of_nat (order (dag self)))
          = Ok allocation
          ∧ ∀ i, (i < order (dag self))%nat →
                 time_allocations !! i = Some (mkTimeAllocation allocation i)
  | Err e => e = ZeroDivisionError ∧ order (dag self) = 0%nat
  end.
Proof.
  unfold uniform_budget.
  destruct (order (dag self)) as [|n] eqn:Horder.
  - by rewrite NumFacts.truediv_zero.
  - assert (Hpos : (0 < Num.of_nat (S n))%Q)
      by (apply NumFacts.of_nat_pos; lia).
    rewrite NumFacts.truediv_ok by lra. rewrite bind_ok.
    split; [lia|]. split; [by rewrite length_fmap, length_seq|].
    eexists. split; [reflexivity|].
    intros i Hi. rewrite list_lookup_fmap, lookup_seq_lt by done. done.
Qed.

(** X16: [random_budget] multiplies the entries of the row it draws by
    the budget and numbers them by position.  On a row of a single entry
    (a graph of order 1) it raises [TypeError]. *)
Theorem random_budget_partition (self : ContractProgram) (draw : list Q) :
  match random_budget self draw with
  | Ok time_allocations =>
      length draw ≠ 1%nat
      ∧ length time_allocations = length draw
      ∧ (∀ i share, draw !! i = Some share →
                    time_allocations !! i
                    = Some (mkTimeAllocation (Num.mul share (budget self)) i))
  | Err e => e = TypeError ∧ length draw = 1%nat
  end.
Proof.
  assert (Hmany :
    let time_allocations :=
      imap (λ id time, mkTimeAllocation time id)
        ((λ time, Num.mul time (budget self)) <$> draw) in
    length time_allocations = length draw
    ∧ (∀ i share, draw !! i = Some share →
                  time_allocations !! i
                  = Some (mkTimeAllocation (Num.mul share (budget self)) i))).
  { cbv zeta. split; [by rewrite length_imap, length_fmap|].
    intros i share Hi.
    by rewrite list_lookup_imap, list_lookup_fmap, Hi. }
  destruct draw as [|share [|share' draw]].
  - split; [done|exact Hmany].
  - done.
  - split; [done|exact Hmany].
Qed.

(** ** What the search keeps *)

Section climb_facts.
Local Open Scope Q_scope.
Context (eu : list TimeAllocation → result Q).

(** A candidate has the node ids of the allocations it was copied
    from. *)
Lemma adjust_conserves a s permutation c :
  adjust a s permutation = Ok (Some c) →
  node_id <$> c = node_id <$> a.
Proof.
  destruct permutation as [p0 p1]. intros Hadj.
  by apply adjust_entries in Hadj as (_ & _ & _ & _ & Hids).
Qed.

(** With a step that is not negative, a candidate of allocations without
    a negative time has none. *)
Lemma adjust_nonneg a s permutation c :
  0 <= s → Forall (λ x, 0 <= time x) a →
  adjust a s permutation = Ok (Some c) →
  Forall (λ x, 0 <= time x) c.
Proof.
  destruct permutation as [p0 p1]. intros Hs Ha.
  intros (Hne & x & y & Hx & Hy & Hroom & ->)%adjust_Some.
  apply Forall_insert; [apply Forall_insert; [done|]|].
  - simpl. rewrite NumFacts.sub_eq. done.
  - simpl. rewrite NumFacts.add_eq.
    eapply Forall_lookup_1 in Hy; [|exact Ha]. simpl in Hy. lra.
Qed.

(** A round ends on the allocations it started with or on one of their
    candidates. *)
Lemma hill_round_keeps (P : list TimeAllocation → Prop) decay a s st' :
  (∀ permutation c, adjust a s permutation = Ok (Some c) → P c) → P a →
  hill_round eu decay (a, s) = Ok st' → P (fst st').
Proof.
  intros Hc Ha [(_ & _ & ->)|Hsome]%hill_round_cases; [done|].
  destruct Hsome as (plm & pre & post & best & _ & _ & _ & Himp & _).
  destruct Himp as (permutation & _ & _ & _ & Hadj & _). by eapply Hc.
Qed.

(** What every round above the threshold keeps, the loop keeps. *)
Lemma hill_loop_invariant (P : search_state → Prop) decay threshold fuel :
  ∀ st st',
    (∀ st st', P st → threshold < snd st →
               hill_round eu decay st = Ok st' → P st') →
    P st → hill_loop eu decay threshold fuel st = Some (Ok st') → P st'.
Proof.
  induction fuel as [|fuel IH]; intros st st' Hround Hst.
  - simpl. destruct (Num.gtb (snd st) threshold); [done|].
    by intros [= <-].
  - rewrite hill_loop_S.
    destruct (Num.gtb (snd st) threshold) eqn:Hgt; [|by intros [= <-]].
    apply NumFacts.gtb_true in Hgt.
    destruct (hill_round eu decay st) as [st1|e] eqn:Hst1; [|done].
    apply IH; [done|]. by eapply Hround.
Qed.

Lemma hill_loop_conserves decay threshold fuel a s st' :
  hill_loop eu decay threshold fuel (a, s) = Some (Ok st') →
  node_id <$> fst st' = node_id <$> a.
Proof.
  apply (hill_loop_invariant (λ st, node_id <$> fst st = node_id <$> a));
    [|done].
  intros [a1 s1] st2 Hids _ Hround. simpl in Hids.
  apply (hill_round_keeps (λ c, node_id <$> c = node_id <$> a)
           decay a1 s1 st2); [|done|done].
  intros permutation c Hids'%adjust_conserves. congruence.
Qed.

Lemma hill_loop_nonneg decay threshold fuel a s st' :
  0 <= threshold → Forall (λ x, 0 <= time x) a →
  hill_loop eu decay threshold fuel (a, s) = Some (Ok st') →
  Forall (λ x, 0 <= time x) (fst st').
Proof.
  intros Hthreshold Ha.
  apply (hill_loop_invariant (λ st, Forall (λ x, 0 <= time x) (fst st)));
    [|done].
  intros [a1 s1] st2 Ha1 Hs1 Hround. simpl in Ha1, Hs1.
  apply (hill_round_keeps (Forall (λ x, 0 <= time x)) decay a1 s1 st2);
    [|done|done].
  intros permutation c. apply adjust_nonneg; [lra|done].
Qed.

(** The list of the improving candidates only grows through the pairs;
    when it ends empty, no pair added to it. *)
Lemma improving_grows a s pairs : ∀ possible_local_max final,
  for_each (consider eu a s) possible_local_max pairs = Ok final →
  (length possible_local_max <= length final)%nat
  ∧ (final = [] →
     ∀ permutation, permutation ∈ pairs →
                    consider eu a s [] permutation = Ok []).
Proof.
  induction pairs as [|pair pairs IH]; intros plm final.
  - simpl. intros [= <-]. split; [done|]. by intros _ p Hp%elem_of_nil.
  - cbn [for_each].
    destruct (consider eu a s plm pair) as [plm1|e] eqn:Hpair; [|done].
    rewrite bind_ok. intros [Hlen Hnone]%IH.
    assert (Hgrow : (length plm <= length plm1)%nat).
    { unfold consider in Hpair.
      destruct (adjust a s pair) as [[c|]|e]; rewrite ?bind_ok in Hpair;
        [|by injection Hpair as <-|done].
      destruct (eu c) as [u|e]; [|done]. rewrite bind_ok in Hpair.
      destruct (eu a) as [v|e]; [|done]. rewrite bind_ok in Hpair.
      injection Hpair as <-. destruct (Num.gtb u v); [|done].
      rewrite length_app. lia. }
    split; [lia|]. intros -> permutation.
    destruct plm1; [|simpl in Hlen; lia].
    destruct plm; [|simpl in Hgrow; lia].
    intros [->|Hin]%elem_of_cons; [done|by apply Hnone].
Qed.

(** No improving candidate: every candidate was scored, and none above
    the allocations. *)
Lemma improving_none a s :
  improving eu a s = Ok [] →
  ∀ permutation c,
    permutation ∈ permutations2 a →
    adjust a s permutation = Ok (Some c) →
    ∃ u v, eu c = Ok u ∧ eu a = Ok v ∧ u <= v.
Proof.
  intros [_ Hnone]%improving_grows permutation c Hin Hadj.
  specialize (Hnone eq_refl permutation Hin). unfold consider in Hnone.
  rewrite Hadj, bind_ok in Hnone.
  destruct (eu c) as [u|e]; [|done]. rewrite bind_ok in Hnone.
  destruct (eu a) as [v|e]; [|done]. rewrite bind_ok in Hnone.
  destruct (Num.gtb u v) eqn:Hgt; [done|].
  apply NumFacts.gtb_false in Hgt. by exists u, v.
Qed.

(** The last round of a loop that returns found no improving
    candidate. *)
Lemma hill_loop_last_round decay threshold fuel : ∀ st st',
  hill_loop eu decay threshold fuel st = Some (Ok st') →
  (st' = st ∧ snd st <= threshold)
  ∨ ∃ time_switched,
      threshold < time_switched
      ∧ improving eu (fst st') time_switched = Ok []
      ∧ Num.truediv time_switched decay = Ok (snd st').
Proof.
  induction fuel as [|fuel IH]; intros st st'.
  - simpl. destruct (Num.gtb (snd st) threshold) eqn:Hgt; [done|].
    intros [= <-]. left. split; [done|]. by apply NumFacts.gtb_false.
  - rewrite hill_loop_S.
    destruct (Num.gtb (snd st) threshold) eqn:Hgt.
    2:{ intros [= <-]. left. split; [done|]. by apply NumFacts.gtb_false. }
    apply NumFacts.gtb_true in Hgt.
    destruct (hill_round eu decay st) as [st1|e] eqn:Hst1; [|done].
    intros [[-> Hle]|Hlater]%IH; [|by right].
    right. destruct st as [a s].
    apply hill_round_cases in Hst1 as [(Hnone & Hdiv & Hfst)|Hsome].
    + exists s. rewrite Hfst. done.
    + destruct Hsome as (_ & _ & _ & _ & _ & _ & Hsame & _).
      simpl in Hgt. rewrite Hsame in Hle. lra.
Qed.

(** Below two entries there is no pair: a round divides the step, and
    does not score anything. *)
Lemma hill_round_single decay a s :
  (length a <= 1)%nat →
  hill_round eu decay (a, s)
  = (time_switched ← Num.truediv s decay; Ok (a, time_switched)).
Proof.
  intros Hlen. unfold hill_round, improving.
  destruct a as [|x [|y a]]; [done|done|simpl in Hlen; lia].
Qed.

(** The search fails on a division by a decay of 0, on a bad index or on
    a failing score. *)
Lemma hill_loop_err decay threshold fuel : ∀ st e,
  hill_loop eu decay threshold fuel st = Some (Err e) →
  ∃ a s, (node_id <$> a = node_id <$> fst st)
         ∧ hill_round eu decay (a, s) = Err e.
Proof.
  induction fuel as [|fuel IH]; intros st e.
  - simpl. by destruct (Num.gtb (snd st) threshold).
  - rewrite hill_loop_S. destruct (Num.gtb (snd st) threshold); [|done].
    destruct (hill_round eu decay st) as [st1|e1] eqn:Hst1.
    + intros (a & s & Hids & Hround)%IH. exists a, s. split; [|done].
      rewrite Hids. destruct st as [a0 s0].
      apply (hill_round_keeps (λ c, node_id <$> c = node_id <$> a0)
               decay a0 s0 st1); [|done|done].
      by intros permutation c Hc%adjust_conserves.
    + intros [= ->]. destruct st as [a0 s0]. by exists a0, s0.
Qed.

(** With node ids that are indices, no pair fails. *)
Lemma adjust_in_range a s permutation :
  Forall (λ i, (i < length a)%nat) (node_id <$> a) →
  permutation ∈ permutations2 a →
  ∃ candidate, adjust a s permutation = Ok candidate.
Proof.
  intros Hrange Hin. destruct permutation as [p0 p1].
  assert (Hp : p0 ∈ a ∧ p1 ∈ a).
  { unfold permutations2 in Hin.
    apply list_elem_of_In, in_flat_map in Hin as ([i x] & Hx & Hin).
    apply in_flat_map in Hin as ([j y] & Hy & Hin).
    destruct (i =? j)%nat; [done|].
    destruct Hin as [[= <- <-]|[]].
    apply list_elem_of_In, elem_of_lookup_imap in Hx as (i' & x' & [= -> ->] & Hx).
    apply list_elem_of_In, elem_of_lookup_imap in Hy as (j' & y' & [= -> ->] & Hy).
    split; by eapply list_elem_of_lookup_2. }
  destruct Hp as [Hp0 Hp1].
  rewrite Forall_fmap in Hrange.
  pose proof (proj1 (Forall_forall _ _) Hrange p0 Hp0) as H0.
  pose proof (proj1 (Forall_forall _ _) Hrange p1 Hp1) as H1.
  simpl in H0, H1.
  apply lookup_lt_is_Some_2 in H0 as [x Hx].
  unfold adjust, index.
  destruct (node_id p0 =? node_id p1)%nat eqn:Hne; [by eexists|].
  apply Nat.eqb_neq in Hne.
  rewrite Hx, bind_ok. destruct (Num.ltb _ 0); [by eexists|].
  rewrite list_lookup_insert_ne by done.
  apply lookup_lt_is_Some_2 in H1 as [y Hy].
  rewrite Hy, bind_ok. by eexists.
Qed.

Lemma hill_round_err_in_range decay a s e :
  Forall (λ i, (i < length a)%nat) (node_id <$> a) →
  hill_round eu decay (a, s) = Err e →
  (e = ZeroDivisionError ∧ decay == 0) ∨ ∃ c, eu c = Err e.
Proof.
  intros Hrange. unfold hill_round.
  destruct (improving eu a s) as [plm|e'] eqn:Himp.
  - rewrite bind_ok. destruct plm as [|c plm].
    + destruct (Qeq_dec decay 0) as [Hz|Hnz].
      * rewrite NumFacts.truediv_zero by done. rewrite bind_err.
        intros [= <-]. by left.
      * by rewrite NumFacts.truediv_ok.
    + destruct (select_spec eu a (c :: plm))
        as (new & _ & _ & _ & Hsel & _); [done| |].
      * eapply Forall_impl; [by apply improving_improves|].
        intros x (_ & u & _ & _ & _ & -> & _). done.
      * by rewrite Hsel.
  - rewrite bind_err. intros [= ->]. right.
    apply SearchFacts.for_each_err in Himp as (plm & pair & Hin & Hbody).
    unfold consider in Hbody.
    destruct (adjust_in_range a s pair Hrange Hin) as [candidate Hadj].
    rewrite Hadj, bind_ok in Hbody. destruct candidate as [c|]; [|done].
    destruct (eu c) as [u|e'] eqn:Hu; rewrite ?bind_ok, ?bind_err in Hbody.
    + destruct (eu a) as [v|e'] eqn:Hv;
        rewrite ?bind_ok, ?bind_err in Hbody; [done|].
      injection Hbody as ->. by exists a.
    + injection Hbody as ->. by exists c.
Qed.
End climb_facts.

(** The search of a program, as the loop it runs. *)
Lemma naive_hill_climbing_loop self decay threshold fuel a :
  naive_hill_climbing self decay threshold fuel = Some (Ok a) →
  ∃ allocation time_switched,
    Num.truediv (budget self) (Num.of_nat (order (dag self))) = Ok allocation
    ∧ hill_loop (global_expected_utility self) decay threshold fuel
        (allocations self, allocation)
      = Some (Ok (a, time_switched)).
Proof.
  unfold naive_hill_climbing, naive_hill_climbing_state.
  destruct (Num.truediv _ _) as [allocation|e]; simpl; [|discriminate].
  destruct (hill_loop _ _ _ _ _) as [[[a' s]|e]|] eqn:Hloop; simpl;
    try discriminate.
  intros [= <-]. by exists allocation, s.
Qed.

(** What [ContractProgram.__init__] sets. *)
Lemma ContractProgram_init_allocations
    file g b scale decimals quality_interval time_interval self :
  ContractProgram_init file g b scale decimals quality_interval
    time_interval = Ok self →
  budget self = b ∧ dag self = g
  ∧ (0 < order g)%nat
  ∧ allocations self
    = (λ node_id, mkTimeAllocation (Qred (b / Num.of_nat (order g))) node_id)
      <$> seq 0 (order g).
Proof.
  unfold ContractProgram_init, uniform_budget. cbv zeta. cbn [budget dag].
  destruct (order g) as [|n] eqn:Horder.
  - by rewrite NumFacts.truediv_zero.
  - assert (Hpos : (0 < Num.of_nat (S n))%Q)
      by (apply NumFacts.of_nat_pos; lia).
    rewrite NumFacts.truediv_ok by lra. rewrite !bind_ok.
    intros [= <-]. cbn [budget dag allocations].
    repeat split; try done. lia.
Qed.

(** X17: the allocations [naive_hill_climbing] returns are as many as
    [self.allocations] and have, entry by entry, their node ids: the
    search changes times only. *)
Theorem search_conserves_nodes
    (self : ContractProgram) (decay threshold : Q) (fuel : nat)
    (time_allocations : list TimeAllocation) :
  naive_hill_climbing self decay threshold fuel = Some (Ok time_allocations) →
  length time_allocations = length (allocations self)
  ∧ node_id <$> time_allocations = node_id <$> allocations self.
Proof.
  intros (allocation & s & _ & Hloop)%naive_hill_climbing_loop.
  apply hill_loop_conserves in Hloop as Hids. simpl in Hids.
  split; [|done].
  by rewrite <- (length_fmap node_id), Hids, length_fmap.
Qed.

Lemma search_conserves_nodes_witness :
  length (Example.allocation 2 0) = length (allocations Example.program)
  ∧ node_id <$> Example.allocation 2 0 = node_id <$> allocations Example.program.
Proof.
  apply (search_conserves_nodes Example.program 2 (1 # 2) 2).
  vm_compute. reflexivity.
Defined.

(** X18: with a threshold that is not negative, a search that starts
    from allocations without a negative time returns allocations without
    a negative time. *)
Theorem search_keeps_nonnegative
    (self : ContractProgram) (decay threshold : Q) (fuel : nat)
    (time_allocations : list TimeAllocation) :
  (0 <= threshold)%Q →
  Forall (λ x, 0 <= time x)%Q (allocations self) →
  naive_hill_climbing self decay threshold fuel = Some (Ok time_allocations) →
  Forall (λ x, 0 <= time x)%Q time_allocations.
Proof.
  intros Hthreshold Hstart (allocation & s & _ & Hloop)%naive_hill_climbing_loop.
  by apply (hill_loop_nonneg _ _ _ _ _ _ _ Hthreshold Hstart) in Hloop.
Qed.

Lemma search_keeps_nonnegative_witness :
  Forall (λ x, 0 <= time x)%Q (Example.allocation 2 0).
Proof.
  apply (search_keeps_nonnegative Example.program 2 (1 # 2) 2).
  - discriminate.
  - repeat constructor; discriminate.
  - vm_compute. reflexivity.
Defined.

(** X19: on a program as [__init__] builds it, the allocations
    [naive_hill_climbing] returns are those of the nodes 0, 1, ... of the
    graph, in this order; and none of their times is negative when
    neither the budget nor the threshold is. *)
Theorem constructed_search_nodes
    (file : option mapping) (g : DAG) (b scale : Q) (decimals : option Z)
    (quality_interval time_interval : Q) (self : ContractProgram)
    (decay threshold : Q) (fuel : nat)
    (time_allocations : list TimeAllocation) :
  ContractProgram_init file g b scale decimals quality_interval time_interval
  = Ok self →
  naive_hill_climbing self decay threshold fuel = Some (Ok time_allocations) →
  node_id <$> time_allocations = seq 0 (order g)
  ∧ ((0 <= b)%Q → (0 <= threshold)%Q →
     Forall (λ x, 0 <= time x)%Q time_allocations).
Proof.
  intros (Hbudget & Hdag & Horder & Hstart)%ContractProgram_init_allocations.
  intros (allocation & s & _ & Hloop)%naive_hill_climbing_loop.
  assert (Hpos : (0 < Num.of_nat (order g))%Q)
    by by apply NumFacts.of_nat_pos.
  pose proof (hill_loop_conserves _ _ _ _ _ _ _ Hloop) as Hids.
  simpl in Hids. split.
  - rewrite Hids, Hstart, <- list_fmap_compose.
    rewrite <- (list_fmap_id (seq 0 (order g))) at 2.
    by apply list_fmap_ext.
  - intros Hb Hthreshold.
    apply (hill_loop_nonneg _ _ _ _ _ _ _ Hthreshold) in Hloop; [done|].
    rewrite Hstart. apply Forall_fmap, Forall_forall. intros i _. simpl.
    rewrite Qred_correct. apply Qle_shift_div_l; lra.
Qed.

Lemma constructed_search_nodes_witness :
  node_id <$> Example.allocation 2 0 = seq 0 (order Example.graph)
  ∧ ((0 <= 2)%Q → (0 <= 1 # 2)%Q →
     Forall (λ x, 0 <= time x)%Q (Example.allocation 2 0)).
Proof.
  apply (constructed_search_nodes (Some Example.file) Example.graph 2 1
           None (1 # 4) 1 Example.program 2 (1 # 2) 2).
  - vm_compute. reflexivity.
  - vm_compute. reflexivity.
Defined.

(** X20: a search that returns ends with a step at or under the
    threshold.  Either no round ran, or its last round found no
    improving candidate: at the last step above the threshold, every
    candidate of the returned allocations was scored, and none above
    them. *)
Theorem search_returns_local_optimum
    (self : ContractProgram) (decay threshold : Q) (fuel : nat)
    (time_allocations : list TimeAllocation) (time_switched : Q) :
  naive_hill_climbing_state self decay threshold fuel
  = Some (Ok (time_allocations, time_switched)) →
  (time_switched <= threshold)%Q
  ∧ ((time_allocations = allocations self
      ∧ Num.truediv (budget self) (Num.of_nat (order (dag self)))
        = Ok time_switched)
     ∨ ∃ last_step,
         (threshold < last_step)%Q
         ∧ Num.truediv last_step decay = Ok time_switched
         ∧ ∀ permutation candidate,
             permutation ∈ permutations2 time_allocations →
             adjust time_allocations last_step permutation
             = Ok (Some candidate) →
             ∃ u v,
               global_expected_utility self candidate = Ok u
               ∧ global_expected_utility self time_allocations = Ok v
               ∧ (u <= v)%Q).
Proof.
  unfold naive_hill_climbing_state.
  destruct (Num.truediv _ _) as [allocation|e]; [|discriminate].
  intros Hloop. split.
  - by apply hill_loop_exit in Hloop.
  - apply hill_loop_last_round in Hloop as [[Hsame _]|Hlast].
    + left. by injection Hsame as -> ->.
    + right. destruct Hlast as (last_step & Habove & Hnone & Hdiv).
      exists last_step. split; [done|]. split; [done|].
      by apply improving_none.
Qed.

Lemma search_returns_local_optimum_witness :
  (1 # 2 <= 1 # 2)%Q
  ∧ ((Example.allocation 2 0 = allocations Example.program
      ∧ Num.truediv (budget Example.program)
          (Num.of_nat (order (dag Example.program)))
        = Ok (1 # 2))
     ∨ ∃ last_step,
         (1 # 2 < last_step)%Q
         ∧ Num.truediv last_step 2 = Ok (1 # 2)
         ∧ ∀ permutation candidate,
             permutation ∈ permutations2 (Example.allocation 2 0) →
             adjust (Example.allocation 2 0) last_step permutation
             = Ok (Some candidate) →
             ∃ u v,
               global_expected_utility Example.program candidate = Ok u
               ∧ global_expected_utility Example.program
                   (Example.allocation 2 0) = Ok v
               ∧ (u <= v)%Q).
Proof.
  apply (search_returns_local_optimum Example.program 2 (1 # 2) 2).
  vm_compute. reflexivity.
Defined.

(** X21: with a decay of at most 1 the step never shrinks: a search that
    starts with a step above a threshold that is not negative never
    returns allocations.  However many rounds it is given, it is still
    running after them, or it has raised. *)
Theorem search_needs_decay_above_one
    (self : ContractProgram) (decay threshold : Q) (fuel : nat) :
  (0 < decay)%Q → (decay <= 1)%Q → (0 <= threshold)%Q →
  (threshold < budget self / Num.of_nat (order (dag self)))%Q →
  naive_hill_climbing self decay threshold fuel = None
  ∨ ∃ e, naive_hill_climbing self decay threshold fuel = Some (Err e).
Proof.
  intros Hpos Hone Hthreshold Hstart.
  destruct (naive_hill_climbing self decay threshold fuel)
    as [[a|e]|] eqn:Hsearch; [exfalso|right; by exists e|by left].
  apply naive_hill_climbing_loop in Hsearch as (allocation & s & Hdiv & Hloop).
  assert (Hallocation : (threshold < allocation)%Q).
  { destruct (Qeq_dec (Num.of_nat (order (dag self))) 0) as [Hz|Hnz].
    - by rewrite NumFacts.truediv_zero in Hdiv.
    - rewrite NumFacts.truediv_ok in Hdiv by done.
      injection Hdiv as <-. by rewrite Qred_correct. }
  pose proof (hill_loop_exit _ _ _ _ _ _ Hloop) as Hexit.
  apply (hill_loop_invariant _ (λ st, threshold < snd st)%Q) in Hloop;
    [simpl in *; lra| |done].
  intros [a1 s1] st2 Hs1 _. simpl in Hs1.
  intros [(_ & Hstep & _)|Hsome]%hill_round_cases.
  - rewrite NumFacts.truediv_ok in Hstep by lra. injection Hstep as <-.
    rewrite Qred_correct.
    assert (s1 <= s1 / decay)%Q; [|lra].
    apply Qle_shift_div_l; [done|].
    assert (s1 * decay <= s1 * 1)%Q by (apply Qmult_le_l; lra). lra.
  - destruct Hsome as (_ & _ & _ & _ & _ & _ & -> & _). done.
Qed.

Lemma search_needs_decay_above_one_witness :
  naive_hill_climbing Example.program 1 (1 # 2) 5 = None
  ∨ ∃ e, naive_hill_climbing Example.program 1 (1 # 2) 5 = Some (Err e).
Proof.
  apply (search_needs_decay_above_one Example.program 1 (1 # 2) 5).
  - reflexivity.
  - discriminate.
  - discriminate.
  - reflexivity.
Defined.

(** X22: when every node id of [self.allocations] is an index of the
    list, the search itself raises nothing but [ZeroDivisionError], on a
    graph of order 0 or a decay of 0: any other exception is that of an
    expected utility. *)
Theorem search_errors
    (self : ContractProgram) (decay threshold : Q) (fuel : nat) (e : exn) :
  indices_in_range (allocations self) →
  naive_hill_climbing_state self decay threshold fuel = Some (Err e) →
  (e = ZeroDivisionError
   ∧ (order (dag self) = 0%nat ∨ (decay == 0)%Q))
  ∨ ∃ time_allocations,
      global_expected_utility self time_allocations = Err e.
Proof.
  intros Hrange. unfold naive_hill_climbing_state.
  destruct (Num.truediv _ _) as [allocation|e'] eqn:Hdiv.
  - intros (a & s & Hids & Hround)%hill_loop_err. simpl in Hids.
    apply hill_round_err_in_range in Hround as [[-> Hz]|Hscore].
    + left. split; [done|by right].
    + by right.
    + rewrite Hids, <- (length_fmap node_id a), Hids, length_fmap.
      by apply Forall_fmap.
  - intros [= <-]. left.
    pose proof (NumFacts.truediv_err _ _ _ Hdiv) as ->. split; [done|].
    left. destruct (order (dag self)) as [|n]; [done|]. exfalso.
    assert (Hpos : (0 < Num.of_nat (S n))%Q)
      by (apply NumFacts.of_nat_pos; lia).
    rewrite NumFacts.truediv_ok in Hdiv by lra. done.
Qed.

Lemma search_errors_witness :
  (ZeroDivisionError = ZeroDivisionError
   ∧ (order (dag Example.program) = 0%nat ∨ (0 == 0)%Q))
  ∨ ∃ time_allocations,
      global_expected_utility Example.program time_allocations
      = Err ZeroDivisionError.
Proof.
  apply (search_errors Example.program 0 (1 # 2) 2).
  - repeat constructor.
  - vm_compute. reflexivity.
Defined.

(** X23: on at most one allocation there is no pair to exchange time:
    the search scores nothing, so it runs the same for any performance
    profile, and what it returns is [self.allocations]. *)
Theorem search_single_node
    (self self' : ContractProgram) (decay threshold : Q) (fuel : nat) :
  (length (allocations self) <= 1)%nat →
  allocations self' = allocations self →
  budget self' = budget self →
  dag self' = dag self →
  naive_hill_climbing self' decay threshold fuel
  = naive_hill_climbing self decay threshold fuel
  ∧ ∀ time_allocations,
      naive_hill_climbing self decay threshold fuel
      = Some (Ok time_allocations) →
      time_allocations = allocations self.
Proof.
  intros Hlen Hallocations Hbudget Hdag.
  assert (Hloop : ∀ eu eu' a n s,
    (length a <= 1)%nat →
    hill_loop eu decay threshold n (a, s)
    = hill_loop eu' decay threshold n (a, s)
    ∧ ∀ st', hill_loop eu decay threshold n (a, s) = Some (Ok st') →
             fst st' = a).
  { intros eu eu' a n. induction n as [|n IH]; intros s Ha.
    - simpl. destruct (Num.gtb s threshold); [done|].
      split; [done|]. by intros st' [= <-].
    - rewrite !hill_loop_S. cbn [snd].
      destruct (Num.gtb s threshold); [|split; [done|by intros st' [= <-]]].
      rewrite !hill_round_single by done.
      destruct (Num.truediv s decay) as [s'|e]; [|done].
      rewrite !bind_ok. by apply IH. }
  split.
  - unfold naive_hill_climbing, naive_hill_climbing_state.
    rewrite Hallocations, Hbudget, Hdag.
    destruct (Num.truediv _ _) as [allocation|e]; [|done].
    by rewrite (proj1 (Hloop (global_expected_utility self')
                         (global_expected_utility self) _ fuel allocation Hlen)).
  - intros a (allocation & s & _ & Hreturn)%naive_hill_climbing_loop.
    symmetry.
    apply (proj2 (Hloop (global_expected_utility self)
                    (global_expected_utility self) _ fuel allocation Hlen)) in Hreturn.
    done.
Qed.

Lemma search_single_node_witness :
  naive_hill_climbing (example_single (Some Example.file)) 2 (1 # 2) 3
  = naive_hill_climbing (example_single None) 2 (1 # 2) 3
  ∧ ∀ time_allocations,
      naive_hill_climbing (example_single None) 2 (1 # 2) 3
      = Some (Ok time_allocations) →
      time_allocations = allocations (example_single None).
Proof.
  apply (search_single_node (example_single None)
           (example_single (Some Example.file)) 2 (1 # 2) 3).
  - simpl. lia.
  - reflexivity.
  - reflexivity.
  - reflexivity.
Defined.

(** ** The expected utility *)

Section utility_facts.
Local Open Scope Q_scope.

Lemma subscript_within P d key d' :
  samples_within P d → subscript d key = Ok d' → samples_within P d'.
Proof.
  intros Hd. destruct Hd as [l Hl|entries Hentries]; simpl; [done|].
  destruct (entries !! key) as [v|] eqn:Hkey; [|done].
  intros [= <-]. by eapply Hentries.
Qed.

Lemma node_qualities_within P top id d :
  samples_within P top → node_qualities top id = Ok d → samples_within P d.
Proof.
  intros Htop. unfold node_qualities.
  destruct (subscript top _) as [node|e] eqn:Hnode; [|done].
  rewrite bind_ok. apply subscript_within. by eapply subscript_within.
Qed.

Lemma descend_within (self : PerformanceProfile) P d pqs d' :
  samples_within P d → descend self d pqs = Ok d' → samples_within P d'.
Proof.
  intros Hd. unfold descend. apply for_each_invariant; [|done].
  intros d1 pq d2 _ Hd1.
  destruct (as_float pq) as [q|e]; [|done]. rewrite bind_ok.
  destruct (round_nearest q (quality_interval self)) as [r|e]; [|done].
  rewrite bind_ok. by apply subscript_within.
Qed.

(** Every sample a query returns is a sample of the file. *)
Lemma query_quality_list_within
    (self : PerformanceProfile) P top time id pq qualities :
  dictionary self = Some top → samples_within P top →
  query_quality_list_on_interval self time id pq = Ok qualities →
  Forall P qualities.
Proof.
  intros Htop Hwithin. unfold query_quality_list_on_interval. rewrite Htop.
  destruct (node_qualities top id) as [d|e] eqn:Hd; [|done].
  rewrite bind_ok. apply (node_qualities_within P) in Hd; [|done].
  destruct (if truthy pq then _ else _) as [d'|e] eqn:Hd'; [|done].
  rewrite bind_ok.
  assert (Hd'' : samples_within P d').
  { destruct (truthy pq); [|by injection Hd' as <-].
    destruct (iterate pq) as [pqs|e]; [|done]. rewrite bind_ok in Hd'.
    by eapply descend_within. }
  destruct (interval_keys self time) as [keys|e]; [|done]. rewrite bind_ok.
  apply for_each_invariant; [|constructor].
  intros acc key acc' _ Hacc.
  destruct (subscript d' key) as [found|e] eqn:Hfound; [|done].
  rewrite bind_ok. destruct found as [more|entries]; [|done].
  simpl. intros [= <-]. apply Forall_app. split; [done|].
  apply (subscript_within P) in Hfound; [|done]. by inversion Hfound.
Qed.

(** A probability that is returned is a share of the samples. *)
Lemma probability_unit (self : PerformanceProfile) q l p :
  query_probability_contract_expression self q l = Ok p → 0 <= p ∧ p <= 1.
Proof.
  unfold query_probability_contract_expression.
  destruct (Num.floordiv q (quality_interval self)) as [f|e]; [|done].
  rewrite bind_ok. cbv zeta.
  match goal with
  | |- context [count_in_interval ?lo ?hi ?xs] =>
      pose proof (count_bounds lo hi xs) as [Hlo Hhi];
      set (count := count_in_interval lo hi xs) in *
  end.
  set (n := length (sorted l)) in *.
  unfold Num.truediv.
  destruct (Num.eqb (Num.of_nat n) 0) eqn:Hz; [done|].
  apply NumFacts.eqb_false in Hz. intros [= <-]. rewrite Qred_correct.
  assert (Hn : 0 < Num.of_nat n).
  { apply NumFacts.of_nat_pos. destruct n; [|lia]. by destruct Hz. }
  unfold Num.of_Z, Num.of_nat in *.
  rewrite Zle_Qle in Hlo, Hhi. change (inject_Z 0) with 0 in Hlo.
  set (c := inject_Z count) in *. set (m := inject_Z (Z.of_nat n)) in *.
  split.
  - apply Qle_shift_div_l; [done|]. lra.
  - apply Qle_shift_div_r; [done|]. lra.
Qed.

Lemma for_each_count {A S} (body : S → A → result S) (size : S → nat) xs :
  (∀ s x s', body s x = Ok s' → size s' = Datatypes.S (size s)) →
  ∀ s0 s, for_each body s0 xs = Ok s → size s = (size s0 + length xs)%nat.
Proof.
  intros Hbody. induction xs as [|x xs IH]; intros s0 s; simpl.
  - intros [= <-]. lia.
  - destruct (body s0 x) as [s1|e] eqn:Hx; [|done]. rewrite bind_ok.
    intros Hs%IH. rewrite Hs, (Hbody _ _ _ Hx). lia.
Qed.

Lemma for_each_related {A A' S}
    (body : S → A → result S) (body' : S → A' → result S) xs xs' :
  Forall2 (λ x x', ∀ s, body s x = body' s x') xs xs' →
  ∀ s, for_each body s xs = for_each body' s xs'.
Proof.
  induction 1 as [|x x' xs xs' Hx _ IH]; intros s; simpl; [done|].
  rewrite Hx. destruct (body' s x'); [|done]. rewrite !bind_ok. apply IH.
Qed.

Lemma index_times {B} a a' i (k : TimeAllocation → result B) :
  time <$> a = time <$> a' →
  (∀ x x', time x = time x' → k x = k x') →
  (x ← index a i; k x) = (x ← index a' i; k x).
Proof.
  intros Htimes Hk. unfold index.
  assert (H : (time <$> a) !! i = (time <$> a') !! i) by by rewrite Htimes.
  rewrite !list_lookup_fmap in H.
  destruct (a !! i) as [x|], (a' !! i) as [x'|]; simpl in H; try done.
  rewrite !bind_ok. apply Hk. congruence.
Qed.

Lemma find_parent_qualities_times (self : ContractProgram) a a' :
  time <$> a = time <$> a' →
  ∀ node depth,
    find_parent_qualities self node a depth
    = find_parent_qualities self node a' depth.
Proof.
  intros Htimes node.
  induction node as [node_id ps IH] using Node_induction. intros depth.
  rewrite !find_parent_qualities_unfold. cbn [parents id].
  rewrite (comprehension_ext
             (λ parent, find_parent_qualities self parent a (S depth))
             (λ parent, find_parent_qualities self parent a' (S depth)))
    by (eapply Forall_impl; [exact IH|]; intros p Hp; apply Hp).
  destruct (comprehension _ ps) as [pqs|e]; [|done]. rewrite !bind_ok.
  destruct (S depth =? 1)%nat; [done|].
  apply index_times; [done|]. intros x x' Hx.
  unfold query_average_quality. by rewrite Hx.
Qed.
End utility_facts.

(** X24: [global_expected_utility] reads the times of the allocations by
    position, and never their [node_id]: two allocation vectors with the
    same times, position by position, have the same expected utility (or
    raise the same exception). *)
Theorem expected_utility_reads_times
    (self : ContractProgram) (time_allocations time_allocations' : list TimeAllocation) :
  time <$> time_allocations = time <$> time_allocations' →
  global_expected_utility self time_allocations
  = global_expected_utility self time_allocations'.
Proof.
  intros Htimes. unfold global_expected_utility.
  rewrite (for_each_related
             (expected_utility_step self time_allocations)
             (expected_utility_step self time_allocations')
             (imap pair time_allocations) (imap pair time_allocations'));
    [done|].
  apply Forall2_same_length_lookup_2.
  - rewrite !length_imap, <- (length_fmap time time_allocations), Htimes.
    by rewrite length_fmap.
  - intros i x x'. rewrite !list_lookup_imap.
    destruct (time_allocations !! i) as [t|] eqn:Ht; [|done].
    destruct (time_allocations' !! i) as [t'|] eqn:Ht'; [|done].
    intros [= <-] [= <-] [probability average_qualities].
    assert (Htime : time t = time t').
    { assert (H : (time <$> time_allocations) !! i
                  = (time <$> time_allocations') !! i) by by rewrite Htimes.
      rewrite !list_lookup_fmap, Ht, Ht' in H. by injection H. }
    unfold expected_utility_step.
    destruct (find_node self i) as [node|e]; [|done]. rewrite !bind_ok.
    by rewrite (find_parent_qualities_times self _ _ Htimes), Htime.
Qed.

Lemma expected_utility_reads_times_witness :
  global_expected_utility Example.program (Example.allocation 1 1)
  = global_expected_utility Example.program
      [mkTimeAllocation 1 5; mkTimeAllocation 1 7].
Proof.
  apply (expected_utility_reads_times Example.program). reflexivity.
Defined.

(** X25: when every sample of the file is a quality between 0 and 1, an
    expected utility that is returned lies between 0 and the number of
    allocations: it is a product of shares of samples times a sum of one
    average per allocation. *)
Theorem expected_utility_bounds
    (self : ContractProgram) (top : mapping)
    (time_allocations : list TimeAllocation) (expected_utility : Q) :
  dictionary self = Some top →
  samples_within unit_quality top →
  global_expected_utility self time_allocations = Ok expected_utility →
  (0 <= expected_utility)%Q
  ∧ (expected_utility <= Num.of_nat (length time_allocations))%Q.
Proof.
  intros Htop Hwithin. unfold global_expected_utility.
  destruct (for_each _ _ _) as [[probability average_qualities]|e] eqn:Hloop;
    [|done].
  rewrite bind_ok. intros [= <-].
  assert (Hstep : ∀ s x s',
    expected_utility_step self time_allocations s x = Ok s' →
    ((0 <= fst s)%Q ∧ (fst s <= 1)%Q ∧ Forall unit_quality (snd s) →
     (0 <= fst s')%Q ∧ (fst s' <= 1)%Q ∧ Forall unit_quality (snd s'))
    ∧ length (snd s') = S (length (snd s))).
  { intros [p avgs] [i t] s'. unfold expected_utility_step.
    destruct (find_node self i) as [node|e]; [|done]. rewrite bind_ok.
    destruct (find_parent_qualities self node time_allocations 0)
      as [pqs|e]; [|done].
    rewrite bind_ok.
    destruct (query_quality_list_on_interval self (time t) i pqs)
      as [qualities|e] eqn:Hqualities; [|done].
    rewrite bind_ok.
    apply (query_quality_list_within self unit_quality top) in Hqualities;
      [|done..].
    destruct (average_quality qualities) as [average|e] eqn:Haverage; [|done].
    rewrite bind_ok.
    destruct (query_probability_contract_expression self average qualities)
      as [share|e] eqn:Hshare; [|done].
    rewrite bind_ok. intros [= <-]. cbn [fst snd].
    apply probability_unit in Hshare as [Hs0 Hs1].
    split; [|rewrite length_app; simpl; lia].
    intros (Hp0 & Hp1 & Havgs). rewrite NumFacts.mul_eq.
    assert (0 <= p * share)%Q by by apply Qmult_le_0_compat.
    assert (p * share <= 1 * share)%Q by by apply Qmult_le_compat_r.
    split; [done|]. split; [lra|].
    apply Forall_app. split; [done|]. constructor; [|constructor].
    destruct (SampleFacts.average_between 0 1 qualities)
      as (average' & Haverage' & Hbounds);
      [by eapply SampleFacts.average_ok|done|].
    assert (average' = average) as -> by congruence. exact Hbounds. }
  assert (Hinv : (0 <= probability)%Q ∧ (probability <= 1)%Q
                 ∧ Forall unit_quality average_qualities).
  { revert Hloop.
    apply (for_each_invariant _
             (λ s, (0 <= fst s)%Q ∧ (fst s <= 1)%Q
                   ∧ Forall unit_quality (snd s))).
    - intros s x s' _ Hs Hx. by apply (Hstep s x s' Hx).
    - simpl. repeat split; [discriminate..|constructor]. }
  assert (Hcount : length average_qualities = length time_allocations).
  { apply (for_each_count _ (λ s, length (snd s))) in Hloop.
    - simpl in Hloop. by rewrite Hloop, length_imap.
    - intros s x s' Hx. by apply (Hstep s x s' Hx). }
  destruct Hinv as (Hp0 & Hp1 & Havgs).
  rewrite NumFacts.mul_eq. unfold global_utility. rewrite NumFacts.sum_eq.
  destruct (SampleFacts.total_bounds 0 1 average_qualities Havgs) as [Ht0 Ht1].
  rewrite Hcount in Ht0, Ht1.
  set (total := Num.total average_qualities) in *.
  set (n := Num.of_nat (length time_allocations)) in *.
  assert (0 <= total)%Q by lra.
  assert (0 <= probability * total)%Q by by apply Qmult_le_0_compat.
  assert (probability * total <= 1 * total)%Q by by apply Qmult_le_compat_r.
  split; lra.
Qed.

(** The samples of the example are qualities. *)
Lemma samples_within_object P entries :
  Forall (λ entry, samples_within P entry.2) entries →
  samples_within P (Example.object entries).
Proof.
  intros Hall. constructor. intros key d Hkey.
  apply elem_of_list_to_map_2 in Hkey.
  by apply (proj1 (Forall_forall _ _) Hall (key, d)).
Qed.

Lemma samples_within_slots P keys samples :
  Forall P samples →
  Forall (λ entry, samples_within P entry.2) (Example.slots keys samples).
Proof.
  intros Hall. unfold Example.slots. apply Forall_fmap, Forall_forall.
  intros key _. by constructor.
Qed.

Lemma example_file_unit : samples_within unit_quality Example.file.
Proof.
  unfold Example.file.
  repeat first
    [ apply samples_within_object
    | apply samples_within_slots
    | apply samples_within_samples
    | apply Forall_app; split
    | apply Forall_cons; split
    | apply Forall_nil
    | exact I
    | split; discriminate ].
Qed.

Lemma expected_utility_bounds_witness :
  (0 <= 1 # 2)%Q ∧ (1 # 2 <= Num.of_nat (length (Example.allocation 1 1)))%Q.
Proof.
  apply (expected_utility_bounds Example.program Example.file
           (Example.allocation 1 1) (1 # 2)).
  - reflexivity.
  - exact example_file_unit.
  - vm_compute. reflexivity.
Defined.

(** X26: when every sample of the file is a quality between 0 and 1,
    an estimate that [query_average_quality] returns is between 0 and 1,
    whatever the node, the time and the qualities of the parents. *)
Theorem average_quality_estimate_within
    (self : PerformanceProfile) (id : nat) (time_allocation : TimeAllocation)
    (parent_qualities : value) (top : mapping) (average : Q) :
  dictionary self = Some top →
  samples_within unit_quality top →
  query_average_quality self id time_allocation parent_qualities = Ok average →
  (0 <= average)%Q ∧ (average <= 1)%Q.
Proof.
  intros Htop Hwithin. unfold query_average_quality. rewrite Htop.
  assert (Hfound : ∀ d,
    samples_within unit_quality d →
    ∀ key,
      (found ← subscript d key;
       qualities ← samples_of found;
       average_quality qualities) = Ok average →
      (0 <= average)%Q ∧ (average <= 1)%Q).
  { intros d Hd key.
    destruct (subscript d key) as [found|e] eqn:Hkey; [|done].
    rewrite bind_ok.
    apply (subscript_within unit_quality) in Hkey; [|done].
    destruct Hkey as [qualities Hqualities|entries _]; [|done].
    cbn [samples_of]. rewrite bind_ok. intros Haverage.
    destruct (SampleFacts.average_between 0 1 qualities)
      as (average' & Haverage' & Hbounds);
      [by eapply SampleFacts.average_ok|done|].
    assert (average' = average) as -> by congruence. exact Hbounds. }
  destruct (node_qualities top id) as [d|e] eqn:Hd;
    [|by destruct (negb _)].
  apply node_qualities_within with (P := unit_quality) in Hd; [|done].
  destruct (round_nearest (time time_allocation) (time_interval self))
    as [estimated_time|e]; [|by destruct (negb _)].
  destruct (negb (truthy parent_qualities)); rewrite !bind_ok.
  - by apply Hfound.
  - destruct (iterate parent_qualities) as [pqs|e]; [|done].
    rewrite bind_ok.
    destruct (descend self d pqs) as [d'|e] eqn:Hd'; [|done].
    rewrite bind_ok. apply Hfound. by eapply descend_within.
Qed.

Lemma average_quality_estimate_within_witness :
  (0 <= 1 # 2)%Q ∧ (1 # 2 <= 1)%Q.
Proof.
  apply (average_quality_estimate_within Example.program 1
           (mkTimeAllocation 0 1) (VList [VFloat (3 # 4)]) Example.file
           (1 # 2)).
  - reflexivity.
  - exact example_file_unit.
  - vm_compute. reflexivity.
Defined.

Lemma comprehension_err {A B} (f : A → result B) xs e :
  comprehension f xs = Err e → ∃ x, x ∈ xs ∧ f x = Err e.
Proof.
  induction xs as [|x xs IH]; cbn [comprehension]; [done|].
  destruct (f x) as [y|e'] eqn:Hx.
  - rewrite bind_ok.
    destruct (comprehension f xs) as [ys|e'']; [done|].
    rewrite bind_err. intros [= ->].
    destruct IH as (x' & Hin & Hx'); [done|].
    exists x'. split; [by right|done].
  - rewrite bind_err. intros [= ->]. exists x. split; [by left|done].
Qed.

(** Without a profile the parents' qualities fail on an index or on the
    missing profile. *)
Lemma find_parent_qualities_without_profile (self : ContractProgram) a :
  dictionary self = None →
  ∀ node depth e,
    find_parent_qualities self node a depth = Err e →
    e = IndexError ∨ e = ValueError.
Proof.
  intros Hnone node.
  induction node as [node_id ps IH] using Node_induction. intros depth e.
  rewrite find_parent_qualities_unfold. cbn [parents id].
  destruct (comprehension _ ps) as [pqs|e'] eqn:Hps.
  - rewrite bind_ok. destruct (S depth =? 1)%nat; [done|].
    unfold index. destruct (a !! node_id) as [t|].
    + rewrite bind_ok. unfold query_average_quality. rewrite Hnone.
      intros [= <-]. by right.
    + rewrite bind_err. intros [= <-]. by left.
  - rewrite bind_err. intros [= ->].
    apply comprehension_err in Hps as (p & Hp & Herr).
    eapply Forall_forall in IH; [|exact Hp]. by eapply IH.
Qed.

(** X27: the expected utility of no allocation at all is 0, whatever the
    program.  On a program without a parsed profile
    ([self.dictionary] is [None]) the expected utility of any other
    allocation vector raises, [IndexError] or [ValueError]. *)
Theorem expected_utility_without_profile
    (self : ContractProgram) (time_allocations : list TimeAllocation) :
  global_expected_utility self [] = Ok 0%Q
  ∧ (dictionary self = None → time_allocations ≠ [] →
     ∃ e, global_expected_utility self time_allocations = Err e
          ∧ (e = IndexError ∨ e = ValueError)).
Proof.
  split; [reflexivity|]. intros Hnone Hne.
  destruct time_allocations as [|t a]; [done|].
  unfold global_expected_utility. cbn [imap for_each].
  assert (Hstep : ∃ e,
    expected_utility_step self (t :: a) (1%Q, []) (0%nat, t) = Err e
    ∧ (e = IndexError ∨ e = ValueError)).
  { unfold expected_utility_step, find_node.
    destruct (List.find _ _) as [node|].
    2:{ exists IndexError. split; [done|by left]. }
    rewrite bind_ok.
    destruct (find_parent_qualities self node (t :: a) 0) as [pqs|e] eqn:Hpqs.
    - rewrite bind_ok. unfold query_quality_list_on_interval.
      rewrite Hnone. exists ValueError. split; [done|by right].
    - exists e. split; [done|].
      by eapply find_parent_qualities_without_profile. }
  destruct Hstep as (e & -> & He). rewrite !bind_err. by exists e.
Qed.
